(** * Composed-tree tracking of [TreeNode]

    A shallow embedding of the composed-tree part of the [TreeNode] class
    (the TypeScript segment of [src/samsara/inputs/MouseInput.js]): the slot
    distribution diff, the pointer bookkeeping done by the mutation handlers,
    the lifecycle callbacks, and the two derived getters [_composedParent] and
    [_composedChildren].

    Objects are identified by a natural number (their reference).  The browser
    DOM is a read-only collaborator and is passed around as a record of
    queries; the mutable fields of the [TreeNode] objects live in a heap. *)

From Stdlib Require Import Ascii String.
From stdpp Require Import gmap strings list fin_maps.

Abbreviation ref := nat (only parsing).

(** ** The DOM, as the tracker reads it *)

(** What [instanceof] can tell about a DOM node, apart from it being a
    [TreeNode] (that is decided by the heap below: a [TreeNode] is an
    [HTMLElement] that has an entry there).  [HTMLElement] stands for the
    HTML elements that are not slots, [OtherElement] for the elements that
    are not HTML elements (SVG, MathML), [OtherNode] for the nodes that are
    neither elements nor shadow roots (documents, fragments). *)
Inductive NodeClass :=
  | HTMLSlotElement
  | ShadowRoot
  | HTMLElement
  | OtherElement
  | OtherNode.

#[global] Instance NodeClass_eq_dec : EqDecision NodeClass.
Proof. solve_decision. Defined.

Record DOM := mkDOM {
  nodeClass : ref → NodeClass;
  parentNode : ref → option ref;
  (** element children, in tree order ([el.children], [root.children]) *)
  children : ref → list ref;
  (** [root.host] of a [ShadowRoot] *)
  host : ref → ref;
  assignedSlot : ref → option ref;
  (** [slot.assignedElements({flatten: true})] *)
  assignedElements : ref → list ref;
  (** [el.matches(':defined')] *)
  defined : ref → bool;
  tagName : ref → string;
  (** [hasShadow(el)] of [core/utils.js], which is not part of the sources at
      hand: taken as a query of the environment. *)
  hasShadow : ref → bool;
}.

(** [node.parentElement]: the parent node when it is an element. *)
Definition parentElement (d : DOM) (n : ref) : option ref :=
  match parentNode d n with
  | Some p =>
      match nodeClass d p with
      | HTMLSlotElement | HTMLElement | OtherElement => Some p
      | ShadowRoot | OtherNode => None
      end
  | None => None
  end.

(** ** JavaScript arrays and sets of references *)

(** [arr.indexOf(x)]; [None] stands for [-1]. *)
Fixpoint indexOf (x : ref) (arr : list ref) : option nat :=
  match arr with
  | [] => None
  | y :: arr' => if decide (y = x) then Some 0 else S <$> indexOf x arr'
  end.

(** [arr.splice(start, deleteCount)] for [start >= 0]: a start past the end
    deletes nothing. *)
Definition splice (start deleteCount : nat) (arr : list ref) : list ref :=
  take start arr ++ drop (start + deleteCount) arr.

(** A [Set] of references, in insertion order. *)
Definition Set_add (x : ref) (s : list ref) : list ref :=
  if decide (x ∈ s) then s else s ++ [x].

Definition Set_delete (x : ref) (s : list ref) : list ref :=
  filter (λ y, y ≠ x) s.

(** ** The [TreeNode] objects *)

Inductive ComposedTreeConnectionType := root | slot | actual.

#[global] Instance ComposedTreeConnectionType_eq_dec :
  EqDecision ComposedTreeConnectionType.
Proof. solve_decision. Defined.

Record TreeNode := mkTreeNode {
  isScene : bool;
  isNode : bool;
  (** whether the subclass implements the optional life cycle methods *)
  childComposedCallback : bool;
  childUncomposedCallback : bool;
  __shadowRoot : option ref;
  __isPossiblyDistributedToShadowRoot : bool;
  (** the [WeakMap] from a child slot to its last known assigned elements *)
  __prevAssignedNodes : gmap nat (list nat);
  __distributedParent : option ref;
  __shadowRootParent : option ref;
  (** [undefined] or a [Set] *)
  __distributedChildren : option (list ref);
}.

(** A freshly constructed element: the field initialisers of the class. *)
Definition newTreeNode (scene node composedCb uncomposedCb : bool) : TreeNode :=
  mkTreeNode scene node composedCb uncomposedCb None false ∅ None None None.

Definition set__shadowRoot (v : option ref) (o : TreeNode) : TreeNode :=
  mkTreeNode (isScene o) (isNode o) (childComposedCallback o)
    (childUncomposedCallback o) v (__isPossiblyDistributedToShadowRoot o)
    (__prevAssignedNodes o) (__distributedParent o) (__shadowRootParent o)
    (__distributedChildren o).

Definition set__isPossiblyDistributedToShadowRoot (v : bool) (o : TreeNode) : TreeNode :=
  mkTreeNode (isScene o) (isNode o) (childComposedCallback o)
    (childUncomposedCallback o) (__shadowRoot o) v
    (__prevAssignedNodes o) (__distributedParent o) (__shadowRootParent o)
    (__distributedChildren o).

Definition set__prevAssignedNodes (v : gmap nat (list nat)) (o : TreeNode) : TreeNode :=
  mkTreeNode (isScene o) (isNode o) (childComposedCallback o)
    (childUncomposedCallback o) (__shadowRoot o)
    (__isPossiblyDistributedToShadowRoot o)
    v (__distributedParent o) (__shadowRootParent o)
    (__distributedChildren o).

Definition set__distributedParent (v : option ref) (o : TreeNode) : TreeNode :=
  mkTreeNode (isScene o) (isNode o) (childComposedCallback o)
    (childUncomposedCallback o) (__shadowRoot o)
    (__isPossiblyDistributedToShadowRoot o)
    (__prevAssignedNodes o) v (__shadowRootParent o)
    (__distributedChildren o).

Definition set__shadowRootParent (v : option ref) (o : TreeNode) : TreeNode :=
  mkTreeNode (isScene o) (isNode o) (childComposedCallback o)
    (childUncomposedCallback o) (__shadowRoot o)
    (__isPossiblyDistributedToShadowRoot o)
    (__prevAssignedNodes o) (__distributedParent o) v
    (__distributedChildren o).

Definition set__distributedChildren (v : option (list ref)) (o : TreeNode) : TreeNode :=
  mkTreeNode (isScene o) (isNode o) (childComposedCallback o)
    (childUncomposedCallback o) (__shadowRoot o)
    (__isPossiblyDistributedToShadowRoot o)
    (__prevAssignedNodes o) (__distributedParent o) (__shadowRootParent o)
    v.

(** ** The slot distribution diff *)

Record Diff := mkDiff { added : list ref; removed : list ref }.

(** The loop of [__getDistributedChildDifference] over [previousNodes], from
    index [i] on.  [newNodes] is the array that [diff.added] aliases, so what
    is left of it at the end is the added list. *)
Fixpoint diffLoop (previousNodes : list ref) (i : nat) (newNodes removed : list ref)
  : Diff :=
  match previousNodes with
  | [] => mkDiff newNodes removed
  | oldNode :: rest =>
      match indexOf oldNode newNodes with
      | None => diffLoop rest (S i) newNodes (removed ++ [oldNode])
      | Some newIndex => diffLoop rest (S i) (splice i 1 newNodes) removed
      end
  end.

(** The list a slot contributes to the tracker [this]:
    [!this.isScene && slot.assignedSlot ? [] : slot.assignedElements({flatten: true})]. *)
Definition resolveNewNodes (d : DOM) (this : TreeNode) (s : ref) : list ref :=
  if negb (isScene this) && bool_decide (is_Some (assignedSlot d s))
  then []
  else assignedElements d s.

(** [this.__getDistributedChildDifference(slot)] on the object [this]: the
    object with its snapshot for [slot] replaced, and the diff. *)
Definition __getDistributedChildDifference (d : DOM) (this : TreeNode) (s : ref)
  : TreeNode * Diff :=
  let previousNodes := default [] (__prevAssignedNodes this !! s) in
  let newNodes := resolveNewNodes d this s in
  (set__prevAssignedNodes (<[s := newNodes]> (__prevAssignedNodes this)) this,
   diffLoop previousNodes 0 newNodes []).

(** The diff of two plain lists, as the loop computes it. *)
Definition diffOf (previous current : list ref) : Diff := diffLoop previous 0 current [].

(** ** The tracker state *)

(** A life cycle callback invocation: [parent.childComposedCallback(child, t)]
    or [parent.childUncomposedCallback(child, t)]. *)
Inductive Callback :=
  | Composed (parent child : ref) (t : ComposedTreeConnectionType)
  | Uncomposed (parent child : ref) (t : ComposedTreeConnectionType).

#[global] Instance Callback_eq_dec : EqDecision Callback.
Proof. solve_decision. Defined.

(** A [slotchange] listener: the slot, the element whose
    [__onChildSlotChange] it is, and the capture flag it was added with. *)
Record Listener := mkListener { l_slot : ref; l_this : ref; l_capture : bool }.

#[global] Instance Listener_eq_dec : EqDecision Listener.
Proof. solve_decision. Defined.

(** Modelled from the spec: the handle returned by [observeChildren] of
    [core/utils.js], which is not part of the sources at hand; the spec gives
    [observe(container, onAdded, onRemoved, deep)].  [ob_owner] is the element
    the two handlers are bound to. *)
Record Observer := mkObserver { ob_owner : ref; ob_deep : bool }.

#[global] Instance Observer_eq_dec : EqDecision Observer.
Proof. solve_decision. Defined.

Record Tracker := mkTracker {
  (** the [TreeNode] objects; [n instanceof TreeNode] is having an entry *)
  heap : gmap nat TreeNode;
  (** the callbacks invoked so far, oldest first *)
  fired : list Callback;
  (** continuations of [customElements.whenDefined(tag).then(...)] *)
  pending : list (string * Callback);
  (** tasks queued with [defer]: [(this, slot)] stands for
      [() => this.__handleDistributedChildren(slot)] *)
  deferred : list (ref * ref);
  listeners : list Listener;
  (** the module-level [observers] map, from a shadow root to its observer *)
  observers : gmap nat Observer;
}.

Definition initTracker (h : gmap nat TreeNode) : Tracker :=
  mkTracker h [] [] [] [] ∅.

Definition set_heap (h : gmap nat TreeNode) (st : Tracker) : Tracker :=
  mkTracker h (fired st) (pending st) (deferred st) (listeners st) (observers st).

Definition set_fired (f : list Callback) (st : Tracker) : Tracker :=
  mkTracker (heap st) f (pending st) (deferred st) (listeners st) (observers st).

Definition set_pending (p : list (string * Callback)) (st : Tracker) : Tracker :=
  mkTracker (heap st) (fired st) p (deferred st) (listeners st) (observers st).

Definition set_deferred (q : list (ref * ref)) (st : Tracker) : Tracker :=
  mkTracker (heap st) (fired st) (pending st) q (listeners st) (observers st).

Definition set_listeners (l : list Listener) (st : Tracker) : Tracker :=
  mkTracker (heap st) (fired st) (pending st) (deferred st) l (observers st).

Definition set_observers (o : gmap nat Observer) (st : Tracker) : Tracker :=
  mkTracker (heap st) (fired st) (pending st) (deferred st) (listeners st) o.

(** How a method call ends: normally, or with the [TypeError] of a method
    call on [undefined].  The state reached before the throw is kept. *)
Inductive Completion := Normal | TypeError.

#[global] Instance Completion_eq_dec : EqDecision Completion.
Proof. solve_decision. Defined.

(** Modelled from the spec: [isNode] and [isScene] of [core/utils.js], which
    is not part of the sources at hand; the spec calls them the capability
    marker and the scene flag of a node. *)
Definition isNodeEl (h : gmap nat TreeNode) (el : ref) : bool :=
  match h !! el with Some o => isNode o | None => false end.

Definition isSceneEl (h : gmap nat TreeNode) (el : ref) : bool :=
  match h !! el with Some o => isScene o | None => false end.

Definition instanceofTreeNode (h : gmap nat TreeNode) (el : ref) : bool :=
  bool_decide (is_Some (h !! el)).

(** [String.prototype.toLowerCase].  A string is the sequence of its code
    units, which are taken below 256 (Latin-1).  The cased capitals there are
    A to Z (65 to 90) and U+00C0 to U+00DE without the multiplication sign
    U+00D7; each is 32 below its small letter. *)
Definition lowerCodeUnit (c : ascii) : ascii :=
  let n := nat_of_ascii c in
  if ((65 <=? n)%nat && (n <=? 90)%nat)
     || ((192 <=? n)%nat && (n <=? 222)%nat && negb (n =? 215)%nat)
  then ascii_of_nat (n + 32) else c.

Fixpoint toLowerCase (s : string) : string :=
  match s with
  | EmptyString => EmptyString
  | String c s' => String (lowerCodeUnit c) (toLowerCase s')
  end.

(** ** Life cycle callbacks *)

Definition __triggerChildComposedCallback (d : DOM) (this child : ref)
    (connectionType : ComposedTreeConnectionType) (st : Tracker) : Tracker :=
  match heap st !! this with
  | None => st
  | Some o =>
      if negb (childComposedCallback o) then st
      else if defined d child
      then set_fired (fired st ++ [Composed this child connectionType]) st
      else set_pending
             (pending st ++
                [(toLowerCase (tagName d child), Composed this child connectionType)])
             st
  end.

Definition __triggerChildUncomposedCallback (this child : ref)
    (connectionType : ComposedTreeConnectionType) (st : Tracker) : Tracker :=
  match heap st !! this with
  | None => st
  | Some o =>
      if childUncomposedCallback o
      then set_fired (fired st ++ [Uncomposed this child connectionType]) st
      else st
  end.

(** The promise of [customElements.whenDefined(tag)] resolves: the waiting
    continuations run, in the order they were attached. *)
Definition whenDefinedResolved (tag : string) (st : Tracker) : Tracker :=
  set_pending (filter (λ p, p.1 ≠ tag) (pending st))
    (set_fired (fired st ++ (filter (λ p, p.1 = tag) (pending st)).*2) st).

(** ** Distribution handling *)

(** The block guarded by [if (distributedParent)] in the loop over
    [diff.added]: the node leaves the set of the parent it was distributed
    to, and an emptied set is dropped. *)
Definition leaveDistributedParent (h : gmap nat TreeNode) (addedNode : ref)
    (a : TreeNode) : gmap nat TreeNode :=
  match __distributedParent a with
  | Some distributedParent =>
      match h !! distributedParent with
      | Some p =>
          match __distributedChildren p with
          | Some distributedChildren =>
              let dc := Set_delete addedNode distributedChildren in
              <[distributedParent :=
                  set__distributedChildren
                    (if decide (length dc = 0) then None else Some dc) p]> h
          | None => h
          end
      | None => h
      end
  | None => h
  end.

(** One round of the loop over [diff.added]. *)
Definition addedStep (d : DOM) (this : ref) (st : Tracker) (addedNode : ref) : Tracker :=
  match heap st !! addedNode with
  | None => st
  | Some a =>
      let h1 := leaveDistributedParent (heap st) addedNode a in
      let h2 := alter (set__distributedParent (Some this)) addedNode h1 in
      let h3 :=
        alter (λ o, set__distributedChildren
                      (Some (Set_add addedNode (default [] (__distributedChildren o)))) o)
          this h2 in
      __triggerChildComposedCallback d this addedNode slot (set_heap h3 st)
  end.

(** The loop over [diff.removed]; [this.__distributedChildren!.delete] is a
    method call on [undefined] when the set is not there. *)
Fixpoint removedLoop (this : ref) (removedNodes : list ref) (st : Tracker)
  : Tracker * Completion :=
  match removedNodes with
  | [] => (st, Normal)
  | removedNode :: rest =>
      match heap st !! removedNode with
      | None => removedLoop this rest st
      | Some _ =>
          let h1 := alter (set__distributedParent None) removedNode (heap st) in
          match h1 !! this with
          | None => (set_heap h1 st, TypeError)
          | Some o =>
              match __distributedChildren o with
              | None => (set_heap h1 st, TypeError)
              | Some distributedChildren =>
                  let dc := Set_delete removedNode distributedChildren in
                  let h2 :=
                    <[this := set__distributedChildren
                                (if decide (length dc = 0) then None else Some dc) o]> h1 in
                  removedLoop this rest
                    (__triggerChildUncomposedCallback this removedNode slot (set_heap h2 st))
              end
          end
      end
  end.

Definition __handleDistributedChildren (d : DOM) (this s : ref) (st : Tracker)
  : Tracker * Completion :=
  match heap st !! this with
  | None => (st, Normal)
  | Some o =>
      let '(o', diff) := __getDistributedChildDifference d o s in
      let st1 := set_heap (<[this := o']> (heap st)) st in
      let st2 := foldl (addedStep d this) st1 (added diff) in
      removedLoop this (removed diff) st2
  end.

(** ** The mutation handlers *)

(** The loop of [attachShadow] over the children present at that time. *)
Definition uncomposeChild (this : ref) (st : Tracker) (child : ref) : Tracker :=
  if instanceofTreeNode (heap st) child
  then __triggerChildUncomposedCallback this child actual
         (set_heap (alter (set__isPossiblyDistributedToShadowRoot true) child (heap st)) st)
  else st.

(** [this.attachShadow(options)]; [r] is the root that
    [super.attachShadow(options)] created, and the method returns it. *)
Definition attachShadow (d : DOM) (this r : ref) (st : Tracker) : Tracker * ref :=
  match heap st !! this with
  | None => (st, r)
  | Some o =>
      if isScene o then (st, r)
      else
        let st1 := set_heap (<[this := set__shadowRoot (Some r) o]> (heap st)) st in
        let observer := mkObserver this true in
        let st2 := set_observers (<[r := observer]> (observers st1)) st1 in
        (foldl (uncomposeChild this) st2 (children d this), r)
  end.

(** [el.addEventListener('slotchange', this.__onChildSlotChange)]: a listener
    that is already there is not added again. *)
Definition addSlotchangeListener (s this : ref) (st : Tracker) : Tracker :=
  let l := mkListener s this false in
  if decide (l ∈ listeners st) then st else set_listeners (listeners st ++ [l]) st.

(** [el.removeEventListener('slotchange', this.__onChildSlotChange, {capture: true})]. *)
Definition removeSlotchangeListenerCapture (s this : ref) (st : Tracker) : Tracker :=
  set_listeners (filter (λ l, l ≠ mkListener s this true) (listeners st)) st.

(** [this.__previousSlotAssignedNodes.delete(slot)]. *)
Definition forgetSlot (this s : ref) (st : Tracker) : Tracker :=
  set_heap
    (alter (λ o, set__prevAssignedNodes (delete s (__prevAssignedNodes o)) o) this (heap st))
    st.

Definition tracksShadowRoot (o : TreeNode) : bool :=
  negb (isScene o) && bool_decide (is_Some (__shadowRoot o)).

Definition childConnectedCallback (d : DOM) (this child : ref) (st : Tracker) : Tracker :=
  match heap st !! this with
  | None => st
  | Some o =>
      if isNodeEl (heap st) child then
        if tracksShadowRoot o
        then set_heap
               (alter (set__isPossiblyDistributedToShadowRoot true) child (heap st)) st
        else __triggerChildComposedCallback d this child actual st
      else if decide (nodeClass d child = HTMLSlotElement) then
        let st1 := addSlotchangeListener child this st in
        set_deferred (deferred st1 ++ [(this, child)]) st1
      else st
  end.

Definition childDisconnectedCallback (d : DOM) (this child : ref) (st : Tracker)
  : Tracker * Completion :=
  match heap st !! this with
  | None => (st, Normal)
  | Some o =>
      if isNodeEl (heap st) child then
        if tracksShadowRoot o
        then (set_heap
                (alter (set__isPossiblyDistributedToShadowRoot false) child (heap st)) st,
              Normal)
        else (__triggerChildUncomposedCallback this child actual st, Normal)
      else if decide (nodeClass d child = HTMLSlotElement) then
        match __handleDistributedChildren d this child
                (removeSlotchangeListenerCapture child this st) with
        | (st1, Normal) => (forgetSlot this child st1, Normal)
        | (st1, TypeError) => (st1, TypeError)
        end
      else (st, Normal)
  end.

Definition __shadowRootChildAdded (d : DOM) (this child : ref) (st : Tracker)
  : Tracker * Completion :=
  if instanceofTreeNode (heap st) child then
    (__triggerChildComposedCallback d this child root
       (set_heap (alter (set__shadowRootParent (Some this)) child (heap st)) st),
     Normal)
  else if decide (nodeClass d child = HTMLSlotElement) then
    __handleDistributedChildren d this child (addSlotchangeListener child this st)
  else (st, Normal).

Definition __shadowRootChildRemoved (d : DOM) (this child : ref) (st : Tracker)
  : Tracker * Completion :=
  if instanceofTreeNode (heap st) child then
    (__triggerChildUncomposedCallback this child root
       (set_heap (alter (set__shadowRootParent None) child (heap st)) st),
     Normal)
  else if decide (nodeClass d child = HTMLSlotElement) then
    match __handleDistributedChildren d this child
            (removeSlotchangeListenerCapture child this st) with
    | (st1, Normal) => (forgetSlot this child st1, Normal)
    | (st1, TypeError) => (st1, TypeError)
    end
  else (st, Normal).

(** The [slotchange] listener: [event.currentTarget] is the slot. *)
Definition __onChildSlotChange (d : DOM) (this s : ref) (st : Tracker)
  : Tracker * Completion :=
  __handleDistributedChildren d this s st.

(** ** The tracker as a transition system

    What the environment can do to the tracker: call [attachShadow], deliver
    a child observer record, dispatch [slotchange], run the oldest deferred
    task, or resolve a [whenDefined] promise. *)
Inductive Mutation :=
  | AttachShadow (this r : ref)
  | ChildConnected (this child : ref)
  | ChildDisconnected (this child : ref)
  | ShadowRootChildAdded (this child : ref)
  | ShadowRootChildRemoved (this child : ref)
  | SlotChange (this s : ref)
  | RunDeferred
  | WhenDefined (tag : string).

Definition step (d : DOM) (m : Mutation) (st : Tracker) : Tracker * Completion :=
  match m with
  | AttachShadow this r => ((attachShadow d this r st).1, Normal)
  | ChildConnected this child => (childConnectedCallback d this child st, Normal)
  | ChildDisconnected this child => childDisconnectedCallback d this child st
  | ShadowRootChildAdded this child => __shadowRootChildAdded d this child st
  | ShadowRootChildRemoved this child => __shadowRootChildRemoved d this child st
  | SlotChange this s => __onChildSlotChange d this s st
  | RunDeferred =>
      match deferred st with
      | [] => (st, Normal)
      | (this, s) :: rest => __handleDistributedChildren d this s (set_deferred rest st)
      end
  | WhenDefined tag => (whenDefinedResolved tag st, Normal)
  end.

(** A run: mutations delivered one after the other, each against the DOM of
    its time.  An exception ends the task that threw, not the tracker. *)
Fixpoint run (ms : list (DOM * Mutation)) (st : Tracker) : Tracker :=
  match ms with
  | [] => st
  | (d, m) :: ms' => run ms' (step d m st).1
  end.

(** States reachable from a heap of freshly constructed elements. *)
Definition freshTreeNode (o : TreeNode) : Prop :=
  o = newTreeNode (isScene o) (isNode o) (childComposedCallback o)
        (childUncomposedCallback o).

#[global] Instance TreeNode_eq_dec : EqDecision TreeNode.
Proof. solve_decision. Defined.

#[global] Instance freshTreeNode_dec (o : TreeNode) : Decision (freshTreeNode o).
Proof. unfold freshTreeNode. apply _. Defined.

Definition freshHeap (h : gmap nat TreeNode) : Prop :=
  map_Forall (λ _ o, freshTreeNode o) h.

Inductive reachable : Tracker → Prop :=
  | reachable_init h : freshHeap h → reachable (initTracker h)
  | reachable_step d m st : reachable st → reachable (step d m st).1.

(** ** The composed-tree getters *)

Definition _shadowRootChildren (d : DOM) (h : gmap nat TreeNode) (this : TreeNode)
  : list ref :=
  match __shadowRoot this with
  | None => []
  | Some r => filter (λ n, is_Some (h !! n)) (children d r)
  end.

(** The inner loop of [_distributedShadowRootChildren]. *)
Definition pushDistributed (h : gmap nat TreeNode) (result : list ref) (distributed : ref)
  : list ref :=
  if isNodeEl h distributed then result ++ [distributed] else result.

(** The outer loop of [_distributedShadowRootChildren]. *)
Definition pushSlotted (d : DOM) (h : gmap nat TreeNode) (result : list ref) (child : ref)
  : list ref :=
  if bool_decide (nodeClass d child = HTMLSlotElement)
     && negb (bool_decide (is_Some (assignedSlot d child)))
  then foldl (pushDistributed h) result (assignedElements d child)
  else result.

Definition _distributedShadowRootChildren (d : DOM) (h : gmap nat TreeNode)
    (this : TreeNode) : list ref :=
  foldl (pushSlotted d h) []
    (match __shadowRoot this with Some r => children d r | None => [] end).

(** The slot's parent in the composed tree: the host when the slot sits at
    the top of a shadow root, else [slot.parentElement]. *)
Definition slotOwner (d : DOM) (s : ref) : option ref :=
  match parentNode d s with
  | Some slotParent =>
      if decide (nodeClass d slotParent = ShadowRoot)
      then Some (host d slotParent)
      else parentElement d s
  | None => parentElement d s
  end.

Definition _composedParent (d : DOM) (h : gmap nat TreeNode) (this : ref) : option ref :=
  match h !! this with
  | None => None
  | Some o =>
      let parent := parentElement d this in
      if match parent with Some p => isSceneEl h p | None => false end then parent
      else
        match __distributedParent o with
        | Some p => Some p
        | None =>
            match __shadowRootParent o with
            | Some p => Some p
            | None =>
                match parentNode d this with
                | None => None
                | Some p =>
                    match nodeClass d p with
                    | HTMLSlotElement =>
                        if decide (length (assignedElements d p) = 0)
                        then slotOwner d p
                        else None
                    | ShadowRoot => Some (host d p)
                    | HTMLElement =>
                        if negb (hasShadow d p) then Some p
                        else
                          match assignedSlot d this with
                          | None => None
                          | Some s => slotOwner d s
                          end
                    | OtherElement | OtherNode => None
                    end
                end
            end
        end
  end.

Definition _composedChildren (d : DOM) (h : gmap nat TreeNode) (this : ref) : list ref :=
  match h !! this with
  | None => []
  | Some o =>
      if tracksShadowRoot o
      then _distributedShadowRootChildren d h o ++ _shadowRootChildren d h o
      else default [] (__distributedChildren o)
             ++ filter (λ n, is_Some (h !! n)) (children d this)
  end.

(** ** The getters, in the words of the specification

    The composed children as the specification describes them, to be compared
    with the loops above. *)
Definition specDistributedShadowRootChildren (d : DOM) (h : gmap nat TreeNode) (r : ref)
  : list ref :=
  mbind (M := list) (λ s, filter (λ n, isNodeEl h n = true) (assignedElements d s))
    (filter (λ c, nodeClass d c = HTMLSlotElement ∧ assignedSlot d c = None)
       (children d r)).

Definition specComposedChildren (d : DOM) (h : gmap nat TreeNode) (o : TreeNode)
    (this : ref) : list ref :=
  match __shadowRoot o with
  | Some r =>
      if isScene o
      then default [] (__distributedChildren o)
             ++ filter (λ n, is_Some (h !! n)) (children d this)
      else specDistributedShadowRootChildren d h r
             ++ filter (λ n, is_Some (h !! n)) (children d r)
  | None =>
      default [] (__distributedChildren o)
        ++ filter (λ n, is_Some (h !! n)) (children d this)
  end.

(** ** A concrete document

    A host [hostH] with shadow root [rootR]; in the root two elements [P1] and
    [P2], each with one slot child ([S1] named s1, [S2] named s2); light
    children [Z], [X], [Y] of the host, in that order.  Besides, an element
    [hostB] that gets a shadow root [rootB] of its own, and a scene [sceneE]. *)
Module Doc.

Definition hostH : nat := 10.
Definition rootR : nat := 11.
Definition P1 : nat := 1.
Definition P2 : nat := 2.
Definition S1 : nat := 21.
Definition S2 : nat := 22.
Definition S3 : nat := 23.
Definition X : nat := 5.
Definition Y : nat := 6.
Definition Z : nat := 7.
Definition hostB : nat := 3.
Definition rootB : nat := 31.
Definition sceneE : nat := 40.

(** A finite table read as a total function. *)
Definition table {A} (dflt : A) (l : list (nat * A)) : nat → A :=
  λ n, default dflt ((list_to_map l : gmap nat A) !! n).

(** The document with [X] under the parent [px], [to1] assigned to [S1] and
    [to2] assigned to [S2]; [S1] itself is assigned to the slot [up1], if any;
    [undef] are the elements that do not match [:defined]. *)
Definition document (px : nat) (to1 to2 : list nat) (up1 : option nat)
    (undef : list nat) : DOM :=
  mkDOM
    (table HTMLElement
       [(S1, HTMLSlotElement); (S2, HTMLSlotElement); (S3, HTMLSlotElement);
        (rootR, ShadowRoot); (rootB, ShadowRoot)])
    (table None
       [(rootR, None); (rootB, None); (P1, Some rootR); (P2, Some rootR);
        (S1, Some P1); (S2, Some P2); (X, Some px); (Y, Some hostH);
        (Z, Some hostH)])
    (table []
       [(hostH, filter (λ n, n ≠ X ∨ px = hostH) [Z; X; Y]);
        (rootR, [P1; P2]); (P1, [S1]); (P2, [S2]);
        (rootB, if decide (px = rootB) then [X] else []);
        (sceneE, if decide (px = sceneE) then [X] else [])])
    (table 0 [(rootR, hostH); (rootB, hostB)])
    (λ n, if decide (n = S1) then up1
          else if decide (n ∈ to1) then Some S1
          else if decide (n ∈ to2) then Some S2 else None)
    (table [] [(S1, to1); (S2, to2)])
    (λ n, bool_decide (n ∉ undef))
    (table "LUME-NODE"%string [(sceneE, "LUME-SCENE"%string)])
    (table false [(hostH, true); (hostB, true); (sceneE, true)]).

(** Freshly constructed elements: nodes that implement both callbacks, and a
    scene. *)
Definition elements : gmap nat TreeNode :=
  list_to_map
    [(P1, newTreeNode false true true true); (P2, newTreeNode false true true true);
     (X, newTreeNode false true true true); (Y, newTreeNode false true true true);
     (Z, newTreeNode false true true true); (hostB, newTreeNode false true true true);
     (sceneE, newTreeNode true false true true)].

(** [X] alone is assigned to [S1]. *)
Definition domX1 : DOM := document hostH [X] [] None [].
(** [X] and [Y] are assigned to [S2], nothing to [S1]. *)
Definition domXY2 : DOM := document hostH [] [X; Y] None [].
(** [Z] and [X] are assigned to [S1]. *)
Definition domZX1 : DOM := document hostH [Z; X] [] None [].
(** [Z] stays in [S1]; [X] and [Y] are assigned to [S2]. *)
Definition domZ1XY2 : DOM := document hostH [Z] [X; Y] None [].
(** [X] has been moved to the top of the shadow root of [hostB]. *)
Definition domXrootB : DOM := document rootB [] [] None [].
(** [X] has been moved under the scene. *)
Definition domXscene : DOM := document sceneE [] [] None [].
(** [X] is assigned to [S1], and [S1] to the slot [S3] of a deeper tree. *)
Definition domChain : DOM := document hostH [X] [] (Some S3) [].
(** [X] is assigned to [S1] and is not upgraded yet. *)
Definition domUndefined : DOM := document hostH [X] [] None [X].

(** [P1] has seen [X] arrive in [S1]. *)
Definition slottedX : Tracker := run [(domX1, SlotChange P1 S1)] (initTracker elements).

(** [P1] has seen [Z] and [X] arrive in [S1]. *)
Definition slottedZX : Tracker := run [(domZX1, SlotChange P1 S1)] (initTracker elements).

(** [X] moves from [S1] to [S2] while [Y] is appended for [S2]; [S2] was
    signalled first (by [Y]), so its [slotchange] is dispatched first. *)
Definition reslotNewFirst : list (DOM * Mutation) :=
  [(domXY2, SlotChange P2 S2); (domXY2, SlotChange P1 S1)].

(** The same move with the [slotchange] of [S1] dispatched first. *)
Definition reslotOldFirst : list (DOM * Mutation) :=
  [(domXY2, SlotChange P1 S1); (domXY2, SlotChange P2 S2)].

(** The move of [X] with [Z] staying behind in [S1]. *)
Definition reslotKeepZ : list (DOM * Mutation) :=
  [(domZ1XY2, SlotChange P2 S2); (domZ1XY2, SlotChange P1 S1)].

(** [hostB] attaches a shadow root; later [X], still recorded as distributed
    to [P1], is moved to the top of that root, and the child observer reports
    it before the [slotchange] of [S1] is dispatched. *)
Definition moveIntoRoot : list (DOM * Mutation) :=
  [(domX1, AttachShadow hostB rootB);
   (domX1, SlotChange P1 S1);
   (domXrootB, ShadowRootChildAdded hostB X)].

End Doc.

(** ** Reading the pointers of a heap *)

Definition dpOf (h : gmap nat TreeNode) (n : nat) : option nat :=
  h !! n ≫= __distributedParent.

Definition srpOf (h : gmap nat TreeNode) (n : nat) : option nat :=
  h !! n ≫= __shadowRootParent.

Definition dcOf (h : gmap nat TreeNode) (n : nat) : list nat :=
  default [] (h !! n ≫= __distributedChildren).

(** At most one of the two composition pointers of every element is set. *)
Definition exclusivePointers (h : gmap nat TreeNode) : Prop :=
  ∀ n, dpOf h n = None ∨ srpOf h n = None.

(** The distributed-children sets and the distributed-parent pointers
    describe the same edges. *)
Definition edgesConsistent (h : gmap nat TreeNode) : Prop :=
  ∀ b x, x ∈ dcOf h b ↔ dpOf h x = Some b.

(** ** Vocabulary of the statements *)

(** The part of an element that no handler writes. *)
Definition static (o : TreeNode) : bool * bool * bool * bool :=
  (isScene o, isNode o, childComposedCallback o, childUncomposedCallback o).

(** Two heaps agree on a field of every element (and so hold the same
    elements). *)
Definition sameOn {A} (g : TreeNode → A) (h h' : gmap nat TreeNode) : Prop :=
  ∀ n, g <$> h' !! n = g <$> h !! n.

Definition flagOf (h : gmap nat TreeNode) (n : nat) : option bool :=
  __isPossiblyDistributedToShadowRoot <$> h !! n.

Definition implementsUncomposed (h : gmap nat TreeNode) (n : nat) : bool :=
  match h !! n with Some o => childUncomposedCallback o | None => false end.


(** The element and the slot a mutation hands to
    [__handleDistributedChildren], if any. *)
Definition handledSlot (d : DOM) (m : Mutation) (st : Tracker) : option (nat * nat) :=
  match m with
  | SlotChange this s => Some (this, s)
  | RunDeferred => head (deferred st)
  | ShadowRootChildAdded this c | ShadowRootChildRemoved this c =>
      if instanceofTreeNode (heap st) c then None
      else if decide (nodeClass d c = HTMLSlotElement)
           then (λ _, (this, c)) <$> heap st !! this else None
  | ChildDisconnected this c =>
      if isNodeEl (heap st) c then None
      else if decide (nodeClass d c = HTMLSlotElement)
           then (λ _, (this, c)) <$> heap st !! this else None
  | AttachShadow _ _ | ChildConnected _ _ | WhenDefined _ => None
  end.


(** From [h] to [h'] no shadow-root-parent pointer changes, and a
    distributed-parent pointer changes only by being cleared or for a node
    of [A]. *)
Definition pointersStep (A : list nat) (h h' : gmap nat TreeNode) : Prop :=
  ∀ n, srpOf h' n = srpOf h n
       ∧ (dpOf h' n = dpOf h n ∨ dpOf h' n = None ∨ n ∈ A).

(** ** The remaining getters *)

(** [this.lumeParent]: the parent element when it is a [TreeNode]. *)
Definition lumeParent (d : DOM) (h : gmap nat TreeNode) (this : ref) : option ref :=
  match parentElement d this with
  | Some p => if instanceofTreeNode h p then Some p else None
  | None => None
  end.

(** [this.lumeChildren]: the children that are [TreeNode]s, as a new array. *)
Definition lumeChildren (d : DOM) (h : gmap nat TreeNode) (this : ref) : list ref :=
  filter (λ c, is_Some (h !! c)) (children d this).

Definition lumeChildCount (d : DOM) (h : gmap nat TreeNode) (this : ref) : nat :=
  length (lumeChildren d h this).

Definition _hasShadowRoot (o : TreeNode) : bool :=
  bool_decide (is_Some (__shadowRoot o)).

(** [this._distributedChildren]: a copy of the set as an array, or [null]. *)
Definition _distributedChildren (o : TreeNode) : option (list ref) :=
  match __distributedChildren o with
  | Some distributedChildren => Some distributedChildren
  | None => None
  end.

(** ** Invariants of the tracker *)

(** A distributed-children set that exists has a member. *)
Definition setsNonEmpty (h : gmap nat TreeNode) : Prop :=
  ∀ n o, h !! n = Some o → __distributedChildren o ≠ Some [].

(** A node that points to a distributed parent is in that parent's set. *)
Definition pointerInSet (h : gmap nat TreeNode) : Prop :=
  ∀ x b, dpOf h x = Some b → x ∈ dcOf h b.

(** The members of the distributed-children sets are [TreeNode]s. *)
Definition membersAreTreeNodes (h : gmap nat TreeNode) : Prop :=
  ∀ b x, x ∈ dcOf h b → is_Some (h !! x).

(** A scene has no recorded shadow root. *)
Definition scenesUntracked (h : gmap nat TreeNode) : Prop :=
  ∀ n o, h !! n = Some o → isScene o = true → __shadowRoot o = None.

(** The [slotchange] listeners are registered once and without capture. *)
Definition listenersPlain (st : Tracker) : Prop :=
  NoDup (listeners st) ∧ ∀ l, l ∈ listeners st → l_capture l = false.

(** Two heaps hold the same distributed edges. *)
Definition edgesSame (h h' : gmap nat TreeNode) : Prop :=
  sameOn __distributedParent h h' ∧ sameOn __distributedChildren h h'.

Definition implementsComposed (h : gmap nat TreeNode) (n : nat) : bool :=
  match h !! n with Some o => childComposedCallback o | None => false end.

(** The composed callbacks that handling a list of added nodes invokes at
    once, and those it leaves waiting for the definition of the node. *)
Definition composedNow (d : DOM) (h : gmap nat TreeNode) (this : nat) (l : list nat)
  : list Callback :=
  (λ a, Composed this a slot)
    <$> filter (λ a, is_Some (h !! a) ∧ defined d a = true) l.

Definition composedLater (d : DOM) (h : gmap nat TreeNode) (this : nat) (l : list nat)
  : list (string * Callback) :=
  (λ a, (toLowerCase (tagName d a), Composed this a slot))
    <$> filter (λ a, is_Some (h !! a) ∧ defined d a = false) l.

(** The uncomposed callbacks of a list of removed nodes. *)
Definition uncomposedAll (h : gmap nat TreeNode) (this : nat) (l : list nat)
  : list Callback :=
  (λ r, Uncomposed this r slot) <$> filter (λ r, is_Some (h !! r)) l.

(** ** A second document: default content

    A host [card] with shadow root [cardRoot]; in the root an element [panel]
    with a slot [slotA] that has the default content [fallbackD], and a slot
    [slotTop] at the top of the root; light children [lightL] and [lightM] of
    the host.  Outside of every shadow tree, an element [group] with a slot
    [looseSlot] that has the child [looseD]. *)
Module Page.

Definition card : nat := 50.
Definition cardRoot : nat := 51.
Definition panel : nat := 52.
Definition slotA : nat := 53.
Definition fallbackD : nat := 54.
Definition lightL : nat := 55.
Definition slotTop : nat := 56.
Definition lightM : nat := 57.
Definition group : nat := 62.
Definition looseSlot : nat := 63.
Definition looseD : nat := 64.

(** The document with [toA] assigned to [slotA], and [lightM] to [slotTop].
    The flattened assigned elements of a slot in a shadow tree to which
    nothing is assigned are its own children; those of a slot outside of a
    shadow tree are none. *)
Definition document (toA : list nat) : DOM :=
  mkDOM
    (Doc.table HTMLElement
       [(slotA, HTMLSlotElement); (slotTop, HTMLSlotElement);
        (looseSlot, HTMLSlotElement); (cardRoot, ShadowRoot)])
    (Doc.table None
       [(panel, Some cardRoot); (slotTop, Some cardRoot); (slotA, Some panel);
        (fallbackD, Some slotA); (lightL, Some card); (lightM, Some card);
        (looseSlot, Some group); (looseD, Some looseSlot)])
    (Doc.table []
       [(card, [lightL; lightM]); (cardRoot, [panel; slotTop]); (panel, [slotA]);
        (slotA, [fallbackD]); (group, [looseSlot]); (looseSlot, [looseD])])
    (Doc.table 0 [(cardRoot, card)])
    (λ n, if decide (n ∈ toA) then Some slotA
          else if decide (n = lightM) then Some slotTop else None)
    (Doc.table []
       [(slotA, if decide (toA = []) then [fallbackD] else toA); (slotTop, [lightM])])
    (λ _, true)
    (λ _, "LUME-NODE"%string)
    (Doc.table false [(card, true)]).

(** Freshly constructed nodes. *)
Definition elements : gmap nat TreeNode :=
  list_to_map
    [(card, newTreeNode false true true true); (panel, newTreeNode false true true true);
     (fallbackD, newTreeNode false true true true);
     (lightL, newTreeNode false true true true);
     (lightM, newTreeNode false true true true);
     (group, newTreeNode false true true true);
     (looseD, newTreeNode false true true true)].

(** [lightL] is assigned to [slotA]. *)
Definition assigned : DOM := document [lightL].
(** Nothing is assigned to [slotA]. *)
Definition unassigned : DOM := document [].

End Page.

(** ** A third document: a parent with children of every kind

    An element [parentF] with the children [kidA] (a node), [slotF] (a slot),
    [kidB] (a node), [span] (an element that is not a [TreeNode]) and
    [innerScene] (a [TreeNode] that is a scene and not a node); [rootF] is the
    shadow root that [parentF] gets. *)
Module Family.

Definition parentF : nat := 100.
Definition kidA : nat := 101.
Definition slotF : nat := 102.
Definition kidB : nat := 103.
Definition span : nat := 104.
Definition innerScene : nat := 105.
Definition rootF : nat := 110.

Definition document : DOM :=
  mkDOM
    (Doc.table HTMLElement [(slotF, HTMLSlotElement); (rootF, ShadowRoot)])
    (Doc.table None
       [(kidA, Some parentF); (slotF, Some parentF); (kidB, Some parentF);
        (span, Some parentF); (innerScene, Some parentF)])
    (Doc.table [] [(parentF, [kidA; slotF; kidB; span; innerScene])])
    (Doc.table 0 [(rootF, parentF)])
    (λ _, None)
    (λ _, [])
    (λ _, true)
    (Doc.table "LUME-NODE"%string
       [(innerScene, "LUME-SCENE"%string); (span, "SPAN"%string);
        (slotF, "SLOT"%string)])
    (λ _, false).

Definition elements : gmap nat TreeNode :=
  list_to_map
    [(parentF, newTreeNode false true true true);
     (kidA, newTreeNode false true true true);
     (kidB, newTreeNode false true true true);
     (innerScene, newTreeNode true false true true)].

End Family.

(** ** The tracker at rest *)

(** The elements that [p] recorded for its slot [s] the last time it handled
    that slot. *)
Definition snapshotOf (h : gmap nat TreeNode) (p s : nat) : list nat :=
  default [] (h !! p ≫= λ o, __prevAssignedNodes o !! s).

(** A node that points to a distributed parent is in one of the snapshots of
    that parent. *)
Definition pointerInSnapshot (h : gmap nat TreeNode) : Prop :=
  ∀ x p, dpOf h x = Some p → ∃ s, x ∈ snapshotOf h p s.

(** The shadow-root children that the child observers have reported and not
    reported removed since, as pairs of the host and the child. *)
Definition reportShadowRootChild (m : Mutation) (reports : list (nat * nat))
  : list (nat * nat) :=
  match m with
  | ShadowRootChildAdded this child => (this, child) :: reports
  | ShadowRootChildRemoved this child => filter (λ p, p ≠ (this, child)) reports
  | _ => reports
  end.

(** A node that points to a shadow-root parent has been reported as a child
    of the root of that parent, and not been reported removed since. *)
Definition pointerReported (h : gmap nat TreeNode) (reports : list (nat * nat)) : Prop :=
  ∀ x p, srpOf h x = Some p → (p, x) ∈ reports.

(** A slot that is reported removed resolves to no elements by then: it has
    left the shadow tree that assigned to it. *)
Definition slotGone (d : DOM) (m : Mutation) : Prop :=
  match m with
  | ChildDisconnected _ c | ShadowRootChildRemoved _ c =>
      nodeClass d c = HTMLSlotElement → assignedElements d c = []
  | _ => True
  end.

(** What the tracker has been told: the shadow-root children reported and
    not reported removed since, and, for an element and a slot that was
    handed to its distribution handler, the flattened assigned elements of
    the slot in the document of the last time. *)
Record Told := mkTold {
  told_reports : list (nat * nat);
  told_views : gmap (nat * nat) (list nat);
}.

Definition tell (d : DOM) (m : Mutation) (st : Tracker) (t : Told) : Told :=
  mkTold
    (reportShadowRootChild m (told_reports t))
    (match handledSlot d m st with
     | Some (this, s) => <[(this, s) := assignedElements d s]> (told_views t)
     | None => told_views t
     end).

(** The elements of every snapshot are among those that the slot was seen to
    resolve to. *)
Definition snapshotSeen (h : gmap nat TreeNode) (views : gmap (nat * nat) (list nat))
  : Prop :=
  ∀ p s x, x ∈ snapshotOf h p s → ∃ l, views !! (p, s) = Some l ∧ x ∈ l.

(** The states reached from freshly constructed elements, each with what the
    tracker has been told on the way. *)
Inductive tracked : Tracker → Told → Prop :=
  | tracked_init h : freshHeap h → tracked (initTracker h) (mkTold [] ∅)
  | tracked_step d m st t :
      tracked st t → slotGone d m →
      tracked (step d m st).1 (tell d m st t).

(** What the tracker has been told along a run. *)
Fixpoint toldAfter (ms : list (DOM * Mutation)) (st : Tracker) (t : Told) : Told :=
  match ms with
  | [] => t
  | (d, m) :: ms' => toldAfter ms' (step d m st).1 (tell d m st t)
  end.

(** What the tracker has been told is still true of the document [d].  No
    [slotchange] is outstanding: the elements that a slot was last seen to
    resolve to are among its flattened assigned elements. *)
Definition viewsCurrent (d : DOM) (views : gmap (nat * nat) (list nat)) : Prop :=
  ∀ this s l x, views !! (this, s) = Some l → x ∈ l → x ∈ assignedElements d s.

(** No removal of a shadow-root child is outstanding: none of the reported
    children is among the flattened assigned elements of a slot.  (A child of
    a shadow root is never assigned to a slot; a deeper descendant of the root
    can be.) *)
Definition reportsCurrent (d : DOM) (reports : list (nat * nat)) : Prop :=
  ∀ this child s, (this, child) ∈ reports → child ∉ assignedElements d s.

Definition upToDate (d : DOM) (t : Told) : Prop :=
  viewsCurrent d (told_views t) ∧ reportsCurrent d (told_reports t).

(** [X] has been moved to the top of the shadow root of [hostB], and [Z] is
    still assigned to [S1]. *)
Definition domZrootB : DOM := Doc.document Doc.rootB [Doc.Z] [] None [].

(** [Z] and [X] arrive in [S1]; then [X] is moved to the top of the shadow
    root of [hostB]: the child observer reports it, and the [slotchange] of
    [S1] is dispatched after that. *)
Definition movedIntoRoot : list (DOM * Mutation) :=
  [(Doc.domZX1, AttachShadow Doc.hostB Doc.rootB);
   (Doc.domZX1, SlotChange Doc.P1 Doc.S1);
   (domZrootB, ShadowRootChildAdded Doc.hostB Doc.X);
   (domZrootB, SlotChange Doc.P1 Doc.S1)].

(** The document [Doc.domX1] with the host [hostH] inside of the shadow root
    of [hostB]: [X], a child of [hostH] that is assigned to [S1], is a
    descendant of that root. *)
Definition domNested : DOM :=
  mkDOM
    (nodeClass Doc.domX1)
    (λ n, if decide (n = Doc.hostH) then Some Doc.rootB else parentNode Doc.domX1 n)
    (λ n, if decide (n = Doc.rootB) then [Doc.hostH] else children Doc.domX1 n)
    (host Doc.domX1)
    (assignedSlot Doc.domX1)
    (assignedElements Doc.domX1)
    (defined Doc.domX1)
    (tagName Doc.domX1)
    (hasShadow Doc.domX1).

(** [X] arrives in [S1], and the deep observer of the root of [hostB] reports
    the descendant [X]. *)
Definition reportDescendant : list (DOM * Mutation) :=
  [(domNested, AttachShadow Doc.hostB Doc.rootB);
   (domNested, SlotChange Doc.P1 Doc.S1);
   (domNested, ShadowRootChildAdded Doc.hostB Doc.X)].

(** The slot [S1] is connected to [P1] and handled, with [X] assigned to it;
    then it is reported removed from [P1] while [X] is still assigned to it
    (the slot has been moved, not taken out of the tree); later [X] is moved
    to the top of the shadow root of [hostB], which the child observer
    reports, and the [slotchange] of [S1] reaches the listener of [P1], which
    is still registered. *)
Definition slotMoved : list (DOM * Mutation) :=
  [(Doc.domX1, ChildConnected Doc.P1 Doc.S1);
   (Doc.domX1, RunDeferred);
   (Doc.domX1, ChildDisconnected Doc.P1 Doc.S1);
   (Doc.domXrootB, AttachShadow Doc.hostB Doc.rootB);
   (Doc.domXrootB, ShadowRootChildAdded Doc.hostB Doc.X);
   (Doc.domXrootB, SlotChange Doc.P1 Doc.S1)].

(** ** Proof steps on the concrete documents *)

(** No parent element is a scene, in a document without scenes. *)
Ltac noScene :=
  let p := fresh "p" in
  let Hp := fresh "Hp" in
  intros p Hp; vm_compute in Hp;
  first [discriminate Hp | injection Hp as <-; vm_compute; reflexivity].

(** * Properties *)

(** ** Arrays and sets *)

Lemma indexOf_None (x : nat) (arr : list nat) : indexOf x arr = None ↔ x ∉ arr.
Proof.
  induction arr as [|y arr IH]; simpl.
  - split; [intros _; apply not_elem_of_nil | done].
  - case_decide as Hy.
    + subst y. split; [done | intros Hn; destruct Hn; left].
    + rewrite not_elem_of_cons. destruct (indexOf x arr); simpl.
      * split; [done | intros [_ Hn]]. apply IH in Hn. done.
      * split; [intros _ | done]. split; [congruence | by apply IH].
Qed.

Lemma splice_sublist (i n : nat) (arr : list nat) : splice i n arr ⊆ arr.
Proof.
  unfold splice. intros x Hx. apply elem_of_app in Hx as [Hx | Hx].
  - by apply (subseteq_take i arr).
  - by apply (subseteq_drop (i + n) arr).
Qed.

Lemma Set_delete_elem (x y : nat) (s : list nat) :
  y ∈ Set_delete x s ↔ y ∈ s ∧ y ≠ x.
Proof. unfold Set_delete. rewrite list_elem_of_filter. tauto. Qed.

Lemma Set_add_elem (x y : nat) (s : list nat) : y ∈ Set_add x s ↔ y ∈ s ∨ y = x.
Proof.
  unfold Set_add. case_decide as Hx.
  - split; [tauto | intros [?| ->]; done].
  - rewrite elem_of_app, list_elem_of_singleton. tauto.
Qed.

(** ** The diff loop *)

Lemma diffLoop_added_sublist (prev : list nat) :
  ∀ i cur rem, added (diffLoop prev i cur rem) ⊆ cur.
Proof.
  induction prev as [|x prev IH]; intros i cur rem; simpl; [done|].
  destruct (indexOf x cur).
  - etrans; [apply IH | apply splice_sublist].
  - apply IH.
Qed.

Lemma diffLoop_nil_current (prev : list nat) :
  ∀ i rem, diffLoop prev i [] rem = mkDiff [] (rem ++ prev).
Proof.
  induction prev as [|x prev IH]; intros i rem; simpl.
  - by rewrite app_nil_r.
  - rewrite IH. by rewrite <- app_assoc.
Qed.

Lemma diffOf_nil_previous (cur : list nat) : diffOf [] cur = mkDiff cur [].
Proof. reflexivity. Qed.

Lemma diffOf_nil_current (prev : list nat) : diffOf prev [] = mkDiff [] prev.
Proof. unfold diffOf. by rewrite diffLoop_nil_current. Qed.

(** An element of the previous list that is not in the current one is always
    reported removed: the working copy only ever shrinks. *)
Lemma diffLoop_removed_grows (prev : list nat) :
  ∀ i cur rem, rem ⊆ removed (diffLoop prev i cur rem).
Proof.
  induction prev as [|x prev IH]; intros i cur rem; simpl; [done|].
  destruct (indexOf x cur).
  - apply IH.
  - etrans; [|apply IH]. intros y Hy. apply elem_of_app. by left.
Qed.

Lemma diffLoop_gone_removed (prev : list nat) :
  ∀ i cur rem x, x ∈ prev → x ∉ cur → x ∈ removed (diffLoop prev i cur rem).
Proof.
  induction prev as [|y prev IH]; intros i cur rem x Hin Hout; simpl.
  - by apply elem_of_nil in Hin.
  - destruct (indexOf y cur) eqn:Hidx.
    + apply elem_of_cons in Hin as [-> | Hin].
      * apply indexOf_None in Hout. congruence.
      * apply IH; [done|]. intros Hx. apply Hout. by eapply splice_sublist.
    + apply elem_of_cons in Hin as [-> | Hin].
      * apply diffLoop_removed_grows. apply elem_of_app. right. by left.
      * by apply IH.
Qed.

(** The same list again is not a fixed point of the diff: with two or more
    elements the second one is reported as added anew. *)
Example diffOf_unchanged_pair : diffOf [1; 2] [1; 2] = mkDiff [2] [].
Proof. reflexivity. Qed.

(** An element that is in both lists can be reported added while one that is
    only in the current list is dropped. *)
Example diffOf_drops_new_element : diffOf [1] [4; 1] = mkDiff [1] [].
Proof. reflexivity. Qed.

(** C1 (as the code behaves): on previous [[A,B,C]] and current [[B,C,D]] with
    A, B, C, D distinct, the loop deletes index [i] of the working copy where
    the comments in the loop call for the index of the match, so it yields removed [[A,C]] and
    added [[B,D]], not removed [[A]] and added [[D]]. *)
Theorem diffOf_ABC_BCD (A B C D : nat) :
  NoDup [A; B; C; D] →
  diffOf [A; B; C] [B; C; D] = mkDiff [B; D] [A; C]
  ∧ diffOf [A; B; C] [B; C; D] ≠ mkDiff [D] [A].
Proof.
  intros Hnd.
  apply NoDup_cons in Hnd as [HA Hnd]. apply NoDup_cons in Hnd as [HB Hnd].
  apply NoDup_cons in Hnd as [HC _].
  repeat match goal with
         | H : _ ∉ _ :: _ |- _ => apply not_elem_of_cons in H as [? ?]
         end.
  assert (Heq : diffOf [A; B; C] [B; C; D] = mkDiff [B; D] [A; C]).
  { unfold diffOf, splice. simpl.
    repeat (case_decide; try congruence; simpl). reflexivity. }
  split; [exact Heq|]. rewrite Heq. intros Habs. discriminate Habs.
Qed.

Lemma diffOf_ABC_BCD_witness :
  NoDup [1; 2; 3; 4]
  ∧ diffOf [1; 2; 3] [2; 3; 4] = mkDiff [2; 4] [1; 3]
  ∧ diffOf [1; 2; 3] [2; 3; 4] ≠ mkDiff [4] [1].
Proof.
  assert (Hnd : NoDup [1; 2; 3; 4]).
  { apply (bool_decide_unpack _). vm_compute. exact I. }
  split; [exact Hnd | apply (diffOf_ABC_BCD 1 2 3 4 Hnd)].
Defined.

(** ** The contribution of a slot *)

(** C6: a slot that is itself assigned to another slot contributes the empty
    list to a tracker that is not a scene, so the snapshot becomes empty and
    every previously recorded node is diffed as removed and none as added; for
    a scene the resolved list is the slot's flattened assigned elements,
    whatever [assignedSlot] is. *)
Theorem resolveNewNodes_reslotted (d : DOM) (this : TreeNode) (s : nat) :
  (isScene this = false → is_Some (assignedSlot d s) →
     resolveNewNodes d this s = []
     ∧ __prevAssignedNodes (__getDistributedChildDifference d this s).1 !! s = Some []
     ∧ added (__getDistributedChildDifference d this s).2 = []
     ∧ removed (__getDistributedChildDifference d this s).2
       = default [] (__prevAssignedNodes this !! s))
  ∧ (isScene this = true →
     resolveNewNodes d this s = assignedElements d s
     ∧ __prevAssignedNodes (__getDistributedChildDifference d this s).1 !! s
       = Some (assignedElements d s)).
Proof.
  split.
  - intros Hscene Hslot.
    assert (Hnew : resolveNewNodes d this s = []).
    { unfold resolveNewNodes. rewrite Hscene. simpl. by rewrite bool_decide_true. }
    unfold __getDistributedChildDifference. rewrite Hnew. simpl.
    rewrite lookup_insert_eq, diffLoop_nil_current. done.
  - intros Hscene.
    assert (Hnew : resolveNewNodes d this s = assignedElements d s).
    { unfold resolveNewNodes. by rewrite Hscene. }
    unfold __getDistributedChildDifference. rewrite Hnew. simpl.
    by rewrite lookup_insert_eq.
Qed.

Lemma resolveNewNodes_reslotted_witness :
  let o := set__prevAssignedNodes {[Doc.S1 := [Doc.X]]} (newTreeNode false true true true) in
  let sc := set__prevAssignedNodes {[Doc.S1 := [Doc.X]]} (newTreeNode true false true true) in
  (isScene o = false ∧ is_Some (assignedSlot Doc.domChain Doc.S1))
  ∧ removed (__getDistributedChildDifference Doc.domChain o Doc.S1).2 = [Doc.X]
  ∧ added (__getDistributedChildDifference Doc.domChain o Doc.S1).2 = []
  ∧ resolveNewNodes Doc.domChain sc Doc.S1 = [Doc.X].
Proof.
  intros o sc.
  assert (Hslot : is_Some (assignedSlot Doc.domChain Doc.S1)).
  { exists Doc.S3. vm_compute. reflexivity. }
  split; [split; [reflexivity | exact Hslot]|].
  destruct (resolveNewNodes_reslotted Doc.domChain o Doc.S1) as [Hnode _].
  destruct (resolveNewNodes_reslotted Doc.domChain sc Doc.S1) as [_ Hscene].
  destruct (Hnode eq_refl Hslot) as (_ & _ & Hadded & Hremoved).
  destruct (Hscene eq_refl) as (Hresolved & _).
  split; [etrans; [exact Hremoved | vm_compute; reflexivity]|].
  split; [exact Hadded|]. etrans; [exact Hresolved | vm_compute; reflexivity].
Defined.

(** ** Runs *)

Lemma reachable_run (ms : list (DOM * Mutation)) :
  ∀ st, reachable st → reachable (run ms st).
Proof.
  induction ms as [|[d m] ms IH]; intros st Hst; simpl; [done|].
  apply IH. by constructor.
Qed.

Lemma elements_fresh : freshHeap Doc.elements.
Proof. apply (bool_decide_unpack _). vm_compute. exact I. Qed.

Lemma slottedX_reachable : reachable Doc.slottedX.
Proof. apply reachable_run. constructor. apply elements_fresh. Qed.

Lemma slottedZX_reachable : reachable Doc.slottedZX.
Proof. apply reachable_run. constructor. apply elements_fresh. Qed.

(** ** Re-slotting *)

(** When the [slotchange] of the old slot is dispatched first, the move of
    [X] is reported once on each side, the old edge going before the new one
    comes. *)
Example reslot_old_slot_first :
  let st1 := (step Doc.domXY2 (SlotChange Doc.P1 Doc.S1) Doc.slottedX).1 in
  let st2 := (step Doc.domXY2 (SlotChange Doc.P2 Doc.S2) st1).1 in
  fired st1 = fired Doc.slottedX ++ [Uncomposed Doc.P1 Doc.X slot]
  ∧ dpOf (heap st1) Doc.X = None ∧ dcOf (heap st1) Doc.P1 = []
  ∧ fired st2 = fired st1 ++ [Composed Doc.P2 Doc.X slot; Composed Doc.P2 Doc.Y slot]
  ∧ dpOf (heap st2) Doc.X = Some Doc.P2
  ∧ dcOf (heap st2) Doc.P2 = [Doc.X; Doc.Y] ∧ dcOf (heap st2) Doc.P1 = [].
Proof. vm_compute. repeat split; reflexivity. Qed.

(** C3 (as the code behaves): [X] is distributed to [P1] through [S1] and is
    then moved to [S2] of [P2], the [slotchange] of [S2] being dispatched
    first.  [P2] takes [X] out of the set of [P1], which thereby becomes
    [undefined], and fires the composed callback; the handler of [P1] then
    clears the pointer of [X] and throws on
    [this.__distributedChildren!.delete], so no uncomposed callback is ever
    fired on [P1]. *)
Theorem reslot_new_slot_first_throws :
  let r1 := step Doc.domXY2 (SlotChange Doc.P2 Doc.S2) Doc.slottedX in
  let r2 := step Doc.domXY2 (SlotChange Doc.P1 Doc.S1) r1.1 in
  reachable Doc.slottedX
  ∧ dpOf (heap Doc.slottedX) Doc.X = Some Doc.P1
  ∧ dcOf (heap Doc.slottedX) Doc.P1 = [Doc.X]
  ∧ r1.2 = Normal
  ∧ fired r1.1 = fired Doc.slottedX
                 ++ [Composed Doc.P2 Doc.X slot; Composed Doc.P2 Doc.Y slot]
  ∧ (heap r1.1 !! Doc.P1) ≫= __distributedChildren = None
  ∧ r2.2 = TypeError
  ∧ fired r2.1 = fired r1.1
  ∧ pending r2.1 = []
  ∧ Uncomposed Doc.P1 Doc.X slot ∉ fired r2.1.
Proof.
  split; [apply slottedX_reachable|].
  vm_compute. repeat split; try reflexivity.
  intros Hin. repeat (apply elem_of_cons in Hin as [Heq | Hin]; [discriminate Heq|]).
  by apply elem_of_nil in Hin.
Qed.

(** ** Consistency of the distributed edges *)

(** C5 (as the code behaves): [Z] and [X] are distributed to [P1]; [X] is
    moved to [S2] and the [slotchange] of [S2] is dispatched first.  Both
    handlers complete, and in the state they leave [X] is a member of the
    distributed-children set of [P2] while its distributed-parent pointer is
    [null]: the removal loop of [P1] clears the pointer whoever it points
    to. *)
Theorem reslot_leaves_dangling_member :
  let r1 := step Doc.domZ1XY2 (SlotChange Doc.P2 Doc.S2) Doc.slottedZX in
  let r2 := step Doc.domZ1XY2 (SlotChange Doc.P1 Doc.S1) r1.1 in
  reachable r2.1
  ∧ r2.1 = run Doc.reslotKeepZ Doc.slottedZX
  ∧ r1.2 = Normal ∧ r2.2 = Normal
  ∧ dcOf (heap r1.1) Doc.P2 = [Doc.X; Doc.Y] ∧ dpOf (heap r1.1) Doc.X = Some Doc.P2
  ∧ Doc.X ∈ dcOf (heap r2.1) Doc.P2
  ∧ dpOf (heap r2.1) Doc.X = None
  ∧ ¬ edgesConsistent (heap r2.1).
Proof.
  split.
  { do 2 constructor. apply slottedZX_reachable. }
  split; [reflexivity|].
  assert (Hin : Doc.X ∈ dcOf (heap (run Doc.reslotKeepZ Doc.slottedZX)) Doc.P2).
  { vm_compute. left. }
  assert (Hdp : dpOf (heap (run Doc.reslotKeepZ Doc.slottedZX)) Doc.X = None).
  { vm_compute. reflexivity. }
  repeat split; try (vm_compute; reflexivity); try exact Hin; try exact Hdp.
  intros Hcons. pose proof (proj1 (Hcons Doc.P2 Doc.X) Hin) as Habs.
  vm_compute in Habs. discriminate Habs.
Qed.

(** ** Mutual exclusion of the two pointers *)

Lemma moveIntoRoot_both_pointers :
  reachable (run Doc.moveIntoRoot (initTracker Doc.elements))
  ∧ dpOf (heap (run Doc.moveIntoRoot (initTracker Doc.elements))) Doc.X = Some Doc.P1
  ∧ srpOf (heap (run Doc.moveIntoRoot (initTracker Doc.elements))) Doc.X = Some Doc.hostB
  ∧ ¬ exclusivePointers (heap (run Doc.moveIntoRoot (initTracker Doc.elements))).
Proof.
  split; [apply reachable_run; constructor; apply elements_fresh|].
  assert (Hdp : dpOf (heap (run Doc.moveIntoRoot (initTracker Doc.elements))) Doc.X
                = Some Doc.P1) by (vm_compute; reflexivity).
  assert (Hsrp : srpOf (heap (run Doc.moveIntoRoot (initTracker Doc.elements))) Doc.X
                 = Some Doc.hostB) by (vm_compute; reflexivity).
  split; [exact Hdp|]. split; [exact Hsrp|].
  intros Hex. destruct (Hex Doc.X) as [H | H].
  - rewrite Hdp in H. discriminate H.
  - rewrite Hsrp in H. discriminate H.
Qed.

(** ** The composed parent *)

Lemma slotOwner_shadowRoot (d : DOM) (s sp : nat) :
  parentNode d s = Some sp → nodeClass d sp = ShadowRoot →
  slotOwner d s = Some (host d sp).
Proof. intros Hp Hc. unfold slotOwner. rewrite Hp. by rewrite decide_True. Qed.

Lemma slotOwner_element (d : DOM) (s sp : nat) :
  parentNode d s = Some sp → nodeClass d sp ≠ ShadowRoot →
  slotOwner d s = parentElement d s.
Proof. intros Hp Hc. unfold slotOwner. rewrite Hp. by rewrite decide_False. Qed.

(** The parent element of a node under a scene wins over a recorded
    distributed parent: [X] is still recorded as distributed to [P1] when it
    has been moved under the scene, and its composed parent is the scene. *)
Lemma composedParent_scene_over_pointer :
  dpOf (heap Doc.slottedX) Doc.X = Some Doc.P1
  ∧ _composedParent Doc.domXscene (heap Doc.slottedX) Doc.X = Some Doc.sceneE
  ∧ ¬ (∀ o p, heap Doc.slottedX !! Doc.X = Some o →
              __distributedParent o = Some p →
              _composedParent Doc.domXscene (heap Doc.slottedX) Doc.X = Some p).
Proof.
  split; [vm_compute; reflexivity|]. split; [vm_compute; reflexivity|].
  intros Hall.
  destruct (heap Doc.slottedX !! Doc.X) as [o|] eqn:Ho; [|vm_compute in Ho; discriminate Ho].
  assert (Hdp : __distributedParent o = Some Doc.P1).
  { vm_compute in Ho. injection Ho as <-. reflexivity. }
  specialize (Hall o Doc.P1 eq_refl Hdp). vm_compute in Hall. discriminate Hall.
Qed.

(** Default content of a slot in a shadow tree: when nothing is assigned to
    the slot, its flattened assigned elements are its own children, the node
    among them, and the getter answers null as it does for a slot that has
    elements assigned.  (The comment in the getter gives null only if the
    slot has anything slotted to it.) *)
Lemma composedParent_default_content (d : DOM) (h : gmap nat TreeNode) (this p : nat)
    (o : TreeNode) :
  h !! this = Some o →
  (∀ q, parentElement d this = Some q → isSceneEl h q = false) →
  __distributedParent o = None → __shadowRootParent o = None →
  parentNode d this = Some p → nodeClass d p = HTMLSlotElement →
  this ∈ assignedElements d p →
  _composedParent d h this = None.
Proof.
  intros Ho Hnoscene Hdp Hsrp Hp Hc Hin. unfold _composedParent. rewrite Ho.
  assert (Hguard : match parentElement d this with
                   | Some q => isSceneEl h q
                   | None => false
                   end = false).
  { destruct (parentElement d this) as [q|] eqn:Hq; [by apply Hnoscene | done]. }
  rewrite Hguard, Hdp, Hsrp, Hp, Hc. rewrite decide_False; [done|].
  destruct (assignedElements d p); [by apply elem_of_nil in Hin | simpl; lia].
Qed.

Example default_content_in_shadow_tree :
  (∀ n, assignedSlot Page.unassigned n ≠ Some Page.slotA)
  ∧ parentNode Page.unassigned Page.fallbackD = Some Page.slotA
  ∧ assignedElements Page.unassigned Page.slotA = [Page.fallbackD]
  ∧ _composedParent Page.unassigned Page.elements Page.fallbackD = None.
Proof.
  split; [|split; [|split]]; try (vm_compute; reflexivity).
  intros n. unfold Page.unassigned, Page.document. simpl.
  destruct (decide (n ∈ [])) as [Hn|_]; [by apply elem_of_nil in Hn|].
  case_decide; discriminate.
Qed.

(** C2 (amended): a node whose parent element is a scene has that scene as
    composed parent.  For every other node the chain is: the distributed
    parent if set; else the shadow-root parent if set; else nothing for a node
    without parent; else, under a slot, nothing when something is assigned to
    the slot and its flattened assigned elements are not empty, and the owner
    of the slot when its flattened assigned elements are empty (nothing is
    stated for a slot to which nothing is assigned and whose flattened
    assigned elements are its default content); else, at the top of a shadow
    root, the host; else, under an HTML element, that element when it has no
    shadow root, nothing when it has one and the node is not assigned to a
    slot, and the owner of its slot when it is; else nothing.  The owner of a
    slot is the host when the slot is at the top of a shadow root, else the
    parent element of the slot. *)
Theorem composedParent_chain (d : DOM) (h : gmap nat TreeNode) (this : nat) (o : TreeNode) :
  h !! this = Some o →
  (∀ p, parentElement d this = Some p → isSceneEl h p = true →
        _composedParent d h this = Some p)
  ∧ ((∀ p, parentElement d this = Some p → isSceneEl h p = false) →
     (∀ p, __distributedParent o = Some p → _composedParent d h this = Some p)
     ∧ (__distributedParent o = None →
        (∀ p, __shadowRootParent o = Some p → _composedParent d h this = Some p)
        ∧ (__shadowRootParent o = None →
           (parentNode d this = None → _composedParent d h this = None)
           ∧ ∀ p, parentNode d this = Some p →
               (nodeClass d p = HTMLSlotElement →
                  ((∃ n, assignedSlot d n = Some p) → assignedElements d p ≠ [] →
                   _composedParent d h this = None)
                  ∧ (assignedElements d p = [] →
                       _composedParent d h this = slotOwner d p))
               ∧ (nodeClass d p = ShadowRoot →
                    _composedParent d h this = Some (host d p))
               ∧ (nodeClass d p = HTMLElement →
                    (hasShadow d p = false → _composedParent d h this = Some p)
                    ∧ (hasShadow d p = true →
                         (assignedSlot d this = None → _composedParent d h this = None)
                         ∧ (∀ s, assignedSlot d this = Some s →
                                 _composedParent d h this = slotOwner d s)))
               ∧ (nodeClass d p = OtherElement ∨ nodeClass d p = OtherNode →
                    _composedParent d h this = None))))
  ∧ (∀ s, (parentNode d s = None → slotOwner d s = None)
          ∧ ∀ sp, parentNode d s = Some sp →
               (nodeClass d sp = ShadowRoot → slotOwner d s = Some (host d sp))
               ∧ (nodeClass d sp ≠ ShadowRoot → slotOwner d s = parentElement d s)).
Proof.
  intros Ho. split; [|split].
  - intros p Hp Hscene. unfold _composedParent. rewrite Ho, Hp. by rewrite Hscene.
  - intros Hnoscene.
    assert (Hguard : match parentElement d this with
                     | Some p => isSceneEl h p
                     | None => false
                     end = false).
    { destruct (parentElement d this) as [p|] eqn:Hp; [by apply Hnoscene | done]. }
    unfold _composedParent. rewrite Ho, Hguard. split.
    { intros p Hdp. by rewrite Hdp. }
    intros Hdp. rewrite Hdp. split.
    { intros p Hsrp. by rewrite Hsrp. }
    intros Hsrp. rewrite Hsrp. split.
    { intros Hp. by rewrite Hp. }
    intros p Hp. rewrite Hp. split; [|split; [|split]].
    + intros Hc. rewrite Hc. split.
      * intros _ Hne. rewrite decide_False; [done|].
        destruct (assignedElements d p); [done | simpl; lia].
      * intros He. rewrite He. by rewrite decide_True.
    + intros Hc. by rewrite Hc.
    + intros Hc. rewrite Hc. split.
      * intros Hs. by rewrite Hs.
      * intros Hs. rewrite Hs. simpl. split.
        -- intros Ha. by rewrite Ha.
        -- intros s Ha. by rewrite Ha.
    + intros [Hc | Hc]; by rewrite Hc.
  - intros s. split.
    + intros Hp. unfold slotOwner, parentElement. by rewrite Hp.
    + intros sp Hp. split; intros Hc.
      * by apply slotOwner_shadowRoot.
      * by eapply slotOwner_element.
Qed.

Lemma composedParent_chain_witness :
  _composedParent Page.assigned Page.elements Page.fallbackD = None
  ∧ _composedParent Page.assigned Page.elements Page.looseD = Some Page.group
  ∧ _composedParent Page.assigned Page.elements Page.panel = Some Page.card
  ∧ _composedParent Page.assigned Page.elements Page.lightL = Some Page.panel
  ∧ _composedParent Page.assigned Page.elements Page.lightM = Some Page.card
  ∧ _composedParent Page.unassigned Page.elements Page.lightL = None
  ∧ _composedParent Doc.domXscene (heap Doc.slottedX) Doc.X = Some Doc.sceneE.
Proof.
  split; [|split; [|split; [|split; [|split; [|split]]]]].
  - (* default content of a slot that has an element assigned *)
    destruct (composedParent_chain Page.assigned Page.elements Page.fallbackD _
                ltac:(vm_compute; reflexivity)) as (_ & Hchain & _).
    destruct (Hchain ltac:(noScene)) as (_ & Hdp).
    destruct (Hdp eq_refl) as (_ & Hsrp).
    destruct (Hsrp eq_refl) as (_ & Hparent).
    destruct (Hparent Page.slotA ltac:(vm_compute; reflexivity)) as (Hslot & _).
    destruct (Hslot ltac:(vm_compute; reflexivity)) as (Hsome & _).
    apply Hsome.
    + exists Page.lightL. vm_compute. reflexivity.
    + vm_compute. discriminate.
  - (* the child of a slot outside of a shadow tree *)
    destruct (composedParent_chain Page.assigned Page.elements Page.looseD _
                ltac:(vm_compute; reflexivity)) as (_ & Hchain & Howner).
    destruct (Hchain ltac:(noScene)) as (_ & Hdp).
    destruct (Hdp eq_refl) as (_ & Hsrp).
    destruct (Hsrp eq_refl) as (_ & Hparent).
    destruct (Hparent Page.looseSlot ltac:(vm_compute; reflexivity)) as (Hslot & _).
    destruct (Hslot ltac:(vm_compute; reflexivity)) as (_ & Hnone).
    rewrite (Hnone ltac:(vm_compute; reflexivity)).
    destruct (Howner Page.looseSlot) as (_ & Hown).
    destruct (Hown Page.group ltac:(vm_compute; reflexivity)) as (_ & Hel).
    rewrite Hel; [vm_compute; reflexivity | vm_compute; discriminate].
  - (* a child of the shadow root *)
    destruct (composedParent_chain Page.assigned Page.elements Page.panel _
                ltac:(vm_compute; reflexivity)) as (_ & Hchain & _).
    destruct (Hchain ltac:(noScene)) as (_ & Hdp).
    destruct (Hdp eq_refl) as (_ & Hsrp).
    destruct (Hsrp eq_refl) as (_ & Hparent).
    destruct (Hparent Page.cardRoot ltac:(vm_compute; reflexivity)) as (_ & Hroot & _).
    rewrite (Hroot ltac:(vm_compute; reflexivity)). vm_compute. reflexivity.
  - (* a light child assigned to a slot inside of the tree *)
    destruct (composedParent_chain Page.assigned Page.elements Page.lightL _
                ltac:(vm_compute; reflexivity)) as (_ & Hchain & Howner).
    destruct (Hchain ltac:(noScene)) as (_ & Hdp).
    destruct (Hdp eq_refl) as (_ & Hsrp).
    destruct (Hsrp eq_refl) as (_ & Hparent).
    destruct (Hparent Page.card ltac:(vm_compute; reflexivity)) as (_ & _ & Hel & _).
    destruct (Hel ltac:(vm_compute; reflexivity)) as (_ & Hshadow).
    destruct (Hshadow ltac:(vm_compute; reflexivity)) as (_ & Hslot).
    rewrite (Hslot Page.slotA ltac:(vm_compute; reflexivity)).
    destruct (Howner Page.slotA) as (_ & Hown).
    destruct (Hown Page.panel ltac:(vm_compute; reflexivity)) as (_ & Hpel).
    rewrite Hpel; [vm_compute; reflexivity | vm_compute; discriminate].
  - (* a light child assigned to a slot at the top of the root *)
    destruct (composedParent_chain Page.assigned Page.elements Page.lightM _
                ltac:(vm_compute; reflexivity)) as (_ & Hchain & Howner).
    destruct (Hchain ltac:(noScene)) as (_ & Hdp).
    destruct (Hdp eq_refl) as (_ & Hsrp).
    destruct (Hsrp eq_refl) as (_ & Hparent).
    destruct (Hparent Page.card ltac:(vm_compute; reflexivity)) as (_ & _ & Hel & _).
    destruct (Hel ltac:(vm_compute; reflexivity)) as (_ & Hshadow).
    destruct (Hshadow ltac:(vm_compute; reflexivity)) as (_ & Hslot).
    rewrite (Hslot Page.slotTop ltac:(vm_compute; reflexivity)).
    destruct (Howner Page.slotTop) as (_ & Hown).
    destruct (Hown Page.cardRoot ltac:(vm_compute; reflexivity)) as (Hhost & _).
    rewrite Hhost; vm_compute; reflexivity.
  - (* a light child that is not assigned *)
    destruct (composedParent_chain Page.unassigned Page.elements Page.lightL _
                ltac:(vm_compute; reflexivity)) as (_ & Hchain & _).
    destruct (Hchain ltac:(noScene)) as (_ & Hdp).
    destruct (Hdp eq_refl) as (_ & Hsrp).
    destruct (Hsrp eq_refl) as (_ & Hparent).
    destruct (Hparent Page.card ltac:(vm_compute; reflexivity)) as (_ & _ & Hel & _).
    destruct (Hel ltac:(vm_compute; reflexivity)) as (_ & Hshadow).
    destruct (Hshadow ltac:(vm_compute; reflexivity)) as (Hnone & _).
    apply Hnone. vm_compute. reflexivity.
  - (* a child of a scene that is still recorded as distributed *)
    destruct (heap Doc.slottedX !! Doc.X) as [o|] eqn:Ho;
      [|vm_compute in Ho; discriminate Ho].
    destruct (composedParent_chain Doc.domXscene (heap Doc.slottedX) Doc.X o Ho)
      as (Hscene & _).
    apply Hscene; vm_compute; reflexivity.
Defined.

(** ** The composed children *)

Lemma foldl_pushDistributed (h : gmap nat TreeNode) (l : list nat) :
  ∀ acc, foldl (pushDistributed h) acc l = acc ++ filter (λ n, isNodeEl h n = true) l.
Proof.
  induction l as [|x l IH]; intros acc; simpl.
  - by rewrite app_nil_r.
  - rewrite IH. unfold pushDistributed. rewrite filter_cons.
    destruct (isNodeEl h x) eqn:Hx.
    + rewrite decide_True by done. by rewrite <- app_assoc.
    + rewrite decide_False by done. done.
Qed.

Lemma foldl_pushSlotted (d : DOM) (h : gmap nat TreeNode) (cs : list nat) :
  ∀ acc,
    foldl (pushSlotted d h) acc cs
    = acc ++ mbind (M := list)
               (λ s, filter (λ n, isNodeEl h n = true) (assignedElements d s))
               (filter (λ c, nodeClass d c = HTMLSlotElement ∧ assignedSlot d c = None) cs).
Proof.
  induction cs as [|c cs IH]; intros acc; simpl.
  - by rewrite app_nil_r.
  - rewrite IH. unfold pushSlotted. rewrite filter_cons.
    destruct (decide (nodeClass d c = HTMLSlotElement)) as [Hc|Hc].
    + rewrite (bool_decide_true _ Hc). simpl.
      destruct (assignedSlot d c) as [up|] eqn:Hup.
      * rewrite bool_decide_true by eauto. simpl.
        rewrite decide_False; [done|]. intros [_ Habs]. discriminate Habs.
      * rewrite bool_decide_false by (intros [? Habs]; discriminate Habs). simpl.
        rewrite decide_True by done. rewrite foldl_pushDistributed.
        rewrite bind_cons. by rewrite <- app_assoc.
    + rewrite (bool_decide_false _ Hc). simpl.
      rewrite decide_False; [done|]. by intros [? _].
Qed.

Lemma _distributedShadowRootChildren_spec (d : DOM) (h : gmap nat TreeNode)
    (o : TreeNode) (r : nat) :
  __shadowRoot o = Some r →
  _distributedShadowRootChildren d h o = specDistributedShadowRootChildren d h r.
Proof.
  intros Hr. unfold _distributedShadowRootChildren, specDistributedShadowRootChildren.
  rewrite Hr. by rewrite foldl_pushSlotted.
Qed.

(** C7: for an element that has recorded a shadow root and is not a scene,
    the composed children are the nodes assigned (flattened) to the slots at
    the top of that root that are not themselves assigned to a slot, followed
    by the top-level children of the root that are tree nodes; for every
    other element they are its distributed-children set followed by its own
    children that are tree nodes. *)
Theorem composedChildren_spec (d : DOM) (h : gmap nat TreeNode) (this : nat) (o : TreeNode) :
  h !! this = Some o →
  _composedChildren d h this = specComposedChildren d h o this.
Proof.
  intros Ho. unfold _composedChildren, specComposedChildren, tracksShadowRoot.
  rewrite Ho. destruct (__shadowRoot o) as [r|] eqn:Hr.
  - destruct (isScene o); simpl; [done|].
    rewrite (_distributedShadowRootChildren_spec d h o r Hr).
    unfold _shadowRootChildren. by rewrite Hr.
  - by rewrite andb_false_r.
Qed.

Lemma composedChildren_spec_witness :
  (∃ o, heap (run Doc.moveIntoRoot (initTracker Doc.elements)) !! Doc.hostB = Some o
        ∧ __shadowRoot o = Some Doc.rootB ∧ isScene o = false)
  ∧ _composedChildren Doc.domXrootB
      (heap (run Doc.moveIntoRoot (initTracker Doc.elements))) Doc.hostB = [Doc.X].
Proof.
  destruct (heap (run Doc.moveIntoRoot (initTracker Doc.elements)) !! Doc.hostB)
    as [o|] eqn:Ho; [|vm_compute in Ho; discriminate Ho].
  split.
  - exists o. split; [reflexivity|].
    vm_compute in Ho. injection Ho as <-. split; reflexivity.
  - rewrite (composedChildren_spec Doc.domXrootB _ Doc.hostB o Ho).
    vm_compute in Ho. injection Ho as <-. vm_compute. reflexivity.
Defined.

(** ** When the callbacks fire *)

(** A node that is not upgraded leaves a slot: the uncomposed callback is
    invoked at once and nothing waits for the definition. *)
Lemma uncomposed_fires_before_upgrade :
  let d := Doc.document Doc.hostH [] [] None [Doc.X] in
  let r := step d (SlotChange Doc.P1 Doc.S1) Doc.slottedX in
  defined d Doc.X = false
  ∧ fired r.1 = fired Doc.slottedX ++ [Uncomposed Doc.P1 Doc.X slot]
  ∧ pending r.1 = []
  ∧ ¬ (Uncomposed Doc.P1 Doc.X slot ∈ fired r.1 → defined d Doc.X = true).
Proof.
  vm_compute. repeat split; try reflexivity.
  intros Habs. discriminate Habs. right. left.
Qed.

Lemma whenDefinedResolved_after_wait (tag : string) (cb : Callback) (st : Tracker) :
  fired (whenDefinedResolved tag (set_pending (pending st ++ [(tag, cb)]) st))
  = fired st ++ (filter (λ p, p.1 = tag) (pending st)).*2 ++ [cb]
  ∧ pending (whenDefinedResolved tag (set_pending (pending st ++ [(tag, cb)]) st))
    = filter (λ p, p.1 ≠ tag) (pending st).
Proof.
  unfold whenDefinedResolved. simpl. rewrite !filter_app, !filter_cons, !filter_nil.
  simpl. rewrite decide_True by done. rewrite decide_False by (intros Hn; by apply Hn).
  rewrite fmap_app. simpl. by rewrite app_nil_r.
Qed.

(** C8 (amended): a composed callback is invoked at trigger time when the
    child is defined; when it is not, nothing is invoked, the invocation waits
    on [whenDefined] of the child's lower-cased tag name and happens when that
    resolves.  An uncomposed callback is invoked at trigger time whether the
    child is defined or not. *)
Theorem callback_timing (d : DOM) (this child : nat) (t : ComposedTreeConnectionType)
    (st : Tracker) (o : TreeNode) :
  heap st !! this = Some o →
  (childComposedCallback o = true →
     (defined d child = true →
        fired (__triggerChildComposedCallback d this child t st)
        = fired st ++ [Composed this child t]
        ∧ pending (__triggerChildComposedCallback d this child t st) = pending st)
     ∧ (defined d child = false →
        fired (__triggerChildComposedCallback d this child t st) = fired st
        ∧ pending (__triggerChildComposedCallback d this child t st)
          = pending st ++ [(toLowerCase (tagName d child), Composed this child t)]
        ∧ fired (whenDefinedResolved (toLowerCase (tagName d child))
                   (__triggerChildComposedCallback d this child t st))
          = fired st
            ++ (filter (λ p, p.1 = toLowerCase (tagName d child)) (pending st)).*2
            ++ [Composed this child t]
        ∧ ∀ tag, tag ≠ toLowerCase (tagName d child) →
            (toLowerCase (tagName d child), Composed this child t)
            ∈ pending (whenDefinedResolved tag
                         (__triggerChildComposedCallback d this child t st))))
  ∧ (childUncomposedCallback o = true →
     fired (__triggerChildUncomposedCallback this child t st)
     = fired st ++ [Uncomposed this child t]
     ∧ pending (__triggerChildUncomposedCallback this child t st) = pending st).
Proof.
  intros Ho. split.
  - intros Hcb. unfold __triggerChildComposedCallback. rewrite Ho, Hcb. simpl. split.
    + intros Hdef. by rewrite Hdef.
    + intros Hdef. rewrite Hdef. split; [done|]. split; [done|]. split.
      * apply whenDefinedResolved_after_wait.
      * intros tag Hne. unfold whenDefinedResolved. simpl.
        apply list_elem_of_filter. split; [simpl; congruence|].
        apply elem_of_app. right. left.
  - intros Hcb. unfold __triggerChildUncomposedCallback. by rewrite Ho, Hcb.
Qed.

Lemma callback_timing_witness :
  heap Doc.slottedX !! Doc.P1 = heap Doc.slottedX !! Doc.P1
  ∧ fired (__triggerChildComposedCallback Doc.domUndefined Doc.P1 Doc.X slot Doc.slottedX)
    = fired Doc.slottedX
  ∧ fired (whenDefinedResolved "lume-node"
             (__triggerChildComposedCallback Doc.domUndefined Doc.P1 Doc.X slot
                Doc.slottedX))
    = fired Doc.slottedX ++ [Composed Doc.P1 Doc.X slot]
  ∧ fired (__triggerChildUncomposedCallback Doc.P1 Doc.X slot Doc.slottedX)
    = fired Doc.slottedX ++ [Uncomposed Doc.P1 Doc.X slot].
Proof.
  split; [reflexivity|].
  destruct (heap Doc.slottedX !! Doc.P1) as [o|] eqn:Ho; [|vm_compute in Ho; discriminate Ho].
  assert (Hcb : childComposedCallback o = true ∧ childUncomposedCallback o = true).
  { vm_compute in Ho. injection Ho as <-. split; reflexivity. }
  destruct Hcb as [Hc Hu].
  destruct (callback_timing Doc.domUndefined Doc.P1 Doc.X slot Doc.slottedX o Ho)
    as [Hcomposed Huncomposed].
  destruct (Hcomposed Hc) as [_ Hwait].
  assert (Hdef : defined Doc.domUndefined Doc.X = false) by (vm_compute; reflexivity).
  destruct (Hwait Hdef) as (Hfired & _ & Hresolved & _).
  split; [exact Hfired|]. split.
  - etrans; [exact Hresolved|]. vm_compute. reflexivity.
  - exact (proj1 (Huncomposed Hu)).
Defined.

(** ** How the handlers touch the heap *)

Section Frame.
Context {A : Type} (g : TreeNode → A).

Lemma sameOn_refl (h : gmap nat TreeNode) : sameOn g h h.
Proof. by intros n. Qed.

Lemma sameOn_trans (h1 h2 h3 : gmap nat TreeNode) :
  sameOn g h1 h2 → sameOn g h2 h3 → sameOn g h1 h3.
Proof. intros H12 H23 n. by rewrite H23, H12. Qed.

Lemma sameOn_alter (f : TreeNode → TreeNode) (k : nat) (h : gmap nat TreeNode) :
  (∀ o, g (f o) = g o) → sameOn g h (alter f k h).
Proof.
  intros Hf n. rewrite lookup_alter. case_decide; [subst|done].
  destruct (h !! n); simpl; [by rewrite Hf | done].
Qed.

Lemma sameOn_insert (k : nat) (o o' : TreeNode) (h : gmap nat TreeNode) :
  h !! k = Some o → g o' = g o → sameOn g h (<[k:=o']> h).
Proof.
  intros Hk Hg n. rewrite lookup_insert. case_decide; [subst|done].
  rewrite Hk. simpl. by rewrite Hg.
Qed.
End Frame.

Lemma sameOn_is_Some {A} (g : TreeNode → A) (h h' : gmap nat TreeNode) (n : nat) :
  sameOn g h h' → is_Some (h' !! n) ↔ is_Some (h !! n).
Proof.
  intros Hs. specialize (Hs n). rewrite <- !(fmap_is_Some g). by rewrite Hs.
Qed.

Lemma dpOf_sameOn (h h' : gmap nat TreeNode) (n : nat) :
  sameOn __distributedParent h h' → dpOf h' n = dpOf h n.
Proof.
  intros Hs. specialize (Hs n). unfold dpOf.
  destruct (h' !! n), (h !! n); simplify_eq/=; done.
Qed.

Lemma srpOf_sameOn (h h' : gmap nat TreeNode) (n : nat) :
  sameOn __shadowRootParent h h' → srpOf h' n = srpOf h n.
Proof.
  intros Hs. specialize (Hs n). unfold srpOf.
  destruct (h' !! n), (h !! n); simplify_eq/=; done.
Qed.

Lemma heap_triggerComposed (d : DOM) (this child : nat)
    (t : ComposedTreeConnectionType) (st : Tracker) :
  heap (__triggerChildComposedCallback d this child t st) = heap st.
Proof.
  unfold __triggerChildComposedCallback.
  destruct (heap st !! this) as [o|]; [|done].
  destruct (childComposedCallback o); [|done]. by destruct (defined d child).
Qed.

Lemma heap_triggerUncomposed (this child : nat) (t : ComposedTreeConnectionType)
    (st : Tracker) :
  heap (__triggerChildUncomposedCallback this child t st) = heap st.
Proof.
  unfold __triggerChildUncomposedCallback.
  destruct (heap st !! this) as [o|]; [|done].
  by destruct (childUncomposedCallback o).
Qed.

(** ** Attaching a shadow root *)

Lemma implementsUncomposed_sameOn (h h' : gmap nat TreeNode) (n : nat) :
  sameOn static h h' → implementsUncomposed h' n = implementsUncomposed h n.
Proof.
  intros Hs. specialize (Hs n). unfold implementsUncomposed.
  destruct (h' !! n) as [[]|], (h !! n) as [[]|]; simplify_eq/=; done.
Qed.

Lemma fired_triggerUncomposed (this child : nat) (t : ComposedTreeConnectionType)
    (st : Tracker) :
  fired (__triggerChildUncomposedCallback this child t st)
  = fired st ++ (if implementsUncomposed (heap st) this
                 then [Uncomposed this child t] else []).
Proof.
  unfold __triggerChildUncomposedCallback, implementsUncomposed.
  destruct (heap st !! this) as [o|]; [|by rewrite app_nil_r].
  destruct (childUncomposedCallback o); [done | by rewrite app_nil_r].
Qed.

Lemma uncomposeChild_heap (this child : nat) (st : Tracker) :
  heap (uncomposeChild this st child)
  = alter (set__isPossiblyDistributedToShadowRoot true) child (heap st).
Proof.
  unfold uncomposeChild, instanceofTreeNode. case_bool_decide as Hc.
  - by rewrite heap_triggerUncomposed.
  - symmetry. apply alter_id'. by apply eq_None_not_Some.
Qed.

Lemma uncomposeChild_fired (this child : nat) (st : Tracker) :
  fired (uncomposeChild this st child)
  = fired st ++ (if implementsUncomposed (heap st) this
                 then (λ c, Uncomposed this c actual)
                        <$> filter (λ c, is_Some (heap st !! c)) [child]
                 else []).
Proof.
  unfold uncomposeChild, instanceofTreeNode. rewrite filter_cons, filter_nil.
  case_bool_decide as Hc.
  - rewrite fired_triggerUncomposed. simpl.
    rewrite (implementsUncomposed_sameOn (heap st) (alter _ child (heap st)));
      [|by apply sameOn_alter; intros []].
    rewrite decide_True by done. done.
  - rewrite decide_False by done. simpl.
    destruct (implementsUncomposed (heap st) this); by rewrite app_nil_r.
Qed.

Lemma uncomposeChild_rest (this child : nat) (st : Tracker) :
  pending (uncomposeChild this st child) = pending st
  ∧ observers (uncomposeChild this st child) = observers st.
Proof.
  unfold uncomposeChild. destruct (instanceofTreeNode (heap st) child); [|done].
  unfold __triggerChildUncomposedCallback. simpl.
  destruct (alter _ child (heap st) !! this) as [o|]; [|done].
  by destruct (childUncomposedCallback o).
Qed.

Lemma foldl_uncomposeChild (this : nat) (cs : list nat) :
  ∀ st,
    sameOn static (heap st) (heap (foldl (uncomposeChild this) st cs))
    ∧ sameOn __shadowRoot (heap st) (heap (foldl (uncomposeChild this) st cs))
    ∧ (∀ c, c ∈ cs → is_Some (heap st !! c) →
            flagOf (heap (foldl (uncomposeChild this) st cs)) c = Some true)
    ∧ (∀ n, n ∉ cs →
            flagOf (heap (foldl (uncomposeChild this) st cs)) n = flagOf (heap st) n)
    ∧ fired (foldl (uncomposeChild this) st cs)
      = fired st ++ (if implementsUncomposed (heap st) this
                     then (λ c, Uncomposed this c actual)
                            <$> filter (λ c, is_Some (heap st !! c)) cs
                     else [])
    ∧ pending (foldl (uncomposeChild this) st cs) = pending st
    ∧ observers (foldl (uncomposeChild this) st cs) = observers st.
Proof.
  induction cs as [|c cs IH]; intros st; simpl.
  - repeat split; try apply sameOn_refl; try done.
    + intros c Hc. by apply elem_of_nil in Hc.
    + destruct (implementsUncomposed (heap st) this); by rewrite app_nil_r.
  - destruct (IH (uncomposeChild this st c))
      as (Hstatic & Hroot & Hset & Hkeep & Hfired & Hpending & Hobs).
    assert (Hs1 : sameOn static (heap st) (heap (uncomposeChild this st c))).
    { rewrite uncomposeChild_heap. by apply sameOn_alter; intros []. }
    assert (Hflag1 : ∀ n, flagOf (heap (uncomposeChild this st c)) n
                          = if decide (c = n) then (λ _, true) <$> heap st !! n
                            else flagOf (heap st) n).
    { intros n. unfold flagOf. rewrite uncomposeChild_heap, lookup_alter.
      case_decide; [subst|done]. by destruct (heap st !! n). }
    split; [by eapply sameOn_trans|]. split.
    { eapply sameOn_trans; [|exact Hroot].
      rewrite uncomposeChild_heap. by apply sameOn_alter; intros []. }
    split.
    { intros n Hn Hsome. destruct (decide (n ∈ cs)) as [Hin|Hout].
      - apply Hset; [done|]. by apply (sameOn_is_Some static (heap st)).
      - rewrite Hkeep by done. rewrite Hflag1.
        apply elem_of_cons in Hn as [-> | Hn]; [|done].
        rewrite decide_True by done. destruct Hsome as [o ->]. done. }
    split.
    { intros n Hn. apply not_elem_of_cons in Hn as [Hne Hn].
      rewrite Hkeep by done. rewrite Hflag1. by rewrite decide_False. }
    split.
    { rewrite Hfired, uncomposeChild_fired.
      rewrite (implementsUncomposed_sameOn (heap st) (heap (uncomposeChild this st c)))
        by done.
      rewrite (list_filter_iff (λ c0, is_Some (heap (uncomposeChild this st c) !! c0))
                 (λ c0, is_Some (heap st !! c0)) cs)
        by (intros x; by apply (sameOn_is_Some static)).
      rewrite <- app_assoc. f_equal.
      destruct (implementsUncomposed (heap st) this); [|done].
      rewrite <- fmap_app. f_equal. by rewrite <- filter_app. }
    destruct (uncomposeChild_rest this c st) as [Hp1 Ho1].
    split; congruence.
Qed.

(** C10: [attachShadow] on an element that is not a scene records the root,
    registers a deep observer for it, sets the possibly-distributed flag of
    every child that is a tree node and invokes the uncomposed callback with
    type [actual] for each of them, in order, during the call (nothing is left
    waiting); on a scene it returns the root and changes nothing, and the
    composed children of the scene are its distributed children followed by
    its own tree-node children. *)
Theorem attachShadow_effects (d : DOM) (this r : nat) (st : Tracker) (o : TreeNode) :
  heap st !! this = Some o →
  (attachShadow d this r st).2 = r
  ∧ (isScene o = false →
     __shadowRoot <$> heap (attachShadow d this r st).1 !! this = Some (Some r)
     ∧ observers (attachShadow d this r st).1 !! r = Some (mkObserver this true)
     ∧ (∀ c, c ∈ children d this → is_Some (heap st !! c) →
             flagOf (heap (attachShadow d this r st).1) c = Some true)
     ∧ fired (attachShadow d this r st).1
       = fired st ++ (if childUncomposedCallback o
                      then (λ c, Uncomposed this c actual)
                             <$> filter (λ c, is_Some (heap st !! c)) (children d this)
                      else [])
     ∧ pending (attachShadow d this r st).1 = pending st)
  ∧ (isScene o = true →
     (attachShadow d this r st).1 = st
     ∧ _composedChildren d (heap st) this
       = default [] (__distributedChildren o)
         ++ filter (λ n, is_Some (heap st !! n)) (children d this)).
Proof.
  intros Ho. unfold attachShadow. rewrite Ho. split; [by destruct (isScene o)|]. split.
  - intros Hscene. rewrite Hscene. simpl.
    set (st2 := set_observers _ _).
    assert (Hh2 : heap st2 = <[this := set__shadowRoot (Some r) o]> (heap st)) by done.
    assert (Hs2 : sameOn static (heap st) (heap st2)).
    { rewrite Hh2. by eapply sameOn_insert. }
    destruct (foldl_uncomposeChild this (children d this) st2)
      as (Hstatic & Hroot & Hset & _ & Hfired & Hpending & Hobs).
    split.
    { rewrite (Hroot this), Hh2. by rewrite lookup_insert_eq. }
    split.
    { rewrite Hobs. subst st2. simpl. by rewrite lookup_insert_eq. }
    split.
    { intros c Hc Hsome. apply Hset; [done|]. by apply (sameOn_is_Some static (heap st)). }
    split; [|by rewrite Hpending].
    rewrite Hfired.
    assert (Himpl : implementsUncomposed (heap st2) this = childUncomposedCallback o).
    { rewrite (implementsUncomposed_sameOn (heap st) (heap st2)) by done.
      unfold implementsUncomposed. by rewrite Ho. }
    rewrite Himpl.
    rewrite (list_filter_iff (λ c0, is_Some (heap st2 !! c0))
               (λ c0, is_Some (heap st !! c0)) (children d this))
      by (intros x; by apply (sameOn_is_Some static)).
    done.
  - intros Hscene. rewrite Hscene. split; [done|].
    unfold _composedChildren, tracksShadowRoot. rewrite Ho, Hscene. done.
Qed.

Lemma attachShadow_effects_witness :
  Family.elements !! Family.parentF = Some (newTreeNode false true true true)
  ∧ fired (attachShadow Family.document Family.parentF Family.rootF
             (initTracker Family.elements)).1
    = [Uncomposed Family.parentF Family.kidA actual;
       Uncomposed Family.parentF Family.kidB actual;
       Uncomposed Family.parentF Family.innerScene actual]
  ∧ pending (attachShadow Family.document Family.parentF Family.rootF
               (initTracker Family.elements)).1 = []
  ∧ flagOf (heap (attachShadow Family.document Family.parentF Family.rootF
                    (initTracker Family.elements)).1) Family.kidA = Some true
  ∧ flagOf (heap (attachShadow Family.document Family.parentF Family.rootF
                    (initTracker Family.elements)).1) Family.kidB = Some true
  ∧ flagOf (heap (attachShadow Family.document Family.parentF Family.rootF
                    (initTracker Family.elements)).1) Family.innerScene = Some true
  ∧ __shadowRoot
      <$> heap (attachShadow Family.document Family.parentF Family.rootF
                  (initTracker Family.elements)).1 !! Family.parentF
    = Some (Some Family.rootF)
  ∧ observers (attachShadow Family.document Family.parentF Family.rootF
                 (initTracker Family.elements)).1 !! Family.rootF
    = Some (mkObserver Family.parentF true).
Proof.
  assert (Ho : Family.elements !! Family.parentF = Some (newTreeNode false true true true))
    by (vm_compute; reflexivity).
  split; [exact Ho|].
  destruct (attachShadow_effects Family.document Family.parentF Family.rootF
              (initTracker Family.elements) _ Ho) as (_ & Hnode & _).
  destruct (Hnode eq_refl) as (Hroot & Hobs & Hflag & Hfired & Hpending).
  split; [etrans; [exact Hfired|]; vm_compute; reflexivity|].
  split; [exact Hpending|].
  split.
  { apply Hflag; [apply (bool_decide_unpack _); vm_compute; exact I|].
    exists (newTreeNode false true true true). vm_compute. reflexivity. }
  split.
  { apply Hflag; [apply (bool_decide_unpack _); vm_compute; exact I|].
    exists (newTreeNode false true true true). vm_compute. reflexivity. }
  split.
  { apply Hflag; [apply (bool_decide_unpack _); vm_compute; exact I|].
    exists (newTreeNode true false true true). vm_compute. reflexivity. }
  split; [exact Hroot | exact Hobs].
Defined.

(** ** The pointers across the distribution handler *)

Lemma pointersStep_refl (A : list nat) (h : gmap nat TreeNode) : pointersStep A h h.
Proof. intros n. split; [done | by left]. Qed.

Lemma pointersStep_trans (A : list nat) (h1 h2 h3 : gmap nat TreeNode) :
  pointersStep A h1 h2 → pointersStep A h2 h3 → pointersStep A h1 h3.
Proof.
  intros H12 H23 n. destruct (H12 n) as [Hs12 Hd12], (H23 n) as [Hs23 Hd23].
  split; [congruence|].
  destruct Hd23 as [Hd23 | [Hd23 | Hd23]]; [|by right; left | by right; right].
  rewrite Hd23. exact Hd12.
Qed.

Lemma pointersStep_mono (A B : list nat) (h h' : gmap nat TreeNode) :
  A ⊆ B → pointersStep A h h' → pointersStep B h h'.
Proof.
  intros HAB Hp n. destruct (Hp n) as [Hs [Hd | [Hd | Hd]]]; split; auto.
Qed.

Lemma pointersStep_sameOn (A : list nat) (h h' : gmap nat TreeNode) :
  sameOn __distributedParent h h' → sameOn __shadowRootParent h h' →
  pointersStep A h h'.
Proof.
  intros Hd Hs n. split; [by apply srpOf_sameOn | left; by apply dpOf_sameOn].
Qed.

Lemma pointersStep_set_dp (A : list nat) (h : gmap nat TreeNode) (a : nat)
    (v : option nat) :
  a ∈ A ∨ v = None →
  pointersStep A h (alter (set__distributedParent v) a h).
Proof.
  intros Hv n. split.
  - apply srpOf_sameOn. by apply sameOn_alter; intros [].
  - unfold dpOf. rewrite lookup_alter. case_decide as Hn; [subst n | by left].
    destruct Hv as [Hin | ->]; [by right; right|].
    right; left. by destruct (h !! a).
Qed.

Lemma leaveDistributedParent_sameOn {B} (g : TreeNode → B) (h : gmap nat TreeNode)
    (addedNode : nat) (a : TreeNode) :
  (∀ v o, g (set__distributedChildren v o) = g o) →
  sameOn g h (leaveDistributedParent h addedNode a).
Proof.
  intros Hg. unfold leaveDistributedParent.
  destruct (__distributedParent a) as [p|]; [|apply sameOn_refl].
  destruct (h !! p) as [op|] eqn:Hp; [|apply sameOn_refl].
  destruct (__distributedChildren op); [|apply sameOn_refl].
  by eapply sameOn_insert.
Qed.

Lemma addedStep_heap (d : DOM) (this addedNode : nat) (st : Tracker) (a : TreeNode) :
  heap st !! addedNode = Some a →
  heap (addedStep d this st addedNode)
  = alter (λ o, set__distributedChildren
                  (Some (Set_add addedNode (default [] (__distributedChildren o)))) o)
      this
      (alter (set__distributedParent (Some this)) addedNode
         (leaveDistributedParent (heap st) addedNode a)).
Proof. intros Ha. unfold addedStep. rewrite Ha. by rewrite heap_triggerComposed. Qed.

Lemma addedStep_pointers (d : DOM) (this addedNode : nat) (st : Tracker) :
  pointersStep [addedNode] (heap st) (heap (addedStep d this st addedNode)).
Proof.
  destruct (heap st !! addedNode) as [a|] eqn:Ha.
  - rewrite (addedStep_heap d this addedNode st a Ha).
    eapply pointersStep_trans; [|apply pointersStep_sameOn; by apply sameOn_alter; intros []].
    eapply pointersStep_trans; [|apply pointersStep_set_dp; left; left].
    apply pointersStep_sameOn; by apply leaveDistributedParent_sameOn.
  - unfold addedStep. rewrite Ha. apply pointersStep_refl.
Qed.

Lemma foldl_addedStep_pointers (d : DOM) (this : nat) (l : list nat) :
  ∀ st, pointersStep l (heap st) (heap (foldl (addedStep d this) st l)).
Proof.
  induction l as [|a l IH]; intros st; simpl; [apply pointersStep_refl|].
  eapply pointersStep_trans.
  - eapply pointersStep_mono; [|apply addedStep_pointers].
    intros x Hx. apply list_elem_of_singleton in Hx as ->. left.
  - eapply pointersStep_mono; [|apply IH]. intros x Hx. by right.
Qed.

Lemma removedLoop_pointers (this : nat) (l : list nat) :
  ∀ st, pointersStep [] (heap st) (heap (removedLoop this l st).1).
Proof.
  induction l as [|r l IH]; intros st; simpl; [apply pointersStep_refl|].
  destruct (heap st !! r) as [_o|] eqn:Hr; [|apply IH].
  set (h1 := alter (set__distributedParent None) r (heap st)).
  assert (H1 : pointersStep [] (heap st) h1) by (apply pointersStep_set_dp; by right).
  destruct (h1 !! this) as [o|] eqn:Hthis; [|exact H1].
  destruct (__distributedChildren o) as [dc|]; [|exact H1].
  eapply pointersStep_trans; [|apply IH].
  rewrite heap_triggerUncomposed. simpl.
  eapply pointersStep_trans; [exact H1|].
  apply pointersStep_sameOn; by eapply sameOn_insert.
Qed.

Lemma resolveNewNodes_sublist (d : DOM) (o : TreeNode) (s : nat) :
  resolveNewNodes d o s ⊆ assignedElements d s.
Proof.
  unfold resolveNewNodes.
  destruct (negb (isScene o) && bool_decide (is_Some (assignedSlot d s))); [|done].
  intros x Hx. by apply elem_of_nil in Hx.
Qed.

Lemma handleDistributedChildren_pointers (d : DOM) (this s : nat) (st : Tracker) :
  pointersStep (assignedElements d s) (heap st)
    (heap (__handleDistributedChildren d this s st).1).
Proof.
  unfold __handleDistributedChildren.
  destruct (heap st !! this) as [o|] eqn:Ho; [|apply pointersStep_refl].
  unfold __getDistributedChildDifference.
  set (newNodes := resolveNewNodes d o s).
  set (diff := diffLoop _ 0 newNodes []).
  set (st1 := set_heap _ st).
  assert (H1 : pointersStep (assignedElements d s) (heap st) (heap st1)).
  { apply pointersStep_sameOn; simpl; by eapply sameOn_insert. }
  assert (H2 : pointersStep (assignedElements d s) (heap st1)
                 (heap (foldl (addedStep d this) st1 (added diff)))).
  { eapply pointersStep_mono; [|apply foldl_addedStep_pointers].
    etrans; [apply diffLoop_added_sublist | apply resolveNewNodes_sublist]. }
  eapply pointersStep_trans; [exact H1|].
  eapply pointersStep_trans; [exact H2|].
  eapply pointersStep_mono; [|apply removedLoop_pointers].
  intros x Hx. by apply elem_of_nil in Hx.
Qed.

Lemma foldl_uncomposeChild_sameOn {B} (g : TreeNode → B) (this : nat) (cs : list nat) :
  (∀ v o, g (set__isPossiblyDistributedToShadowRoot v o) = g o) →
  ∀ st, sameOn g (heap st) (heap (foldl (uncomposeChild this) st cs)).
Proof.
  intros Hg. induction cs as [|c cs IH]; intros st; simpl; [apply sameOn_refl|].
  eapply sameOn_trans; [|apply IH].
  rewrite uncomposeChild_heap. by apply sameOn_alter.
Qed.

Lemma heap_addSlotchangeListener (s this : nat) (st : Tracker) :
  heap (addSlotchangeListener s this st) = heap st.
Proof. unfold addSlotchangeListener. by case_decide. Qed.

Lemma forgetSlot_pointers (A : list nat) (this s : nat) (st : Tracker) :
  pointersStep A (heap st) (heap (forgetSlot this s st)).
Proof. apply pointersStep_sameOn; simpl; by apply sameOn_alter; intros []. Qed.

(** Handling a slot and then, when that completed, forgetting its snapshot. *)
Lemma handleThenForget_pointers (d : DOM) (this s : nat) (st : Tracker) :
  pointersStep (assignedElements d s) (heap st)
    (heap (match __handleDistributedChildren d this s st with
           | (st1, Normal) => (forgetSlot this s st1, Normal)
           | (st1, TypeError) => (st1, TypeError)
           end).1).
Proof.
  pose proof (handleDistributedChildren_pointers d this s st) as Hp.
  destruct (__handleDistributedChildren d this s st) as [st1 []]; simpl in *; [|done].
  eapply pointersStep_trans; [exact Hp | apply forgetSlot_pointers].
Qed.

Lemma handle_without_this (d : DOM) (this s : nat) (st : Tracker) :
  heap st !! this = None → __handleDistributedChildren d this s st = (st, Normal).
Proof. intros Hn. unfold __handleDistributedChildren. by rewrite Hn. Qed.

(** What a mutation does to the pointers: it sets or clears one
    shadow-root-parent pointer, or hands a slot to the distribution handler,
    or leaves all pointers alone. *)
Lemma step_heap_cases (d : DOM) (m : Mutation) (st : Tracker) :
  (∃ this child v,
      (m = ShadowRootChildAdded this child ∧ v = Some this
       ∨ m = ShadowRootChildRemoved this child ∧ v = None)
      ∧ heap (step d m st).1 = alter (set__shadowRootParent v) child (heap st))
  ∨ (∃ this s, handledSlot d m st = Some (this, s)
               ∧ pointersStep (assignedElements d s) (heap st) (heap (step d m st).1))
  ∨ pointersStep [] (heap st) (heap (step d m st).1).
Proof.
  destruct m as [this r|this child|this child|this child|this child|this s| |tag]; simpl.
  - (* attachShadow *)
    right; right. unfold attachShadow.
    destruct (heap st !! this) as [o|] eqn:Ho; [|apply pointersStep_refl].
    destruct (isScene o); [apply pointersStep_refl|]. simpl.
    set (st2 := set_observers _ _).
    eapply (pointersStep_trans _ _ (heap st2)).
    + apply pointersStep_sameOn; simpl; by eapply sameOn_insert.
    + apply pointersStep_sameOn; by apply foldl_uncomposeChild_sameOn; intros ? [].
  - (* childConnectedCallback *)
    right; right. unfold childConnectedCallback.
    destruct (heap st !! this) as [o|]; [|apply pointersStep_refl].
    destruct (isNodeEl (heap st) child).
    + destruct (tracksShadowRoot o).
      * apply pointersStep_sameOn; simpl; by apply sameOn_alter; intros [].
      * rewrite heap_triggerComposed. apply pointersStep_refl.
    + case_decide; [|apply pointersStep_refl].
      simpl. rewrite heap_addSlotchangeListener. apply pointersStep_refl.
  - (* childDisconnectedCallback *)
    unfold childDisconnectedCallback.
    destruct (heap st !! this) as [o|] eqn:Ho; [|right; right; apply pointersStep_refl].
    destruct (isNodeEl (heap st) child).
    + right; right. destruct (tracksShadowRoot o); simpl.
      * apply pointersStep_sameOn; simpl; by apply sameOn_alter; intros [].
      * rewrite heap_triggerUncomposed. apply pointersStep_refl.
    + case_decide; [|right; right; apply pointersStep_refl].
      right; left. exists this, child. split; [done|].
      apply (handleThenForget_pointers d this child
               (removeSlotchangeListenerCapture child this st)).
  - (* __shadowRootChildAdded *)
    unfold __shadowRootChildAdded.
    destruct (instanceofTreeNode (heap st) child).
    + left. exists this, child, (Some this). split; [by left|].
      simpl. by rewrite heap_triggerComposed.
    + case_decide; [|right; right; apply pointersStep_refl].
      destruct (heap st !! this) as [o|] eqn:Ho.
      * right; left. exists this, child. split; [done|].
        pose proof (handleDistributedChildren_pointers d this child
                      (addSlotchangeListener child this st)) as Hp.
        by rewrite heap_addSlotchangeListener in Hp.
      * right; right. rewrite handle_without_this
          by (by rewrite heap_addSlotchangeListener).
        simpl. rewrite heap_addSlotchangeListener. apply pointersStep_refl.
  - (* __shadowRootChildRemoved *)
    unfold __shadowRootChildRemoved.
    destruct (instanceofTreeNode (heap st) child).
    + left. exists this, child, None. split; [by right|].
      simpl. by rewrite heap_triggerUncomposed.
    + case_decide; [|right; right; apply pointersStep_refl].
      destruct (heap st !! this) as [o|] eqn:Ho.
      * right; left. exists this, child. split; [done|].
        apply (handleThenForget_pointers d this child
                 (removeSlotchangeListenerCapture child this st)).
      * right; right. rewrite handle_without_this by done. simpl.
        apply pointersStep_sameOn; simpl; by apply sameOn_alter; intros [].
  - (* slotchange *)
    right; left. exists this, s. split; [done|].
    apply handleDistributedChildren_pointers.
  - (* a deferred task *)
    destruct (deferred st) as [|[this s] rest] eqn:Hq;
      [right; right; apply pointersStep_refl|].
    right; left. exists this, s. split; [done|].
    apply (handleDistributedChildren_pointers d this s (set_deferred rest st)).
  - (* whenDefined *)
    right; right. apply pointersStep_refl.
Qed.

(** ** Which mutation triggers which callback *)











Lemma addSlotchangeListener_quiet (s this : nat) (st : Tracker) :
  fired (addSlotchangeListener s this st) = fired st
  ∧ pending (addSlotchangeListener s this st) = pending st.
Proof. unfold addSlotchangeListener. by case_decide. Qed.




(** ** Connecting a child *)



(** * Further properties of the code *)

(** ** The diff, whatever the lists *)

Lemma splice_sublist_of (i : nat) (arr : list nat) : splice i 1 arr `sublist_of` arr.
Proof.
  unfold splice. rewrite <- (take_drop i arr) at 3.
  apply sublist_app; [done|].
  rewrite <- (drop_drop arr 1 i). apply sublist_drop.
Qed.

Lemma diffLoop_sublists (prev : list nat) :
  ∀ i cur rem,
    added (diffLoop prev i cur rem) `sublist_of` cur
    ∧ ∃ more, removed (diffLoop prev i cur rem) = rem ++ more
              ∧ more `sublist_of` prev.
Proof.
  induction prev as [|x prev IH]; intros i cur rem; simpl.
  - split; [done|]. exists []. by rewrite app_nil_r.
  - destruct (indexOf x cur).
    + destruct (IH (S i) (splice i 1 cur) rem) as [Ha (more & Hr & Hm)]. split.
      * etrans; [exact Ha | apply splice_sublist_of].
      * exists more. split; [done | by apply sublist_cons].
    + destruct (IH (S i) cur (rem ++ [x])) as [Ha (more & Hr & Hm)]. split; [done|].
      exists (x :: more). split; [by rewrite Hr, <- app_assoc | by apply sublist_skip].
Qed.

Lemma diffLoop_disjoint (prev : list nat) :
  ∀ i cur rem,
    (∀ x, x ∈ rem → x ∉ cur) →
    ∀ x, x ∈ removed (diffLoop prev i cur rem) → x ∉ added (diffLoop prev i cur rem).
Proof.
  induction prev as [|y prev IH]; intros i cur rem Hrem; simpl; [done|].
  destruct (indexOf y cur) eqn:Hidx.
  - apply IH. intros x Hx Hin. apply (Hrem x Hx). by eapply splice_sublist.
  - apply IH. intros x Hx. apply elem_of_app in Hx as [Hx | Hx]; [by apply Hrem|].
    apply list_elem_of_singleton in Hx as ->. by apply indexOf_None.
Qed.

(** X1: whatever the snapshot and the assigned elements are, the added list
    is a subsequence of the slot's resolved list (so of its flattened assigned
    elements), and the removed list is a subsequence of the snapshot. *)
Theorem difference_sublists (d : DOM) (this : TreeNode) (s : nat) :
  added (__getDistributedChildDifference d this s).2 `sublist_of` resolveNewNodes d this s
  ∧ added (__getDistributedChildDifference d this s).2 ⊆ assignedElements d s
  ∧ removed (__getDistributedChildDifference d this s).2
    `sublist_of` default [] (__prevAssignedNodes this !! s).
Proof.
  unfold __getDistributedChildDifference. simpl.
  destruct (diffLoop_sublists (default [] (__prevAssignedNodes this !! s)) 0
              (resolveNewNodes d this s) []) as [Ha (more & Hr & Hm)].
  split; [exact Ha|]. split.
  - etrans; [by apply sublist_subseteq | apply resolveNewNodes_sublist].
  - by rewrite Hr.
Qed.

(** X2: no node is reported both as added and as removed. *)
Theorem difference_disjoint (d : DOM) (this : TreeNode) (s : nat) (x : nat) :
  x ∈ removed (__getDistributedChildDifference d this s).2 →
  x ∉ added (__getDistributedChildDifference d this s).2.
Proof.
  unfold __getDistributedChildDifference. simpl.
  apply diffLoop_disjoint. intros y Hy. by apply elem_of_nil in Hy.
Qed.

(** X3: a node of the snapshot that the slot no longer resolves to is always
    reported removed, and a node that was not in the snapshot never is. *)
Theorem difference_removed_bounds (d : DOM) (this : TreeNode) (s : nat) (x : nat) :
  (x ∈ default [] (__prevAssignedNodes this !! s) → x ∉ resolveNewNodes d this s →
   x ∈ removed (__getDistributedChildDifference d this s).2)
  ∧ (x ∉ default [] (__prevAssignedNodes this !! s) →
     x ∉ removed (__getDistributedChildDifference d this s).2).
Proof.
  split.
  - intros Hin Hout. unfold __getDistributedChildDifference. simpl.
    by apply diffLoop_gone_removed.
  - intros Hout Hin. apply Hout. unfold __getDistributedChildDifference in Hin.
    simpl in Hin.
    destruct (diffLoop_sublists (default [] (__prevAssignedNodes this !! s)) 0
                (resolveNewNodes d this s) []) as [_ (more & Hr & Hm)].
    rewrite Hr in Hin. by apply (sublist_subseteq _ _ Hm).
Qed.

Lemma difference_disjoint_witness :
  let o := set__prevAssignedNodes {[Doc.S1 := [Doc.Z; Doc.X; Doc.Y]]}
             (newTreeNode false true true true) in
  let d := Doc.document Doc.hostH [Doc.X; Doc.Y; Doc.hostB] [] None [] in
  Doc.Z ∈ removed (__getDistributedChildDifference d o Doc.S1).2
  ∧ Doc.Z ∉ added (__getDistributedChildDifference d o Doc.S1).2.
Proof.
  intros o d.
  assert (Hin : Doc.Z ∈ removed (__getDistributedChildDifference d o Doc.S1).2)
    by (vm_compute; left).
  split; [exact Hin | exact (difference_disjoint d o Doc.S1 Doc.Z Hin)].
Defined.

Lemma difference_removed_bounds_witness :
  let o := set__prevAssignedNodes {[Doc.S1 := [Doc.Z; Doc.X; Doc.Y]]}
             (newTreeNode false true true true) in
  let d := Doc.document Doc.hostH [Doc.X; Doc.Y; Doc.hostB] [] None [] in
  Doc.Z ∈ removed (__getDistributedChildDifference d o Doc.S1).2
  ∧ Doc.hostB ∉ removed (__getDistributedChildDifference d o Doc.S1).2.
Proof.
  intros o d.
  destruct (difference_removed_bounds d o Doc.S1 Doc.Z) as [Hgone _].
  destruct (difference_removed_bounds d o Doc.S1 Doc.hostB) as [_ Hnew].
  split.
  - apply Hgone; [vm_compute; left|].
    vm_compute. intros Hin.
    repeat (apply elem_of_cons in Hin as [Heq | Hin]; [discriminate Heq|]).
    by apply elem_of_nil in Hin.
  - apply Hnew. vm_compute. intros Hin.
    repeat (apply elem_of_cons in Hin as [Heq | Hin]; [discriminate Heq|]).
    by apply elem_of_nil in Hin.
Defined.

(** ** The distributed edges across one round of the loops *)

Lemma default_if_empty (l : list nat) :
  default [] (if decide (length l = 0) then None else Some l) = l.
Proof. case_decide as Hl; [|done]. simpl. by destruct l. Qed.

Lemma dcOf_sameOn (h h' : gmap nat TreeNode) (n : nat) :
  sameOn __distributedChildren h h' → dcOf h' n = dcOf h n.
Proof.
  intros Hs. specialize (Hs n). unfold dcOf.
  destruct (h' !! n), (h !! n); simplify_eq/=; congruence.
Qed.

Lemma dcOf_insert (h : gmap nat TreeNode) (k : nat) (o : TreeNode)
    (v : option (list nat)) (b : nat) :
  dcOf (<[k := set__distributedChildren v o]> h) b
  = if decide (k = b) then default [] v else dcOf h b.
Proof.
  unfold dcOf. rewrite lookup_insert. by case_decide.
Qed.

Lemma dcOf_alter (h : gmap nat TreeNode) (k : nat) (f : list nat → list nat) (b : nat) :
  is_Some (h !! k) →
  dcOf (alter (λ o, set__distributedChildren
                      (Some (f (default [] (__distributedChildren o)))) o) k h) b
  = if decide (k = b) then f (dcOf h k) else dcOf h b.
Proof.
  intros [o Ho]. unfold dcOf. rewrite lookup_alter.
  case_decide; [subst b|done]. by rewrite Ho.
Qed.

Lemma dpOf_set (h : gmap nat TreeNode) (a : nat) (v : option nat) (x : nat) :
  is_Some (h !! a) →
  dpOf (alter (set__distributedParent v) a h) x
  = if decide (a = x) then v else dpOf h x.
Proof.
  intros [o Ho]. unfold dpOf. rewrite lookup_alter.
  case_decide; [subst x|done]. by rewrite Ho.
Qed.

Lemma leaveDistributedParent_member (h : gmap nat TreeNode) (a : nat) (oa : TreeNode)
    (x b : nat) :
  (x ∈ dcOf (leaveDistributedParent h a oa) b → x ∈ dcOf h b)
  ∧ (x ≠ a → x ∈ dcOf h b → x ∈ dcOf (leaveDistributedParent h a oa) b).
Proof.
  unfold leaveDistributedParent.
  destruct (__distributedParent oa) as [p|]; [|done].
  destruct (h !! p) as [op|] eqn:Hp; [|done].
  destruct (__distributedChildren op) as [l|] eqn:Hl; [|done].
  rewrite dcOf_insert, default_if_empty.
  case_decide as Hpb; [subst b|done].
  assert (Hdc : dcOf h p = l) by (unfold dcOf; rewrite Hp; simpl; by rewrite Hl).
  rewrite Hdc, Set_delete_elem. tauto.
Qed.

(** What one round of the loop over the added nodes does to the edges. *)
Lemma addedStep_effect (d : DOM) (this a : nat) (st : Tracker) (oa : TreeNode) :
  heap st !! a = Some oa → is_Some (heap st !! this) →
  dpOf (heap (addedStep d this st a)) a = Some this
  ∧ (∀ x, x ≠ a → dpOf (heap (addedStep d this st a)) x = dpOf (heap st) x)
  ∧ (∀ x b, x ≠ a → x ∈ dcOf (heap (addedStep d this st a)) b ↔ x ∈ dcOf (heap st) b)
  ∧ (∀ b, a ∈ dcOf (heap (addedStep d this st a)) b → b = this ∨ a ∈ dcOf (heap st) b)
  ∧ a ∈ dcOf (heap (addedStep d this st a)) this.
Proof.
  intros Ha Hthis. rewrite (addedStep_heap d this a st oa Ha).
  set (h1 := leaveDistributedParent (heap st) a oa).
  set (h2 := alter (set__distributedParent (Some this)) a h1).
  assert (Hs1 : sameOn static (heap st) h1)
    by (by apply leaveDistributedParent_sameOn; intros ? []).
  assert (Ha1 : is_Some (h1 !! a)) by (apply (sameOn_is_Some static (heap st)); eauto).
  assert (Ht2 : is_Some (h2 !! this)).
  { apply lookup_alter_is_Some. by apply (sameOn_is_Some static (heap st)). }
  assert (Hdp : ∀ x, dpOf (alter (λ o, set__distributedChildren
                              (Some (Set_add a (default [] (__distributedChildren o)))) o)
                             this h2) x
                     = if decide (a = x) then Some this else dpOf (heap st) x).
  { intros x. rewrite (dpOf_sameOn h2) by (by apply sameOn_alter; intros []).
    unfold h2. rewrite dpOf_set by done. case_decide; [done|].
    apply dpOf_sameOn. by apply leaveDistributedParent_sameOn; intros ? []. }
  assert (Hdc : ∀ b, dcOf (alter (λ o, set__distributedChildren
                              (Some (Set_add a (default [] (__distributedChildren o)))) o)
                             this h2) b
                     = if decide (this = b) then Set_add a (dcOf h1 this) else dcOf h1 b).
  { intros b. rewrite (dcOf_alter h2 this (Set_add a) b Ht2).
    rewrite !(dcOf_sameOn h1 h2) by (by apply sameOn_alter; intros []). done. }
  split; [by rewrite Hdp, decide_True|]. split.
  { intros x Hx. rewrite Hdp. by rewrite decide_False. }
  split.
  { intros x b Hx. rewrite Hdc.
    destruct (leaveDistributedParent_member (heap st) a oa x b) as [Hl Hr].
    case_decide as Hb; [subst b|split; auto].
    rewrite Set_add_elem. split; [intros [H|H]; [auto | done] | intros H; left; auto]. }
  split.
  { intros b. rewrite Hdc. case_decide as Hb; [by left|].
    intros Hin. right. by apply (leaveDistributedParent_member (heap st) a oa a b). }
  rewrite Hdc, decide_True by done. apply Set_add_elem. by right.
Qed.

Lemma addedStep_static (d : DOM) (this a : nat) (st : Tracker) :
  sameOn static (heap st) (heap (addedStep d this st a)).
Proof.
  destruct (heap st !! a) as [oa|] eqn:Ha.
  - rewrite (addedStep_heap d this a st oa Ha).
    eapply sameOn_trans; [|by apply sameOn_alter; intros []].
    eapply sameOn_trans; [|by apply sameOn_alter; intros []].
    by apply leaveDistributedParent_sameOn; intros ? [].
  - unfold addedStep. rewrite Ha. apply sameOn_refl.
Qed.

Lemma addedStep_skip (d : DOM) (this a : nat) (st : Tracker) :
  heap st !! a = None → addedStep d this st a = st.
Proof. intros Ha. unfold addedStep. by rewrite Ha. Qed.

(** ** Fields that the handlers leave alone *)

Lemma removedLoop_sameOn {B} (g : TreeNode → B) (this : nat) (l : list nat) :
  (∀ v o, g (set__distributedChildren v o) = g o) →
  (∀ v o, g (set__distributedParent v o) = g o) →
  ∀ st, sameOn g (heap st) (heap (removedLoop this l st).1).
Proof.
  intros Hdc Hdp. induction l as [|r l IH]; intros st; simpl; [apply sameOn_refl|].
  destruct (heap st !! r) as [_o|] eqn:Hr; [|apply IH].
  set (h1 := alter (set__distributedParent None) r (heap st)).
  assert (H1 : sameOn g (heap st) h1) by (by apply sameOn_alter).
  destruct (h1 !! this) as [o|] eqn:Hthis; [|exact H1].
  destruct (__distributedChildren o) as [dc|]; [|exact H1].
  eapply sameOn_trans; [|apply IH].
  rewrite heap_triggerUncomposed. simpl.
  eapply sameOn_trans; [exact H1|]. by eapply sameOn_insert.
Qed.

Lemma foldl_addedStep_sameOn {B} (g : TreeNode → B) (d : DOM) (this : nat) (l : list nat) :
  (∀ v o, g (set__distributedChildren v o) = g o) →
  (∀ v o, g (set__distributedParent v o) = g o) →
  ∀ st, sameOn g (heap st) (heap (foldl (addedStep d this) st l)).
Proof.
  intros Hdc Hdp. induction l as [|a l IH]; intros st; simpl; [apply sameOn_refl|].
  eapply sameOn_trans; [|apply IH].
  destruct (heap st !! a) as [oa|] eqn:Ha.
  - rewrite (addedStep_heap d this a st oa Ha).
    eapply sameOn_trans; [|by apply sameOn_alter].
    eapply sameOn_trans; [|by apply sameOn_alter].
    by apply leaveDistributedParent_sameOn.
  - rewrite addedStep_skip by done. apply sameOn_refl.
Qed.

Lemma handleDistributedChildren_sameOn {B} (g : TreeNode → B) (d : DOM) (this s : nat)
    (st : Tracker) :
  (∀ v o, g (set__distributedChildren v o) = g o) →
  (∀ v o, g (set__distributedParent v o) = g o) →
  (∀ v o, g (set__prevAssignedNodes v o) = g o) →
  sameOn g (heap st) (heap (__handleDistributedChildren d this s st).1).
Proof.
  intros Hdc Hdp Hprev. unfold __handleDistributedChildren.
  destruct (heap st !! this) as [o|] eqn:Ho; [|apply sameOn_refl].
  unfold __getDistributedChildDifference.
  set (diff := diffLoop _ 0 _ []). set (st1 := set_heap _ st).
  eapply sameOn_trans; [|by apply removedLoop_sameOn].
  eapply (sameOn_trans _ _ (heap st1)); [|by apply foldl_addedStep_sameOn].
  simpl. by eapply sameOn_insert.
Qed.

Lemma handleThenForget_sameOn {B} (g : TreeNode → B) (d : DOM) (this s : nat)
    (st : Tracker) :
  (∀ v o, g (set__distributedChildren v o) = g o) →
  (∀ v o, g (set__distributedParent v o) = g o) →
  (∀ v o, g (set__prevAssignedNodes v o) = g o) →
  sameOn g (heap st)
    (heap (match __handleDistributedChildren d this s st with
           | (st1, Normal) => (forgetSlot this s st1, Normal)
           | (st1, TypeError) => (st1, TypeError)
           end).1).
Proof.
  intros Hdc Hdp Hprev.
  pose proof (handleDistributedChildren_sameOn g d this s st Hdc Hdp Hprev) as Hs.
  destruct (__handleDistributedChildren d this s st) as [st1 []]; simpl in *; [|done].
  eapply sameOn_trans; [exact Hs|]. by apply sameOn_alter.
Qed.

Lemma attachShadow_sameOn {B} (g : TreeNode → B) (d : DOM) (this r : nat) (st : Tracker) :
  (∀ v o, g (set__isPossiblyDistributedToShadowRoot v o) = g o) →
  (∀ v o, g (set__shadowRoot v o) = g o) →
  sameOn g (heap st) (heap (attachShadow d this r st).1).
Proof.
  intros Hflag Hroot. unfold attachShadow.
  destruct (heap st !! this) as [o|] eqn:Ho; [|apply sameOn_refl].
  destruct (isScene o); [apply sameOn_refl|]. simpl.
  set (st2 := set_observers _ _).
  eapply (sameOn_trans _ _ (heap st2)); [simpl; by eapply sameOn_insert|].
  by apply foldl_uncomposeChild_sameOn.
Qed.

Lemma childConnectedCallback_sameOn {B} (g : TreeNode → B) (d : DOM) (this child : nat)
    (st : Tracker) :
  (∀ v o, g (set__isPossiblyDistributedToShadowRoot v o) = g o) →
  sameOn g (heap st) (heap (childConnectedCallback d this child st)).
Proof.
  intros Hflag. unfold childConnectedCallback.
  destruct (heap st !! this) as [o|]; [|apply sameOn_refl].
  destruct (isNodeEl (heap st) child).
  - destruct (tracksShadowRoot o); [simpl; by apply sameOn_alter|].
    rewrite heap_triggerComposed. apply sameOn_refl.
  - case_decide; [|apply sameOn_refl].
    simpl. rewrite heap_addSlotchangeListener. apply sameOn_refl.
Qed.

(** A field that only [attachShadow] may write is the same after every other
    mutation; a field that nothing writes is the same after all of them. *)
Lemma step_sameOn {B} (g : TreeNode → B) (d : DOM) (m : Mutation) (st : Tracker) :
  (∀ v o, g (set__distributedChildren v o) = g o) →
  (∀ v o, g (set__distributedParent v o) = g o) →
  (∀ v o, g (set__prevAssignedNodes v o) = g o) →
  (∀ v o, g (set__isPossiblyDistributedToShadowRoot v o) = g o) →
  (∀ v o, g (set__shadowRootParent v o) = g o) →
  ((∀ v o, g (set__shadowRoot v o) = g o) ∨ ∀ this r, m ≠ AttachShadow this r) →
  sameOn g (heap st) (heap (step d m st).1).
Proof.
  intros Hdc Hdp Hprev Hflag Hsrp Hroot.
  destruct m as [this r|this child|this child|this child|this child|this s| |tag]; simpl.
  - destruct Hroot as [Hroot | Hno]; [|by destruct (Hno this r)].
    by apply attachShadow_sameOn.
  - by apply childConnectedCallback_sameOn.
  - unfold childDisconnectedCallback.
    destruct (heap st !! this) as [o|]; [|apply sameOn_refl].
    destruct (isNodeEl (heap st) child).
    + destruct (tracksShadowRoot o); simpl; [by apply sameOn_alter|].
      rewrite heap_triggerUncomposed. apply sameOn_refl.
    + case_decide; [|apply sameOn_refl].
      by apply (handleThenForget_sameOn g d this child
                  (removeSlotchangeListenerCapture child this st)).
  - unfold __shadowRootChildAdded.
    destruct (instanceofTreeNode (heap st) child); simpl.
    + rewrite heap_triggerComposed. simpl. by apply sameOn_alter.
    + case_decide; [|apply sameOn_refl].
      pose proof (handleDistributedChildren_sameOn g d this child
                    (addSlotchangeListener child this st) Hdc Hdp Hprev) as Hs.
      by rewrite heap_addSlotchangeListener in Hs.
  - unfold __shadowRootChildRemoved.
    destruct (instanceofTreeNode (heap st) child); simpl.
    + rewrite heap_triggerUncomposed. simpl. by apply sameOn_alter.
    + case_decide; [|apply sameOn_refl].
      by apply (handleThenForget_sameOn g d this child
                  (removeSlotchangeListenerCapture child this st)).
  - by apply handleDistributedChildren_sameOn.
  - destruct (deferred st) as [|[this s] rest]; [apply sameOn_refl|].
    by apply (handleDistributedChildren_sameOn g d this s (set_deferred rest st)).
  - apply sameOn_refl.
Qed.

Lemma step_static (d : DOM) (m : Mutation) (st : Tracker) :
  sameOn static (heap st) (heap (step d m st).1).
Proof. apply step_sameOn; try (by intros ? []). left. by intros ? []. Qed.

(** Every mutation either leaves the distributed edges alone or hands a slot
    to the distribution handler and leaves alone what that does to them. *)
Lemma step_edges_cases (d : DOM) (m : Mutation) (st : Tracker) :
  edgesSame (heap st) (heap (step d m st).1)
  ∨ ∃ this s st0,
      heap st0 = heap st
      ∧ edgesSame (heap (__handleDistributedChildren d this s st0).1)
          (heap (step d m st).1).
Proof.
  assert (Hrefl : ∀ h, edgesSame h h) by (intros h; split; apply sameOn_refl).
  assert (Halter : ∀ f k h,
             (∀ o, __distributedParent (f o) = __distributedParent o) →
             (∀ o, __distributedChildren (f o) = __distributedChildren o) →
             edgesSame h (alter f k h)).
  { intros f k h H1 H2. split; by apply sameOn_alter. }
  assert (Hforget : ∀ this s st0,
             edgesSame (heap (__handleDistributedChildren d this s st0).1)
               (heap (match __handleDistributedChildren d this s st0 with
                      | (st1, Normal) => (forgetSlot this s st1, Normal)
                      | (st1, TypeError) => (st1, TypeError)
                      end).1)).
  { intros this s st0.
    destruct (__handleDistributedChildren d this s st0) as [st1 []]; simpl; [|done].
    by apply Halter; intros []. }
  destruct m as [this r|this child|this child|this child|this child|this s| |tag]; simpl.
  - left. split; by apply attachShadow_sameOn; intros ? [].
  - left. split; by apply childConnectedCallback_sameOn; intros ? [].
  - unfold childDisconnectedCallback.
    destruct (heap st !! this) as [o|]; [|by left].
    destruct (isNodeEl (heap st) child).
    + left. destruct (tracksShadowRoot o); simpl; [by apply Halter; intros []|].
      by rewrite heap_triggerUncomposed.
    + case_decide; [|by left].
      right. exists this, child, (removeSlotchangeListenerCapture child this st).
      split; [done | apply Hforget].
  - unfold __shadowRootChildAdded.
    destruct (instanceofTreeNode (heap st) child); simpl.
    + left. rewrite heap_triggerComposed. simpl. by apply Halter; intros [].
    + case_decide; [|by left].
      right. exists this, child, (addSlotchangeListener child this st).
      split; [apply heap_addSlotchangeListener | done].
  - unfold __shadowRootChildRemoved.
    destruct (instanceofTreeNode (heap st) child); simpl.
    + left. rewrite heap_triggerUncomposed. simpl. by apply Halter; intros [].
    + case_decide; [|by left].
      right. exists this, child, (removeSlotchangeListenerCapture child this st).
      split; [done | apply Hforget].
  - right. by exists this, s, st.
  - destruct (deferred st) as [|[this s] rest]; [by left|].
    right. by exists this, s, (set_deferred rest st).
  - by left.
Qed.

(** ** Invariants of the distributed edges *)

Lemma sameOn_sym {B} (g : TreeNode → B) (h h' : gmap nat TreeNode) :
  sameOn g h h' → sameOn g h' h.
Proof. intros Hs n. by rewrite Hs. Qed.

Lemma removedLoop_inv (P : gmap nat TreeNode → Prop) (this : nat) :
  (∀ h r, P h → is_Some (h !! r) → P (alter (set__distributedParent None) r h)) →
  (∀ h r o l,
     P h → h !! this = Some o → __distributedChildren o = Some l → dpOf h r = None →
     P (<[this := set__distributedChildren
                    (if decide (length (Set_delete r l) = 0) then None
                     else Some (Set_delete r l)) o]> h)) →
  ∀ l st, P (heap st) → P (heap (removedLoop this l st).1).
Proof.
  intros Hclear Hdelete. induction l as [|r l IH]; intros st HP; simpl; [done|].
  destruct (heap st !! r) as [_o|] eqn:Hr; [|by apply IH].
  set (h1 := alter (set__distributedParent None) r (heap st)).
  assert (HP1 : P h1) by (apply Hclear; eauto).
  assert (Hdp1 : dpOf h1 r = None).
  { unfold h1. rewrite dpOf_set by eauto. by rewrite decide_True. }
  destruct (h1 !! this) as [o|] eqn:Hthis; [|exact HP1].
  destruct (__distributedChildren o) as [dc|] eqn:Hdc; [|exact HP1].
  apply IH. rewrite heap_triggerUncomposed. simpl. by apply Hdelete.
Qed.

Lemma foldl_addedStep_inv (P : gmap nat TreeNode → Prop) (d : DOM) (this : nat) :
  (∀ st a, is_Some (heap st !! this) → P (heap st) → P (heap (addedStep d this st a))) →
  ∀ l st, is_Some (heap st !! this) → P (heap st) →
          P (heap (foldl (addedStep d this) st l)).
Proof.
  intros Hstep. induction l as [|a l IH]; intros st Hthis HP; simpl; [done|].
  apply IH; [|by apply Hstep].
  by apply (sameOn_is_Some static (heap st)); [apply addedStep_static|].
Qed.

Lemma handleDistributedChildren_inv (P : gmap nat TreeNode → Prop) :
  (∀ h h', edgesSame h h' → sameOn static h h' → P h → P h') →
  (∀ d this st a, is_Some (heap st !! this) → P (heap st) →
                  P (heap (addedStep d this st a))) →
  (∀ this l st, P (heap st) → P (heap (removedLoop this l st).1)) →
  ∀ d this s st, P (heap st) → P (heap (__handleDistributedChildren d this s st).1).
Proof.
  intros Hframe Hadded Hremoved d this s st HP. unfold __handleDistributedChildren.
  destruct (heap st !! this) as [o|] eqn:Ho; [|done].
  unfold __getDistributedChildDifference.
  set (diff := diffLoop _ 0 _ []). set (st1 := set_heap _ st).
  apply Hremoved. apply foldl_addedStep_inv; [by apply Hadded | |].
  - subst st1. simpl. rewrite lookup_insert_eq. eauto.
  - subst st1. simpl. eapply Hframe; [| |exact HP].
    + split; by eapply sameOn_insert.
    + by eapply sameOn_insert.
Qed.

Lemma step_inv (P : gmap nat TreeNode → Prop) :
  (∀ h h', edgesSame h h' → sameOn static h h' → P h → P h') →
  (∀ d this s st, P (heap st) → P (heap (__handleDistributedChildren d this s st).1)) →
  ∀ d m st, P (heap st) → P (heap (step d m st).1).
Proof.
  intros Hframe Hhandle d m st HP.
  pose proof (step_static d m st) as Hstatic.
  destruct (step_edges_cases d m st) as [He | (this & s & st0 & H0 & He)].
  - by eapply Hframe.
  - eapply Hframe; [exact He | | apply Hhandle; by rewrite H0].
    eapply sameOn_trans; [|exact Hstatic]. apply sameOn_sym. rewrite <- H0.
    by apply handleDistributedChildren_sameOn; intros ? [].
Qed.

Lemma reachable_inv (P : gmap nat TreeNode → Prop) :
  (∀ h, freshHeap h → P h) →
  (∀ d m st, P (heap st) → P (heap (step d m st).1)) →
  ∀ st, reachable st → P (heap st).
Proof.
  intros Hinit Hstep st Hr. induction Hr as [h Hf | d m st Hr IH]; [by apply Hinit|].
  by apply Hstep.
Qed.

(** *** A pointer to a distributed parent implies membership *)

Lemma pointerInSet_frame (h h' : gmap nat TreeNode) :
  edgesSame h h' → sameOn static h h' → pointerInSet h → pointerInSet h'.
Proof.
  intros [Hdp Hdc] _ HP x b Hx.
  rewrite (dcOf_sameOn h h') by done. apply HP. by rewrite <- (dpOf_sameOn h h').
Qed.

Lemma pointerInSet_addedStep (d : DOM) (this : nat) (st : Tracker) (a : nat) :
  is_Some (heap st !! this) → pointerInSet (heap st) →
  pointerInSet (heap (addedStep d this st a)).
Proof.
  intros Hthis HP. destruct (heap st !! a) as [oa|] eqn:Ha;
    [|by rewrite addedStep_skip].
  destruct (addedStep_effect d this a st oa Ha Hthis)
    as (Hdpa & Hdp & Hdc & _ & Hin).
  intros x b Hx. destruct (decide (x = a)) as [->|Hne].
  - rewrite Hdpa in Hx. injection Hx as <-. exact Hin.
  - apply Hdc; [done|]. apply HP. by rewrite <- Hdp.
Qed.

Lemma pointerInSet_removedLoop (this : nat) (l : list nat) (st : Tracker) :
  pointerInSet (heap st) → pointerInSet (heap (removedLoop this l st).1).
Proof.
  apply removedLoop_inv.
  - intros h r HP Hr x b Hx. rewrite dpOf_set in Hx by done.
    case_decide; [discriminate Hx|].
    rewrite (dcOf_sameOn h) by (by apply sameOn_alter; intros []). by apply HP.
  - intros h r o dc HP Ho Hdc Hr x b Hx.
    rewrite (dpOf_sameOn h) in Hx by (by eapply sameOn_insert).
    assert (Hne : x ≠ r) by (intros ->; congruence).
    rewrite dcOf_insert, default_if_empty. case_decide as Hb; [subst b|by apply HP].
    apply Set_delete_elem. split; [|done].
    apply HP in Hx. unfold dcOf in Hx. rewrite Ho in Hx. simpl in Hx. by rewrite Hdc in Hx.
Qed.

Lemma freshHeap_fields (h : gmap nat TreeNode) (n : nat) (o : TreeNode) :
  freshHeap h → h !! n = Some o →
  __shadowRoot o = None ∧ __distributedParent o = None
  ∧ __shadowRootParent o = None ∧ __distributedChildren o = None.
Proof.
  intros Hf Ho. apply Hf in Ho. unfold freshTreeNode in Ho. by rewrite Ho.
Qed.

(** X4: in every reachable state, also after a handler has thrown, a node
    whose distributed-parent pointer names an element is a member of that
    element's distributed-children set. *)
Theorem pointerInSet_reachable (st : Tracker) :
  reachable st → pointerInSet (heap st).
Proof.
  apply (reachable_inv pointerInSet).
  - intros h Hf x b Hx. unfold dpOf in Hx.
    destruct (h !! x) as [o|] eqn:Ho; [|discriminate Hx].
    destruct (freshHeap_fields h x o Hf Ho) as (_ & Hdp & _). simpl in Hx. congruence.
  - apply step_inv; [apply pointerInSet_frame|].
    apply handleDistributedChildren_inv.
    + apply pointerInSet_frame.
    + intros. by apply pointerInSet_addedStep.
    + intros. by apply pointerInSet_removedLoop.
Qed.

Lemma pointerInSet_reachable_witness :
  reachable (run Doc.reslotKeepZ Doc.slottedZX)
  ∧ pointerInSet (heap (run Doc.reslotKeepZ Doc.slottedZX)).
Proof.
  assert (Hr : reachable (run Doc.reslotKeepZ Doc.slottedZX)).
  { apply reachable_run, reachable_run. constructor.
    apply (bool_decide_unpack _). vm_compute. exact I. }
  split; [exact Hr | exact (pointerInSet_reachable _ Hr)].
Defined.

(** *** An existing set is never empty *)

Lemma setsNonEmpty_alter (f : TreeNode → TreeNode) (k : nat) (h : gmap nat TreeNode) :
  (∀ o, __distributedChildren o ≠ Some [] → __distributedChildren (f o) ≠ Some []) →
  setsNonEmpty h → setsNonEmpty (alter f k h).
Proof.
  intros Hf HP n o' Hn. rewrite lookup_alter in Hn. case_decide; [subst n|by eapply HP].
  destruct (h !! k) as [o|] eqn:Ho; [|discriminate Hn].
  simpl in Hn. injection Hn as <-. apply Hf. by eapply HP.
Qed.

Lemma setsNonEmpty_insert (k : nat) (o' : TreeNode) (h : gmap nat TreeNode) :
  __distributedChildren o' ≠ Some [] → setsNonEmpty h → setsNonEmpty (<[k := o']> h).
Proof.
  intros Ho HP n o Hn. rewrite lookup_insert in Hn. case_decide; [|by eapply HP].
  by injection Hn as <-.
Qed.

Lemma dropped_when_empty (l : list nat) :
  (if decide (length l = 0) then None else Some l) ≠ Some [].
Proof. case_decide as Hl; [done|]. intros [= ->]. by apply Hl. Qed.

Lemma Set_add_nonempty (x : nat) (l : list nat) : Set_add x l ≠ [].
Proof.
  unfold Set_add. case_decide as Hx.
  - intros ->. by apply elem_of_nil in Hx.
  - by destruct l.
Qed.

Lemma setsNonEmpty_frame (h h' : gmap nat TreeNode) :
  edgesSame h h' → sameOn static h h' → setsNonEmpty h → setsNonEmpty h'.
Proof.
  intros [_ Hdc] _ HP n o' Hn. specialize (Hdc n). rewrite Hn in Hdc. simpl in Hdc.
  destruct (h !! n) as [o|] eqn:Ho; [|discriminate Hdc].
  simpl in Hdc. injection Hdc as ->. by eapply HP.
Qed.

Lemma setsNonEmpty_addedStep (d : DOM) (this : nat) (st : Tracker) (a : nat) :
  setsNonEmpty (heap st) → setsNonEmpty (heap (addedStep d this st a)).
Proof.
  intros HP. destruct (heap st !! a) as [oa|] eqn:Ha; [|by rewrite addedStep_skip].
  rewrite (addedStep_heap d this a st oa Ha).
  apply setsNonEmpty_alter.
  { intros o _. destruct o; simpl. intros [= Habs]. by apply Set_add_nonempty in Habs. }
  apply setsNonEmpty_alter; [by intros []|].
  unfold leaveDistributedParent.
  destruct (__distributedParent oa) as [p|]; [|done].
  destruct (heap st !! p) as [op|]; [|done].
  destruct (__distributedChildren op) as [l|]; [|done].
  apply setsNonEmpty_insert; [|done]. destruct op; simpl. apply dropped_when_empty.
Qed.

Lemma setsNonEmpty_removedLoop (this : nat) (l : list nat) (st : Tracker) :
  setsNonEmpty (heap st) → setsNonEmpty (heap (removedLoop this l st).1).
Proof.
  apply removedLoop_inv.
  - intros h r HP _. by apply setsNonEmpty_alter; [intros []|].
  - intros h r o dc HP _ _ _. apply setsNonEmpty_insert; [|done].
    destruct o; simpl. apply dropped_when_empty.
Qed.

(** X5: in every reachable state a distributed-children set that exists has
    at least one member, so the [_distributedChildren] getter returns [null]
    or a non-empty array, never an empty one. *)
Theorem distributedChildren_never_empty (st : Tracker) (n : nat) (o : TreeNode) :
  reachable st → heap st !! n = Some o →
  __distributedChildren o ≠ Some [] ∧ _distributedChildren o ≠ Some [].
Proof.
  intros Hr Hn.
  assert (HP : setsNonEmpty (heap st)).
  { clear Hn. revert st Hr. apply (reachable_inv setsNonEmpty).
    - intros h Hf k ok Hk. destruct (freshHeap_fields h k ok Hf Hk) as (_ & _ & _ & Hdc).
      by rewrite Hdc.
    - apply step_inv; [apply setsNonEmpty_frame|].
      apply handleDistributedChildren_inv.
      + apply setsNonEmpty_frame.
      + intros. by apply setsNonEmpty_addedStep.
      + intros. by apply setsNonEmpty_removedLoop. }
  specialize (HP n o Hn). split; [exact HP|].
  unfold _distributedChildren. by destruct (__distributedChildren o).
Qed.

Lemma distributedChildren_never_empty_witness :
  reachable (run Doc.reslotNewFirst Doc.slottedX)
  ∧ (∃ o, heap (run Doc.reslotNewFirst Doc.slottedX) !! Doc.P1 = Some o
          ∧ _distributedChildren o = None)
  ∧ (∃ o, heap (run Doc.reslotNewFirst Doc.slottedX) !! Doc.P2 = Some o
          ∧ _distributedChildren o = Some [Doc.X; Doc.Y]
          ∧ _distributedChildren o ≠ Some []).
Proof.
  assert (Hr : reachable (run Doc.reslotNewFirst Doc.slottedX)).
  { apply reachable_run, reachable_run. constructor.
    apply (bool_decide_unpack _). vm_compute. exact I. }
  split; [exact Hr|]. split.
  - destruct (heap (run Doc.reslotNewFirst Doc.slottedX) !! Doc.P1) as [o|] eqn:Ho;
      [|vm_compute in Ho; discriminate Ho].
    exists o. split; [reflexivity|]. vm_compute in Ho. injection Ho as <-. reflexivity.
  - destruct (heap (run Doc.reslotNewFirst Doc.slottedX) !! Doc.P2) as [o|] eqn:Ho;
      [|vm_compute in Ho; discriminate Ho].
    exists o. split; [reflexivity|].
    split; [vm_compute in Ho; injection Ho as <-; reflexivity|].
    exact (proj2 (distributedChildren_never_empty _ Doc.P2 o Hr Ho)).
Defined.

(** *** The members of the sets are tree nodes *)

Lemma membersAreTreeNodes_frame (h h' : gmap nat TreeNode) :
  edgesSame h h' → sameOn static h h' → membersAreTreeNodes h → membersAreTreeNodes h'.
Proof.
  intros [_ Hdc] Hs HP b x Hx. rewrite (dcOf_sameOn h h') in Hx by done.
  apply (sameOn_is_Some static h h'); [done|]. by eapply HP.
Qed.

Lemma membersAreTreeNodes_addedStep (d : DOM) (this : nat) (st : Tracker) (a : nat) :
  is_Some (heap st !! this) → membersAreTreeNodes (heap st) →
  membersAreTreeNodes (heap (addedStep d this st a)).
Proof.
  intros Hthis HP. destruct (heap st !! a) as [oa|] eqn:Ha;
    [|by rewrite addedStep_skip].
  destruct (addedStep_effect d this a st oa Ha Hthis) as (_ & _ & Hdc & _ & _).
  intros b x Hx.
  apply (sameOn_is_Some static (heap st)); [apply addedStep_static|].
  destruct (decide (x = a)) as [->|Hne]; [eauto|].
  apply (HP b). by apply Hdc.
Qed.

Lemma membersAreTreeNodes_removedLoop (this : nat) (l : list nat) (st : Tracker) :
  membersAreTreeNodes (heap st) → membersAreTreeNodes (heap (removedLoop this l st).1).
Proof.
  apply removedLoop_inv.
  - intros h r HP _ b x Hx.
    rewrite (dcOf_sameOn h) in Hx by (by apply sameOn_alter; intros []).
    apply lookup_alter_is_Some. by eapply HP.
  - intros h r o dc HP Ho Hdc _ b x Hx.
    rewrite dcOf_insert, default_if_empty in Hx.
    apply lookup_insert_is_Some'. right.
    case_decide as Hb; [subst b|by eapply HP].
    apply Set_delete_elem in Hx as [Hx _]. apply (HP this).
    unfold dcOf. rewrite Ho. simpl. by rewrite Hdc.
Qed.

Lemma membersAreTreeNodes_reachable (st : Tracker) :
  reachable st → membersAreTreeNodes (heap st).
Proof.
  apply (reachable_inv membersAreTreeNodes).
  - intros h Hf b x Hx. unfold dcOf in Hx.
    destruct (h !! b) as [o|] eqn:Ho; [|by apply elem_of_nil in Hx].
    destruct (freshHeap_fields h b o Hf Ho) as (_ & _ & _ & Hdc).
    simpl in Hx. rewrite Hdc in Hx. by apply elem_of_nil in Hx.
  - apply step_inv; [apply membersAreTreeNodes_frame|].
    apply handleDistributedChildren_inv.
    + apply membersAreTreeNodes_frame.
    + intros. by apply membersAreTreeNodes_addedStep.
    + intros. by apply membersAreTreeNodes_removedLoop.
Qed.

(** ** Scenes and shadow roots *)

Lemma scenesUntracked_sameOn (h h' : gmap nat TreeNode) :
  sameOn (λ o, (isScene o, __shadowRoot o)) h h' →
  scenesUntracked h → scenesUntracked h'.
Proof.
  intros Hs HP n o' Hn Hscene. specialize (Hs n). rewrite Hn in Hs. simpl in Hs.
  destruct (h !! n) as [o|] eqn:Ho; [|discriminate Hs].
  simpl in Hs. injection Hs as Hsc Hroot. rewrite Hroot. apply (HP n o Ho). congruence.
Qed.

Lemma scenesUntracked_step (d : DOM) (m : Mutation) (st : Tracker) :
  scenesUntracked (heap st) → scenesUntracked (heap (step d m st).1).
Proof.
  intros HP.
  assert (Hcase : (∃ this r, m = AttachShadow this r)
                  ∨ ∀ this r, m ≠ AttachShadow this r).
  { destruct m; [left; eauto | right; intros ? ? Habs; discriminate Habs ..]. }
  destruct Hcase as [(this & r & ->)|Hno].
  - simpl. unfold attachShadow.
    destruct (heap st !! this) as [o|] eqn:Ho; [|done].
    destruct (isScene o) eqn:Hscene; [done|]. simpl.
    set (st2 := set_observers _ _).
    apply (scenesUntracked_sameOn (heap st2));
      [by apply foldl_uncomposeChild_sameOn; intros ? []|].
    subst st2. simpl. intros n o' Hn Hsc. rewrite lookup_insert in Hn.
    case_decide; [|by eapply HP].
    injection Hn as <-. destruct o; simpl in *. congruence.
  - apply (scenesUntracked_sameOn (heap st)); [|done].
    apply step_sameOn; try (by intros ? []). by right.
Qed.

(** X6: in every reachable state a scene has no recorded shadow root, so the
    test [!this.isScene && this.__shadowRoot] of [childConnectedCallback],
    [childDisconnectedCallback] and [_composedChildren] agrees with
    [_hasShadowRoot] on every element. *)
Theorem scenes_never_track (st : Tracker) (n : nat) (o : TreeNode) :
  reachable st → heap st !! n = Some o →
  (isScene o = true → __shadowRoot o = None)
  ∧ tracksShadowRoot o = _hasShadowRoot o.
Proof.
  intros Hr Hn.
  assert (HP : scenesUntracked (heap st)).
  { clear Hn. revert st Hr. apply (reachable_inv scenesUntracked).
    - intros h Hf k ok Hk _. by destruct (freshHeap_fields h k ok Hf Hk) as (Hroot & _).
    - apply scenesUntracked_step. }
  split; [by apply (HP n o)|].
  unfold tracksShadowRoot, _hasShadowRoot.
  destruct (isScene o) eqn:Hscene; [|done].
  rewrite (HP n o Hn Hscene). reflexivity.
Qed.

Lemma scenes_never_track_witness :
  reachable (attachShadow Doc.domX1 Doc.sceneE Doc.rootB (initTracker Doc.elements)).1
  ∧ (∃ o, heap (attachShadow Doc.domX1 Doc.sceneE Doc.rootB
                  (initTracker Doc.elements)).1 !! Doc.sceneE = Some o
          ∧ isScene o = true ∧ __shadowRoot o = None).
Proof.
  assert (Hr : reachable (attachShadow Doc.domX1 Doc.sceneE Doc.rootB
                            (initTracker Doc.elements)).1).
  { apply (reachable_step Doc.domX1 (AttachShadow Doc.sceneE Doc.rootB)).
    constructor. apply (bool_decide_unpack _). vm_compute. exact I. }
  split; [exact Hr|].
  destruct (heap (attachShadow Doc.domX1 Doc.sceneE Doc.rootB
                    (initTracker Doc.elements)).1 !! Doc.sceneE) as [o|] eqn:Ho;
    [|vm_compute in Ho; discriminate Ho].
  exists o. split; [reflexivity|].
  assert (Hscene : isScene o = true) by (vm_compute in Ho; injection Ho as <-; reflexivity).
  split; [exact Hscene|].
  exact (proj1 (scenes_never_track _ Doc.sceneE o Hr Ho) Hscene).
Defined.

(** ** The composed children are tree nodes *)

(** X7: in every reachable state every composed child of an element is a
    [TreeNode], as the return type of [_composedChildren] says. *)
Theorem composedChildren_are_TreeNodes (d : DOM) (st : Tracker) (this c : nat) :
  reachable st → c ∈ _composedChildren d (heap st) this → is_Some (heap st !! c).
Proof.
  intros Hr. unfold _composedChildren.
  destruct (heap st !! this) as [o|] eqn:Ho; [|intros Hc; by apply elem_of_nil in Hc].
  destruct (tracksShadowRoot o).
  - intros Hc. apply elem_of_app in Hc as [Hc | Hc].
    + unfold _distributedShadowRootChildren in Hc. rewrite foldl_pushSlotted in Hc.
      simpl in Hc. apply list_elem_of_bind in Hc as (s & Hc & _).
      apply list_elem_of_filter in Hc as [Hnode _].
      unfold isNodeEl in Hnode. destruct (heap st !! c); [eauto | discriminate Hnode].
    + unfold _shadowRootChildren in Hc.
      destruct (__shadowRoot o); [|by apply elem_of_nil in Hc].
      by apply list_elem_of_filter in Hc as [Hc _].
  - intros Hc. apply elem_of_app in Hc as [Hc | Hc].
    + apply (membersAreTreeNodes_reachable st Hr this).
      unfold dcOf. by rewrite Ho.
    + by apply list_elem_of_filter in Hc as [Hc _].
Qed.

Lemma composedChildren_are_TreeNodes_witness :
  reachable Doc.slottedX
  ∧ Doc.X ∈ _composedChildren Doc.domX1 (heap Doc.slottedX) Doc.P1
  ∧ is_Some (heap Doc.slottedX !! Doc.X).
Proof.
  assert (Hr : reachable Doc.slottedX).
  { apply reachable_run. constructor. apply (bool_decide_unpack _). vm_compute. exact I. }
  assert (Hc : Doc.X ∈ _composedChildren Doc.domX1 (heap Doc.slottedX) Doc.P1)
    by (vm_compute; left).
  split; [exact Hr|]. split; [exact Hc|].
  exact (composedChildren_are_TreeNodes Doc.domX1 Doc.slottedX Doc.P1 Doc.X Hr Hc).
Defined.

(** ** The slotchange listeners *)

Lemma listeners_triggerComposed (d : DOM) (this child : nat)
    (t : ComposedTreeConnectionType) (st : Tracker) :
  listeners (__triggerChildComposedCallback d this child t st) = listeners st
  ∧ deferred (__triggerChildComposedCallback d this child t st) = deferred st.
Proof.
  unfold __triggerChildComposedCallback.
  destruct (heap st !! this) as [o|]; [|done].
  destruct (childComposedCallback o); [|done]. by destruct (defined d child).
Qed.

Lemma listeners_triggerUncomposed (this child : nat) (t : ComposedTreeConnectionType)
    (st : Tracker) :
  listeners (__triggerChildUncomposedCallback this child t st) = listeners st
  ∧ deferred (__triggerChildUncomposedCallback this child t st) = deferred st.
Proof.
  unfold __triggerChildUncomposedCallback.
  destruct (heap st !! this) as [o|]; [|done].
  by destruct (childUncomposedCallback o).
Qed.

Lemma listeners_foldl_addedStep (d : DOM) (this : nat) (l : list nat) :
  ∀ st, listeners (foldl (addedStep d this) st l) = listeners st
        ∧ deferred (foldl (addedStep d this) st l) = deferred st.
Proof.
  induction l as [|a l IH]; intros st; simpl; [done|].
  destruct (IH (addedStep d this st a)) as [Hl Hd]. rewrite Hl, Hd.
  unfold addedStep. destruct (heap st !! a); [|done].
  apply (listeners_triggerComposed d this a slot (set_heap _ st)).
Qed.

Lemma listeners_removedLoop (this : nat) (l : list nat) :
  ∀ st, listeners (removedLoop this l st).1 = listeners st
        ∧ deferred (removedLoop this l st).1 = deferred st.
Proof.
  induction l as [|r l IH]; intros st; simpl; [done|].
  destruct (heap st !! r); [|apply IH].
  destruct (alter _ r (heap st) !! this) as [o|]; [|done].
  destruct (__distributedChildren o); [|done].
  destruct (IH (__triggerChildUncomposedCallback this r slot (set_heap
              (<[this := set__distributedChildren
                           (if decide (length (Set_delete r l0) = 0) then None
                            else Some (Set_delete r l0)) o]>
                 (alter (set__distributedParent None) r (heap st))) st)))
    as [Hl Hd].
  rewrite Hl, Hd. apply (listeners_triggerUncomposed this r slot (set_heap _ st)).
Qed.

Lemma listeners_handleDistributedChildren (d : DOM) (this s : nat) (st : Tracker) :
  listeners (__handleDistributedChildren d this s st).1 = listeners st
  ∧ deferred (__handleDistributedChildren d this s st).1 = deferred st.
Proof.
  unfold __handleDistributedChildren.
  destruct (heap st !! this) as [o|]; [|done].
  unfold __getDistributedChildDifference.
  set (diff := diffLoop _ 0 _ []). set (st1 := set_heap _ st).
  destruct (listeners_removedLoop this (removed diff)
              (foldl (addedStep d this) st1 (added diff))) as [Hl Hd].
  destruct (listeners_foldl_addedStep d this (added diff) st1) as [Hl1 Hd1].
  simpl. rewrite Hl, Hd, Hl1, Hd1. done.
Qed.

Lemma listeners_handleThenForget (d : DOM) (this s : nat) (st : Tracker) :
  listeners (match __handleDistributedChildren d this s st with
             | (st1, Normal) => (forgetSlot this s st1, Normal)
             | (st1, TypeError) => (st1, TypeError)
             end).1 = listeners st.
Proof.
  pose proof (proj1 (listeners_handleDistributedChildren d this s st)) as Hl.
  by destruct (__handleDistributedChildren d this s st) as [st1 []].
Qed.

Lemma listeners_foldl_uncomposeChild (this : nat) (cs : list nat) :
  ∀ st, listeners (foldl (uncomposeChild this) st cs) = listeners st.
Proof.
  induction cs as [|c cs IH]; intros st; simpl; [done|].
  rewrite IH. unfold uncomposeChild. destruct (instanceofTreeNode (heap st) c); [|done].
  apply (listeners_triggerUncomposed this c actual (set_heap _ st)).
Qed.

(** Removing with [{capture: true}] finds none of the listeners that were
    added without it. *)
Lemma removeSlotchangeListenerCapture_plain (s this : nat) (st : Tracker) :
  (∀ l, l ∈ listeners st → l_capture l = false) →
  listeners (removeSlotchangeListenerCapture s this st) = listeners st.
Proof.
  intros Hplain. unfold removeSlotchangeListenerCapture. simpl.
  induction (listeners st) as [|l ls IH]; [done|].
  rewrite filter_cons. rewrite decide_True.
  - f_equal. apply IH. intros l' Hl'. apply Hplain. by right.
  - intros ->. specialize (Hplain _ (list_elem_of_here _ _)). discriminate Hplain.
Qed.

Lemma addSlotchangeListener_plain (s this : nat) (st : Tracker) :
  listenersPlain st →
  listenersPlain (addSlotchangeListener s this st)
  ∧ mkListener s this false ∈ listeners (addSlotchangeListener s this st)
  ∧ ∃ more, listeners (addSlotchangeListener s this st) = listeners st ++ more.
Proof.
  intros [Hnd Hplain]. unfold addSlotchangeListener. case_decide as Hin.
  - repeat split; try done. exists []. by rewrite app_nil_r.
  - simpl. split; [split|split].
    + apply NoDup_app. split; [done|]. split; [|apply NoDup_singleton].
      intros l Hl Hl'. apply list_elem_of_singleton in Hl' as ->. done.
    + intros l Hl. apply elem_of_app in Hl as [Hl | Hl]; [by apply Hplain|].
      by apply list_elem_of_singleton in Hl as ->.
    + apply elem_of_app. right. left.
    + by exists [mkListener s this false].
Qed.

Lemma step_listeners (d : DOM) (m : Mutation) (st : Tracker) :
  listenersPlain st →
  listenersPlain (step d m st).1
  ∧ ∃ more, listeners (step d m st).1 = listeners st ++ more.
Proof.
  intros HP.
  assert (Hsame : ∀ st', listeners st' = listeners st →
             listenersPlain st' ∧ ∃ more, listeners st' = listeners st ++ more).
  { intros st' Hl. split; [unfold listenersPlain; by rewrite Hl|].
    exists []. by rewrite app_nil_r. }
  assert (Hadd : ∀ s this st',
             listeners st' = listeners (addSlotchangeListener s this st) →
             listenersPlain st' ∧ ∃ more, listeners st' = listeners st ++ more).
  { intros s this st' Hl.
    destruct (addSlotchangeListener_plain s this st HP) as (HP' & _ & Hmore).
    split; [unfold listenersPlain; by rewrite Hl | by rewrite Hl]. }
  destruct m as [this r|this child|this child|this child|this child|this s| |tag]; simpl.
  - apply Hsame. unfold attachShadow.
    destruct (heap st !! this) as [o|]; [|done].
    destruct (isScene o); [done|]. simpl. by rewrite listeners_foldl_uncomposeChild.
  - unfold childConnectedCallback.
    destruct (heap st !! this) as [o|]; [|by apply Hsame].
    destruct (isNodeEl (heap st) child).
    + destruct (tracksShadowRoot o); [by apply Hsame|].
      apply Hsame. apply listeners_triggerComposed.
    + case_decide; [|by apply Hsame]. by apply (Hadd child this).
  - unfold childDisconnectedCallback.
    destruct (heap st !! this) as [o|]; [|by apply Hsame].
    destruct (isNodeEl (heap st) child).
    + destruct (tracksShadowRoot o); [by apply (Hsame (set_heap _ st))|].
      apply (Hsame (__triggerChildUncomposedCallback this child actual st)).
      apply listeners_triggerUncomposed.
    + case_decide; [|by apply Hsame].
      apply Hsame. rewrite listeners_handleThenForget.
      apply removeSlotchangeListenerCapture_plain, HP.
  - unfold __shadowRootChildAdded.
    destruct (instanceofTreeNode (heap st) child); simpl.
    + apply Hsame. apply (listeners_triggerComposed d this child root (set_heap _ st)).
    + case_decide; [|by apply Hsame].
      apply (Hadd child this). apply listeners_handleDistributedChildren.
  - unfold __shadowRootChildRemoved.
    destruct (instanceofTreeNode (heap st) child); simpl.
    + apply Hsame. apply (listeners_triggerUncomposed this child root (set_heap _ st)).
    + case_decide; [|by apply Hsame].
      apply Hsame. rewrite listeners_handleThenForget.
      apply removeSlotchangeListenerCapture_plain, HP.
  - apply Hsame. apply listeners_handleDistributedChildren.
  - destruct (deferred st) as [|[this s] rest]; [by apply Hsame|].
    apply Hsame. apply (listeners_handleDistributedChildren d this s (set_deferred rest st)).
  - by apply (Hsame (whenDefinedResolved tag st)).
Qed.

Lemma listenersPlain_reachable (st : Tracker) : reachable st → listenersPlain st.
Proof.
  induction 1 as [h Hf | d m st Hr IH].
  - split; [apply NoDup_nil_2 | intros l Hl; by apply elem_of_nil in Hl].
  - by apply step_listeners.
Qed.

(** X8: in every reachable state each [slotchange] listener is registered
    once and without capture, and no mutation unregisters one: the
    [removeEventListener] calls of [childDisconnectedCallback] and
    [__shadowRootChildRemoved] pass [{capture: true}] and so match none of the
    listeners that [childConnectedCallback] and [__shadowRootChildAdded] add. *)
Theorem listeners_never_removed (st : Tracker) :
  reachable st →
  NoDup (listeners st)
  ∧ (∀ l, l ∈ listeners st → l_capture l = false)
  ∧ ∀ ms l, l ∈ listeners st → l ∈ listeners (run ms st).
Proof.
  intros Hr. destruct (listenersPlain_reachable st Hr) as [Hnd Hplain].
  split; [done|]. split; [done|].
  intros ms. revert st Hr Hnd Hplain.
  induction ms as [|[d m] ms IH]; intros st Hr Hnd Hplain l Hl; simpl; [done|].
  destruct (step_listeners d m st (conj Hnd Hplain)) as [[Hnd' Hplain'] [more Hmore]].
  apply IH; [by constructor | done | done|].
  rewrite Hmore. apply elem_of_app. by left.
Qed.

Lemma listeners_never_removed_witness :
  let st := childConnectedCallback Doc.domX1 Doc.P1 Doc.S1 (initTracker Doc.elements) in
  reachable st
  ∧ mkListener Doc.S1 Doc.P1 false ∈ listeners st
  ∧ mkListener Doc.S1 Doc.P1 false
    ∈ listeners (run [(Doc.domX1, ChildDisconnected Doc.P1 Doc.S1)] st).
Proof.
  intros st.
  assert (Hr : reachable st).
  { apply (reachable_step Doc.domX1 (ChildConnected Doc.P1 Doc.S1)).
    constructor. apply (bool_decide_unpack _). vm_compute. exact I. }
  assert (Hl : mkListener Doc.S1 Doc.P1 false ∈ listeners st) by (vm_compute; left).
  split; [exact Hr|]. split; [exact Hl|].
  destruct (listeners_never_removed st Hr) as (_ & _ & Hkeep).
  exact (Hkeep _ _ Hl).
Defined.

(** ** What the distribution handler establishes *)

Lemma removedLoop_keeps (this x : nat) (l : list nat) :
  x ∉ l →
  ∀ st, dpOf (heap (removedLoop this l st).1) x = dpOf (heap st) x
        ∧ ∀ b, x ∈ dcOf (heap (removedLoop this l st).1) b ↔ x ∈ dcOf (heap st) b.
Proof.
  induction l as [|r l IH]; intros Hx st; simpl; [done|].
  apply not_elem_of_cons in Hx as [Hne Hx].
  destruct (heap st !! r) as [_o|] eqn:Hr; [|by apply IH].
  set (h1 := alter (set__distributedParent None) r (heap st)).
  assert (H1 : dpOf h1 x = dpOf (heap st) x ∧ ∀ b, dcOf h1 b = dcOf (heap st) b).
  { split.
    - unfold h1. rewrite dpOf_set by eauto. by rewrite decide_False.
    - intros b. apply dcOf_sameOn. by apply sameOn_alter; intros []. }
  destruct H1 as [Hdp1 Hdc1].
  destruct (h1 !! this) as [o|] eqn:Hthis;
    [|simpl; split; [done | intros b; by rewrite Hdc1]].
  destruct (__distributedChildren o) as [dc|] eqn:Hdc;
    [|simpl; split; [done | intros b; by rewrite Hdc1]].
  destruct (IH Hx (__triggerChildUncomposedCallback this r slot
                     (set_heap (<[this := set__distributedChildren
                                   (if decide (length (Set_delete r dc) = 0) then None
                                    else Some (Set_delete r dc)) o]> h1) st)))
    as [Hdp Hmem].
  rewrite heap_triggerUncomposed in Hdp, Hmem. simpl in Hdp, Hmem.
  split.
  - rewrite Hdp. rewrite (dpOf_sameOn h1) by (by eapply sameOn_insert). done.
  - intros b. rewrite Hmem, dcOf_insert, default_if_empty, <- Hdc1.
    destruct (decide (this = b)) as [<-|Hb]; [|done].
    assert (Hl : dcOf h1 this = dc) by (unfold dcOf; rewrite Hthis; simpl; by rewrite Hdc).
    rewrite Hl, Set_delete_elem. tauto.
Qed.

Lemma foldl_addedStep_establishes (d : DOM) (this : nat) (l : list nat) :
  ∀ st a, is_Some (heap st !! this) → a ∈ l → is_Some (heap st !! a) →
          dpOf (heap (foldl (addedStep d this) st l)) a = Some this
          ∧ a ∈ dcOf (heap (foldl (addedStep d this) st l)) this.
Proof.
  induction l as [|a' l IH]; intros st a Hthis Ha Hsome; simpl;
    [by apply elem_of_nil in Ha|].
  assert (Hthis1 : is_Some (heap (addedStep d this st a') !! this)).
  { by apply (sameOn_is_Some static (heap st)); [apply addedStep_static|]. }
  destruct (decide (a ∈ l)) as [Hin|Hout].
  { apply IH; [done | done|].
    by apply (sameOn_is_Some static (heap st)); [apply addedStep_static|]. }
  apply elem_of_cons in Ha as [-> | Ha]; [|done].
  destruct Hsome as [oa Hoa].
  destruct (addedStep_effect d this a' st oa Hoa Hthis) as (Hdp & _ & _ & _ & Hin).
  apply (foldl_addedStep_inv
           (λ h, dpOf h a' = Some this ∧ a' ∈ dcOf h this) d this); [|done|done].
  clear. intros st a Hthis [Hdp Hin].
  destruct (heap st !! a) as [oa|] eqn:Ha; [|by rewrite addedStep_skip].
  destruct (addedStep_effect d this a st oa Ha Hthis) as (Hdpa & Hdpx & Hdc & _ & Hina).
  destruct (decide (a' = a)) as [->|Hne]; [done|].
  split; [by rewrite Hdpx | by apply Hdc].
Qed.

(** X9: whatever the snapshot was and however the call ends, every tree node
    that the diff reports as added is afterwards distributed to [this] on
    both sides: its distributed-parent pointer is [this] and it is in the
    distributed-children set of [this].  Its composed parent is then [this]
    unless its parent element is a scene, and it is a composed child of
    [this] when [this] is a scene or has recorded no shadow root. *)
Theorem handleDistributedChildren_establishes (d : DOM) (this s : nat) (st : Tracker)
    (o : TreeNode) (a : nat) :
  heap st !! this = Some o →
  a ∈ added (__getDistributedChildDifference d o s).2 →
  is_Some (heap st !! a) →
  dpOf (heap (__handleDistributedChildren d this s st).1) a = Some this
  ∧ a ∈ dcOf (heap (__handleDistributedChildren d this s st).1) this
  ∧ ((∀ p, parentElement d a = Some p →
           isSceneEl (heap (__handleDistributedChildren d this s st).1) p = false) →
     _composedParent d (heap (__handleDistributedChildren d this s st).1) a = Some this)
  ∧ (tracksShadowRoot o = false →
     a ∈ _composedChildren d (heap (__handleDistributedChildren d this s st).1) this).
Proof.
  intros Ho Hadded Hsome.
  assert (Hedge : dpOf (heap (__handleDistributedChildren d this s st).1) a = Some this
                  ∧ a ∈ dcOf (heap (__handleDistributedChildren d this s st).1) this).
  { unfold __handleDistributedChildren. rewrite Ho.
    unfold __getDistributedChildDifference in *. simpl in Hadded.
    set (diff := diffLoop _ 0 _ []) in *. set (st1 := set_heap _ st).
    assert (Hnot : a ∉ removed diff).
    { intros Hrem. revert Hadded. apply diffLoop_disjoint with (rem := []); [|done].
      intros y Hy. by apply elem_of_nil in Hy. }
    destruct (removedLoop_keeps this a (removed diff) Hnot
                (foldl (addedStep d this) st1 (added diff))) as [Hdp Hmem].
    rewrite Hdp, Hmem.
    apply foldl_addedStep_establishes; [|done|].
    - subst st1. simpl. rewrite lookup_insert_eq. eauto.
    - subst st1. simpl. apply lookup_insert_is_Some'. by right. }
  destruct Hedge as [Hdp Hin]. split; [done|]. split; [done|]. split.
  - intros Hnoscene. unfold _composedParent. unfold dpOf in Hdp.
    destruct (heap (__handleDistributedChildren d this s st).1 !! a) as [oa|];
      [|discriminate Hdp].
    simpl in Hdp. rewrite Hdp.
    destruct (parentElement d a) as [p|] eqn:Hp; [|done]. by rewrite (Hnoscene p).
  - intros Htracks. unfold _composedChildren.
    pose proof (handleDistributedChildren_sameOn tracksShadowRoot d this s st) as Hs.
    specialize (Hs ltac:(by intros ? []) ltac:(by intros ? []) ltac:(by intros ? []) this).
    rewrite Ho in Hs. simpl in Hs. unfold dcOf in Hin.
    destruct (heap (__handleDistributedChildren d this s st).1 !! this) as [o'|];
      [|discriminate Hs].
    simpl in Hs, Hin. injection Hs as ->. rewrite Htracks.
    apply elem_of_app. by left.
Qed.

Lemma handleDistributedChildren_establishes_witness :
  (∃ o, heap (initTracker Doc.elements) !! Doc.P1 = Some o
        ∧ Doc.X ∈ added (__getDistributedChildDifference Doc.domX1 o Doc.S1).2)
  ∧ _composedParent Doc.domX1
      (heap (__handleDistributedChildren Doc.domX1 Doc.P1 Doc.S1
               (initTracker Doc.elements)).1) Doc.X = Some Doc.P1
  ∧ Doc.X ∈ _composedChildren Doc.domX1
      (heap (__handleDistributedChildren Doc.domX1 Doc.P1 Doc.S1
               (initTracker Doc.elements)).1) Doc.P1.
Proof.
  assert (Ho : heap (initTracker Doc.elements) !! Doc.P1
               = Some (newTreeNode false true true true)) by (vm_compute; reflexivity).
  assert (Ha : Doc.X ∈ added (__getDistributedChildDifference Doc.domX1
                                (newTreeNode false true true true) Doc.S1).2)
    by (vm_compute; left).
  split; [eexists; split; [exact Ho | exact Ha]|].
  assert (Hx : is_Some (heap (initTracker Doc.elements) !! Doc.X))
    by (vm_compute; eauto).
  destruct (handleDistributedChildren_establishes Doc.domX1 Doc.P1 Doc.S1
              (initTracker Doc.elements) _ Doc.X Ho Ha Hx) as (_ & _ & Hparent & Hchild).
  split.
  - apply Hparent. intros p Hp. vm_compute in Hp. injection Hp as <-.
    vm_compute. reflexivity.
  - apply Hchild. vm_compute. reflexivity.
Defined.

(** ** When the distribution handler completes *)

Lemma removedLoop_completes (this : nat) (l : list nat) :
  NoDup l →
  ∀ st, is_Some (heap st !! this) →
        (∀ r, r ∈ l → is_Some (heap st !! r) → r ∈ dcOf (heap st) this) →
        (removedLoop this l st).2 = Normal
        ∧ ∀ r, r ∈ l → is_Some (heap st !! r) →
               dpOf (heap (removedLoop this l st).1) r = None
               ∧ r ∉ dcOf (heap (removedLoop this l st).1) this.
Proof.
  induction l as [|r l IH]; intros Hnd st Hthis Hmem; simpl.
  { split; [done|]. intros r Hr. by apply elem_of_nil in Hr. }
  apply NoDup_cons in Hnd as [Hr Hnd].
  destruct (heap st !! r) as [or|] eqn:Hor.
  2:{ destruct (IH Hnd st Hthis) as [Hn Hpost].
      { intros r' Hr'. apply Hmem. by right. }
      split; [done|]. intros r' Hr' Hsome.
      apply elem_of_cons in Hr' as [-> | Hr']; [|by apply Hpost].
      rewrite Hor in Hsome. by destruct Hsome. }
  set (h1 := alter (set__distributedParent None) r (heap st)).
  assert (Hs1 : sameOn static (heap st) h1) by (by apply sameOn_alter; intros []).
  assert (Hdc1 : ∀ b, dcOf h1 b = dcOf (heap st) b).
  { intros b. apply dcOf_sameOn. by apply sameOn_alter; intros []. }
  assert (Hin : r ∈ dcOf h1 this).
  { rewrite Hdc1. apply Hmem; [left | eauto]. }
  destruct (h1 !! this) as [o|] eqn:Ho.
  2:{ unfold dcOf in Hin. rewrite Ho in Hin. by apply elem_of_nil in Hin. }
  destruct (__distributedChildren o) as [dc|] eqn:Hdc.
  2:{ unfold dcOf in Hin. rewrite Ho in Hin. simpl in Hin. rewrite Hdc in Hin.
      by apply elem_of_nil in Hin. }
  assert (Hl : dcOf h1 this = dc) by (unfold dcOf; rewrite Ho; simpl; by rewrite Hdc).
  set (st' := __triggerChildUncomposedCallback this r slot (set_heap _ st)).
  assert (Hh' : heap st' = <[this := set__distributedChildren
                               (if decide (length (Set_delete r dc) = 0) then None
                                else Some (Set_delete r dc)) o]> h1).
  { subst st'. by rewrite heap_triggerUncomposed. }
  assert (Hs' : sameOn static (heap st) (heap st')).
  { rewrite Hh'. eapply sameOn_trans; [exact Hs1 | by eapply sameOn_insert]. }
  assert (Hdc' : dcOf (heap st') this = Set_delete r dc).
  { rewrite Hh', dcOf_insert, default_if_empty. by rewrite decide_True. }
  assert (Hdp' : dpOf (heap st') r = None).
  { rewrite Hh'. rewrite (dpOf_sameOn h1) by (by eapply sameOn_insert).
    unfold h1. rewrite dpOf_set by eauto. by rewrite decide_True. }
  destruct (IH Hnd st') as [Hn Hpost].
  { by apply (sameOn_is_Some static (heap st)). }
  { intros r' Hr' Hsome. rewrite Hdc'. apply Set_delete_elem. split.
    - rewrite <- Hl, Hdc1. apply Hmem; [by right|].
      by apply (sameOn_is_Some static (heap st) (heap st')).
    - intros ->. done. }
  split; [exact Hn|]. intros r' Hr' Hsome.
  apply elem_of_cons in Hr' as [-> | Hr'].
  - destruct (removedLoop_keeps this r l Hr st') as [Hdp Hkeep].
    rewrite Hdp, Hkeep, Hdc'. split; [done|]. rewrite Set_delete_elem. tauto.
  - apply Hpost; [done|]. by apply (sameOn_is_Some static (heap st)).
Qed.

(** X10: the handler completes without the [TypeError] whenever the snapshot
    of the slot has no duplicates and every tree node in it is still in the
    distributed-children set of [this]; every tree node reported removed then
    has a [null] distributed-parent pointer and is out of that set. *)
Theorem handleDistributedChildren_completes (d : DOM) (this s : nat) (st : Tracker)
    (o : TreeNode) :
  heap st !! this = Some o →
  NoDup (default [] (__prevAssignedNodes o !! s)) →
  (∀ x, x ∈ default [] (__prevAssignedNodes o !! s) → is_Some (heap st !! x) →
        x ∈ dcOf (heap st) this) →
  (__handleDistributedChildren d this s st).2 = Normal
  ∧ ∀ r, r ∈ removed (__getDistributedChildDifference d o s).2 →
         is_Some (heap st !! r) →
         dpOf (heap (__handleDistributedChildren d this s st).1) r = None
         ∧ r ∉ dcOf (heap (__handleDistributedChildren d this s st).1) this.
Proof.
  intros Ho Hnd Hmem. unfold __handleDistributedChildren. rewrite Ho.
  unfold __getDistributedChildDifference. simpl.
  set (prev := default [] (__prevAssignedNodes o !! s)) in *.
  set (diff := diffLoop prev 0 _ []). set (st1 := set_heap _ st).
  destruct (diffLoop_sublists prev 0 (resolveNewNodes d o s) [])
    as [_ (more & Hr & Hsub)].
  fold diff in Hr. simpl in Hr. subst more.
  set (st2 := foldl (addedStep d this) st1 (added diff)).
  assert (Hthis1 : is_Some (heap st1 !! this)).
  { subst st1. simpl. rewrite lookup_insert_eq. eauto. }
  assert (Hs1 : sameOn static (heap st) (heap st1)).
  { subst st1. simpl. by eapply sameOn_insert. }
  assert (Hs2 : sameOn static (heap st) (heap st2)).
  { eapply sameOn_trans; [exact Hs1|]. by apply foldl_addedStep_sameOn; intros ? []. }
  destruct (removedLoop_completes this (removed diff)) with (st := st2) as [Hn Hpost].
  - by eapply sublist_NoDup.
  - by apply (sameOn_is_Some static (heap st)); [|eauto].
  - intros r Hrin Hsome.
    assert (Hr0 : r ∈ dcOf (heap st1) this).
    { subst st1. simpl. rewrite (dcOf_sameOn (heap st)) by (by eapply sameOn_insert).
      apply Hmem; [by apply (sublist_subseteq _ _ Hsub)|].
      by apply (sameOn_is_Some static (heap st) (heap st2)). }
    revert Hr0. apply (foldl_addedStep_inv (λ h, r ∈ dcOf h this) d this); [|done].
    clear. intros st a Hthis Hin.
    destruct (heap st !! a) as [oa|] eqn:Ha; [|by rewrite addedStep_skip].
    destruct (addedStep_effect d this a st oa Ha Hthis) as (_ & _ & Hdc & _ & Hina).
    destruct (decide (r = a)) as [->|Hne]; [done | by apply Hdc].
  - split; [exact Hn|]. intros r Hrin Hsome. apply Hpost; [done|].
    by apply (sameOn_is_Some static (heap st)).
Qed.

Lemma handleDistributedChildren_completes_witness :
  (∃ o, heap Doc.slottedZX !! Doc.P1 = Some o
        ∧ NoDup (default [] (__prevAssignedNodes o !! Doc.S1)))
  ∧ (__handleDistributedChildren Doc.domXY2 Doc.P1 Doc.S1 Doc.slottedZX).2 = Normal.
Proof.
  destruct (heap Doc.slottedZX !! Doc.P1) as [o|] eqn:Ho;
    [|vm_compute in Ho; discriminate Ho].
  assert (Hprev : default [] (__prevAssignedNodes o !! Doc.S1) = [Doc.Z; Doc.X]).
  { vm_compute in Ho. injection Ho as <-. vm_compute. reflexivity. }
  assert (Hnd : NoDup (default [] (__prevAssignedNodes o !! Doc.S1))).
  { rewrite Hprev. apply (bool_decide_unpack _). vm_compute. exact I. }
  split; [exists o; split; [reflexivity | exact Hnd]|].
  apply (handleDistributedChildren_completes Doc.domXY2 Doc.P1 Doc.S1 Doc.slottedZX o Ho Hnd).
  intros x Hx _. rewrite Hprev in Hx. vm_compute.
  apply elem_of_cons in Hx as [-> | Hx]; [left|].
  apply list_elem_of_singleton in Hx as ->. right. left.
Defined.

(** ** The callbacks of one handling *)

Lemma implementsComposed_sameOn (h h' : gmap nat TreeNode) (n : nat) :
  sameOn static h h' → implementsComposed h' n = implementsComposed h n.
Proof.
  intros Hs. specialize (Hs n). unfold implementsComposed.
  destruct (h' !! n) as [[]|], (h !! n) as [[]|]; simplify_eq/=; done.
Qed.

Lemma composedNow_sameOn (d : DOM) (h h' : gmap nat TreeNode) (this : nat) (l : list nat) :
  sameOn static h h' → composedNow d h' this l = composedNow d h this l.
Proof.
  intros Hs. unfold composedNow. f_equal. apply list_filter_iff. intros a.
  by rewrite (sameOn_is_Some static h h').
Qed.

Lemma composedLater_sameOn (d : DOM) (h h' : gmap nat TreeNode) (this : nat)
    (l : list nat) :
  sameOn static h h' → composedLater d h' this l = composedLater d h this l.
Proof.
  intros Hs. unfold composedLater. f_equal. apply list_filter_iff. intros a.
  by rewrite (sameOn_is_Some static h h').
Qed.

Lemma uncomposedAll_sameOn (h h' : gmap nat TreeNode) (this : nat) (l : list nat) :
  sameOn static h h' → uncomposedAll h' this l = uncomposedAll h this l.
Proof.
  intros Hs. unfold uncomposedAll. f_equal. apply list_filter_iff. intros a.
  by rewrite (sameOn_is_Some static h h').
Qed.

Lemma addedStep_fired (d : DOM) (this a : nat) (st : Tracker) :
  fired (addedStep d this st a)
  = fired st ++ (if implementsComposed (heap st) this
                 then composedNow d (heap st) this [a] else [])
  ∧ pending (addedStep d this st a)
    = pending st ++ (if implementsComposed (heap st) this
                     then composedLater d (heap st) this [a] else []).
Proof.
  unfold composedNow, composedLater. rewrite !filter_cons, !filter_nil.
  destruct (heap st !! a) as [oa|] eqn:Ha.
  - pose proof (addedStep_static d this a st) as Hs.
    pose proof (implementsComposed_sameOn _ _ this Hs) as Himpl.
    rewrite (addedStep_heap d this a st oa Ha) in Himpl. rewrite <- Himpl.
    unfold addedStep. rewrite Ha.
    unfold __triggerChildComposedCallback, implementsComposed. simpl.
    destruct (alter _ this _ !! this) as [o'|]; [|by rewrite !app_nil_r].
    destruct (childComposedCallback o'); simpl; [|by rewrite !app_nil_r].
    destruct (defined d a) eqn:Hdef; simpl; by rewrite app_nil_r.
  - rewrite addedStep_skip by done.
    rewrite !decide_False by (intros [[? Habs] _]; discriminate Habs).
    simpl. destruct (implementsComposed (heap st) this); by rewrite !app_nil_r.
Qed.

Lemma foldl_addedStep_fired (d : DOM) (this : nat) (l : list nat) :
  ∀ st,
    fired (foldl (addedStep d this) st l)
    = fired st ++ (if implementsComposed (heap st) this
                   then composedNow d (heap st) this l else [])
    ∧ pending (foldl (addedStep d this) st l)
      = pending st ++ (if implementsComposed (heap st) this
                       then composedLater d (heap st) this l else []).
Proof.
  induction l as [|a l IH]; intros st; simpl.
  { destruct (implementsComposed (heap st) this); by rewrite !app_nil_r. }
  destruct (IH (addedStep d this st a)) as [Hf Hp].
  destruct (addedStep_fired d this a st) as [Hf1 Hp1].
  pose proof (addedStep_static d this a st) as Hs.
  rewrite Hf, Hp, Hf1, Hp1, (implementsComposed_sameOn _ _ this Hs).
  rewrite (composedNow_sameOn d _ _ this l Hs), (composedLater_sameOn d _ _ this l Hs).
  rewrite <- !app_assoc.
  destruct (implementsComposed (heap st) this); [|done].
  unfold composedNow, composedLater.
  rewrite <- !fmap_app, <- !filter_app. done.
Qed.

Lemma removedLoop_fired (this : nat) (l : list nat) :
  ∀ st, (removedLoop this l st).2 = Normal →
        fired (removedLoop this l st).1
        = fired st ++ (if implementsUncomposed (heap st) this
                       then uncomposedAll (heap st) this l else [])
        ∧ pending (removedLoop this l st).1 = pending st.
Proof.
  induction l as [|r l IH]; intros st Hn; simpl in *.
  { destruct (implementsUncomposed (heap st) this); by rewrite !app_nil_r. }
  unfold uncomposedAll. rewrite filter_cons.
  destruct (heap st !! r) as [or|] eqn:Hor.
  2:{ simpl. by apply IH. }
  simpl.
  set (h1 := alter (set__distributedParent None) r (heap st)) in *.
  destruct (h1 !! this) as [o|] eqn:Ho; [|discriminate Hn].
  destruct (__distributedChildren o) as [dc|] eqn:Hdc; [|discriminate Hn].
  set (h2 := <[this := _]> h1) in *.
  assert (Hs2 : sameOn static (heap st) h2).
  { apply (sameOn_trans _ _ h1); [by apply sameOn_alter; intros []|].
    by eapply sameOn_insert. }
  destruct (IH _ Hn) as [Hf Hp].
  rewrite heap_triggerUncomposed in Hf. simpl in Hf.
  rewrite Hf, Hp, fired_triggerUncomposed. simpl.
  rewrite (implementsUncomposed_sameOn (heap st) h2) by done.
  rewrite (uncomposedAll_sameOn (heap st) h2) by done.
  split.
  - rewrite <- app_assoc. destruct (implementsUncomposed (heap st) this); done.
  - unfold __triggerChildUncomposedCallback. simpl.
    destruct (h2 !! this) as [o2|]; [|done]. by destruct (childUncomposedCallback o2).
Qed.

(** X11: when the handler completes, it has invoked or left waiting exactly
    one composed callback of type [slot] for every tree node the diff reports
    as added, in the order of the diff (at once for the defined nodes, on
    [whenDefined] for the others), and after those exactly one uncomposed
    callback for every tree node reported removed; an element that does not
    implement a callback gets none of that kind. *)
Theorem handleDistributedChildren_callbacks (d : DOM) (this s : nat) (st : Tracker)
    (o : TreeNode) :
  heap st !! this = Some o →
  (__handleDistributedChildren d this s st).2 = Normal →
  fired (__handleDistributedChildren d this s st).1
  = fired st
    ++ (if childComposedCallback o
        then composedNow d (heap st) this (added (__getDistributedChildDifference d o s).2)
        else [])
    ++ (if childUncomposedCallback o
        then uncomposedAll (heap st) this
               (removed (__getDistributedChildDifference d o s).2)
        else [])
  ∧ pending (__handleDistributedChildren d this s st).1
    = pending st
      ++ (if childComposedCallback o
          then composedLater d (heap st) this
                 (added (__getDistributedChildDifference d o s).2)
          else []).
Proof.
  intros Ho. unfold __handleDistributedChildren. rewrite Ho.
  unfold __getDistributedChildDifference. simpl.
  set (diff := diffLoop _ 0 _ []). set (st1 := set_heap _ st). intros Hn.
  assert (Hs1 : sameOn static (heap st) (heap st1)).
  { subst st1. simpl. by eapply sameOn_insert. }
  assert (Hs2 : sameOn static (heap st) (heap (foldl (addedStep d this) st1 (added diff)))).
  { eapply sameOn_trans; [exact Hs1|]. by apply foldl_addedStep_sameOn; intros ? []. }
  destruct (removedLoop_fired this (removed diff) _ Hn) as [Hf Hp].
  destruct (foldl_addedStep_fired d this (added diff) st1) as [Hf1 Hp1].
  rewrite Hf, Hp, Hf1, Hp1.
  rewrite (implementsUncomposed_sameOn _ _ this Hs2), (uncomposedAll_sameOn _ _ this _ Hs2).
  rewrite (implementsComposed_sameOn _ _ this Hs1).
  rewrite (composedNow_sameOn d _ _ this _ Hs1), (composedLater_sameOn d _ _ this _ Hs1).
  unfold implementsComposed, implementsUncomposed. rewrite Ho.
  split; [by rewrite <- app_assoc | done].
Qed.

Lemma handleDistributedChildren_callbacks_witness :
  (∃ o, heap Doc.slottedZX !! Doc.P1 = Some o)
  ∧ (__handleDistributedChildren Doc.domXY2 Doc.P1 Doc.S1 Doc.slottedZX).2 = Normal
  ∧ fired (__handleDistributedChildren Doc.domXY2 Doc.P1 Doc.S1 Doc.slottedZX).1
    = fired Doc.slottedZX
      ++ [Uncomposed Doc.P1 Doc.Z slot; Uncomposed Doc.P1 Doc.X slot].
Proof.
  destruct (heap Doc.slottedZX !! Doc.P1) as [o|] eqn:Ho;
    [|vm_compute in Ho; discriminate Ho].
  split; [by exists o|].
  assert (Hn : (__handleDistributedChildren Doc.domXY2 Doc.P1 Doc.S1 Doc.slottedZX).2
               = Normal) by (vm_compute; reflexivity).
  split; [exact Hn|].
  destruct (handleDistributedChildren_callbacks Doc.domXY2 Doc.P1 Doc.S1 Doc.slottedZX
              o Ho Hn) as [Hf _].
  etrans; [exact Hf|]. vm_compute in Ho. injection Ho as <-. vm_compute. reflexivity.
Defined.

(** ** Connecting and disconnecting *)

Lemma set_deferred_back (q : list (nat * nat)) (st : Tracker) :
  deferred st = [] → set_deferred [] (set_deferred q st) = st.
Proof. destruct st. simpl. by intros ->. Qed.

Lemma deferred_addSlotchangeListener (s this : nat) (st : Tracker) :
  deferred (addSlotchangeListener s this st) = deferred st.
Proof. unfold addSlotchangeListener. by case_decide. Qed.

(** X12: connecting a slot child only registers the listener and queues the
    handling; when nothing else is queued, running that deferred task against
    the same DOM leaves the tracker exactly as [__shadowRootChildAdded] does
    for a slot at the top of a shadow root, which handles it at once. *)
Theorem connected_slot_deferred (d : DOM) (this s : nat) (st : Tracker) (o : TreeNode) :
  heap st !! this = Some o →
  instanceofTreeNode (heap st) s = false →
  nodeClass d s = HTMLSlotElement →
  deferred st = [] →
  heap (childConnectedCallback d this s st) = heap st
  ∧ fired (childConnectedCallback d this s st) = fired st
  ∧ pending (childConnectedCallback d this s st) = pending st
  ∧ deferred (childConnectedCallback d this s st) = [(this, s)]
  ∧ step d RunDeferred (childConnectedCallback d this s st)
    = __shadowRootChildAdded d this s st.
Proof.
  intros Ho Hinst Hslot Hq.
  assert (Hnode : isNodeEl (heap st) s = false).
  { unfold instanceofTreeNode in Hinst. apply bool_decide_eq_false in Hinst.
    unfold isNodeEl. destruct (heap st !! s); [|done]. destruct Hinst. eauto. }
  unfold childConnectedCallback, __shadowRootChildAdded.
  rewrite Ho, Hnode, Hinst, decide_True by done.
  destruct (addSlotchangeListener_quiet s this st) as [Hf Hp].
  pose proof (deferred_addSlotchangeListener s this st) as Hd.
  simpl. rewrite heap_addSlotchangeListener, Hf, Hp, Hd, Hq. simpl.
  repeat split. rewrite decide_True by done. f_equal.
  apply set_deferred_back. by rewrite Hd.
Qed.

Lemma connected_slot_deferred_witness :
  heap (initTracker Doc.elements) !! Doc.P1 = Some (newTreeNode false true true true)
  ∧ step Doc.domX1 RunDeferred
      (childConnectedCallback Doc.domX1 Doc.P1 Doc.S1 (initTracker Doc.elements))
    = __shadowRootChildAdded Doc.domX1 Doc.P1 Doc.S1 (initTracker Doc.elements)
  ∧ fired (step Doc.domX1 RunDeferred
             (childConnectedCallback Doc.domX1 Doc.P1 Doc.S1
                (initTracker Doc.elements))).1
    = [Composed Doc.P1 Doc.X slot].
Proof.
  assert (Ho : heap (initTracker Doc.elements) !! Doc.P1
               = Some (newTreeNode false true true true)) by (vm_compute; reflexivity).
  split; [exact Ho|].
  assert (Hinst : instanceofTreeNode (heap (initTracker Doc.elements)) Doc.S1 = false)
    by (vm_compute; reflexivity).
  assert (Hslot : nodeClass Doc.domX1 Doc.S1 = HTMLSlotElement)
    by (vm_compute; reflexivity).
  destruct (connected_slot_deferred Doc.domX1 Doc.P1 Doc.S1 (initTracker Doc.elements)
              _ Ho Hinst Hslot eq_refl) as (_ & _ & _ & _ & Heq).
  split; [exact Heq|]. rewrite Heq. vm_compute. reflexivity.
Defined.

(** X13: the composed callback that waits for the definition of a child is
    not cancelled when the child is disconnected.  For a node child that is
    not yet defined, connected to and then disconnected from a parent that is
    a scene or has recorded no shadow root (and implements both callbacks),
    the uncomposed callback is invoked at the disconnection and the composed
    callback only afterwards, when [whenDefined] resolves. *)
Theorem composed_after_uncomposed (d : DOM) (this child : nat) (st : Tracker)
    (o : TreeNode) :
  heap st !! this = Some o → isNodeEl (heap st) child = true →
  tracksShadowRoot o = false →
  childComposedCallback o = true → childUncomposedCallback o = true →
  defined d child = false →
  (childDisconnectedCallback d this child (childConnectedCallback d this child st)).2
  = Normal
  ∧ heap (childDisconnectedCallback d this child
            (childConnectedCallback d this child st)).1 = heap st
  ∧ fired (childDisconnectedCallback d this child
             (childConnectedCallback d this child st)).1
    = fired st ++ [Uncomposed this child actual]
  ∧ fired (whenDefinedResolved (toLowerCase (tagName d child))
             (childDisconnectedCallback d this child
                (childConnectedCallback d this child st)).1)
    = fired st ++ [Uncomposed this child actual]
      ++ (filter (λ p, p.1 = toLowerCase (tagName d child)) (pending st)).*2
      ++ [Composed this child actual].
Proof.
  intros Ho Hnode Htracks Hc Hu Hdef.
  unfold childConnectedCallback. rewrite Ho, Hnode, Htracks.
  unfold __triggerChildComposedCallback. rewrite Ho, Hc, Hdef. simpl.
  unfold childDisconnectedCallback. simpl. rewrite Ho, Hnode, Htracks.
  unfold __triggerChildUncomposedCallback. simpl. rewrite Ho, Hu. simpl.
  split; [done|]. split; [done|]. split; [done|].
  rewrite filter_app, filter_cons, filter_nil.
  rewrite decide_True by done. rewrite fmap_app. simpl.
  by rewrite <- !app_assoc.
Qed.

Lemma composed_after_uncomposed_witness :
  let st := initTracker Doc.elements in
  heap st !! Doc.sceneE = Some (newTreeNode true false true true)
  ∧ fired (whenDefinedResolved "lume-node"
             (childDisconnectedCallback Doc.domUndefined Doc.sceneE Doc.X
                (childConnectedCallback Doc.domUndefined Doc.sceneE Doc.X st)).1)
    = [Uncomposed Doc.sceneE Doc.X actual; Composed Doc.sceneE Doc.X actual].
Proof.
  intros st.
  assert (Ho : heap st !! Doc.sceneE = Some (newTreeNode true false true true))
    by (vm_compute; reflexivity).
  split; [exact Ho|].
  assert (Hnode : isNodeEl (heap st) Doc.X = true) by (vm_compute; reflexivity).
  assert (Hdef : defined Doc.domUndefined Doc.X = false) by (vm_compute; reflexivity).
  destruct (composed_after_uncomposed Doc.domUndefined Doc.sceneE Doc.X st _ Ho Hnode
              eq_refl eq_refl eq_refl Hdef) as (_ & _ & _ & Hf).
  etrans; [exact Hf|]. vm_compute. reflexivity.
Defined.

(** X14: reporting a tree node as a shadow-root child and then as removed
    from the root restores the heap when the node had no shadow-root parent
    before; in between, its shadow-root parent is [this], and [this] is its
    composed parent unless it has a distributed parent or its parent element
    is a scene.  With both callbacks implemented and the child defined, the
    pair invokes the composed and then the uncomposed callback of type
    [root]. *)
Theorem shadowRootChild_round_trip (d : DOM) (this child : nat) (st : Tracker)
    (o oc : TreeNode) :
  heap st !! this = Some o → heap st !! child = Some oc →
  __shadowRootParent oc = None →
  srpOf (heap (__shadowRootChildAdded d this child st).1) child = Some this
  ∧ (__distributedParent oc = None →
     (∀ p, parentElement d child = Some p → isSceneEl (heap st) p = false) →
     _composedParent d (heap (__shadowRootChildAdded d this child st).1) child
     = Some this)
  ∧ heap (__shadowRootChildRemoved d this child
            (__shadowRootChildAdded d this child st).1).1 = heap st
  ∧ (childComposedCallback o = true → childUncomposedCallback o = true →
     defined d child = true →
     fired (__shadowRootChildRemoved d this child
              (__shadowRootChildAdded d this child st).1).1
     = fired st ++ [Composed this child root; Uncomposed this child root]).
Proof.
  intros Ho Hoc Hsrp.
  assert (Hinst : instanceofTreeNode (heap st) child = true).
  { unfold instanceofTreeNode. apply bool_decide_eq_true. eauto. }
  unfold __shadowRootChildAdded. rewrite Hinst. simpl.
  rewrite heap_triggerComposed. simpl.
  set (h1 := alter (set__shadowRootParent (Some this)) child (heap st)).
  assert (Hs1 : sameOn static (heap st) h1) by (by apply sameOn_alter; intros []).
  assert (Hc1 : h1 !! child = Some (set__shadowRootParent (Some this) oc)).
  { unfold h1. rewrite lookup_alter_eq. by rewrite Hoc. }
  split; [unfold srpOf; by rewrite Hc1|]. split.
  - intros Hdp Hnoscene. unfold _composedParent. rewrite Hc1.
    assert (Hguard : match parentElement d child with
                     | Some p => isSceneEl h1 p
                     | None => false
                     end = false).
    { destruct (parentElement d child) as [p|] eqn:Hp; [|done].
      rewrite <- (Hnoscene p eq_refl). unfold isSceneEl.
      specialize (Hs1 p). destruct (h1 !! p) as [[]|], (heap st !! p) as [[]|];
        simplify_eq/=; done. }
    rewrite Hguard. destruct oc; simpl in *. by rewrite Hdp.
  - set (st1 := __triggerChildComposedCallback d this child root (set_heap h1 st)).
    assert (Hh1 : heap st1 = h1) by (subst st1; by rewrite heap_triggerComposed).
    unfold __shadowRootChildRemoved.
    assert (Hinst1 : instanceofTreeNode (heap st1) child = true).
    { rewrite Hh1. unfold instanceofTreeNode. apply bool_decide_eq_true.
      rewrite Hc1. eauto. }
    rewrite Hinst1. simpl. rewrite heap_triggerUncomposed. simpl. rewrite Hh1. split.
    + unfold h1. rewrite alter_alter_eq. apply alter_id.
      intros x Hx. rewrite Hoc in Hx. injection Hx as <-.
      destruct oc; simpl in *. by rewrite Hsrp.
    + intros Hc Hu Hdef. rewrite fired_triggerUncomposed. simpl.
      rewrite (implementsUncomposed_sameOn (heap st) (alter _ child h1)).
      2:{ apply (sameOn_trans _ _ h1); [done|]. by apply sameOn_alter; intros []. }
      unfold implementsUncomposed. rewrite Ho, Hu.
      subst st1. unfold __triggerChildComposedCallback. simpl.
      specialize (Hs1 this). rewrite Ho in Hs1.
      destruct (h1 !! this) as [o1|]; [|discriminate Hs1].
      simpl in Hs1. injection Hs1 as _ _ Hcb _. rewrite Hcb, Hc, Hdef. simpl.
      by rewrite <- app_assoc.
Qed.

Lemma shadowRootChild_round_trip_witness :
  let st := initTracker Doc.elements in
  (heap st !! Doc.hostB = Some (newTreeNode false true true true)
   ∧ heap st !! Doc.X = Some (newTreeNode false true true true))
  ∧ _composedParent Doc.domXrootB
      (heap (__shadowRootChildAdded Doc.domXrootB Doc.hostB Doc.X st).1) Doc.X
    = Some Doc.hostB
  ∧ heap (__shadowRootChildRemoved Doc.domXrootB Doc.hostB Doc.X
            (__shadowRootChildAdded Doc.domXrootB Doc.hostB Doc.X st).1).1 = heap st.
Proof.
  intros st.
  assert (Ho : heap st !! Doc.hostB = Some (newTreeNode false true true true))
    by (vm_compute; reflexivity).
  assert (Hoc : heap st !! Doc.X = Some (newTreeNode false true true true))
    by (vm_compute; reflexivity).
  split; [by split|].
  destruct (shadowRootChild_round_trip Doc.domXrootB Doc.hostB Doc.X st _ _ Ho Hoc
              eq_refl) as (_ & Hparent & Hheap & _).
  split; [|exact Hheap].
  apply Hparent; [reflexivity|]. intros p Hp. vm_compute in Hp. discriminate Hp.
Defined.

(** ** The snapshots *)

Lemma handleDistributedChildren_snapshot (d : DOM) (this s : nat) (st : Tracker)
    (o : TreeNode) :
  heap st !! this = Some o →
  __prevAssignedNodes <$> heap (__handleDistributedChildren d this s st).1 !! this
  = Some (<[s := resolveNewNodes d o s]> (__prevAssignedNodes o))
  ∧ ∀ n, n ≠ this →
         __prevAssignedNodes <$> heap (__handleDistributedChildren d this s st).1 !! n
         = __prevAssignedNodes <$> heap st !! n.
Proof.
  intros Ho. unfold __handleDistributedChildren. rewrite Ho.
  unfold __getDistributedChildDifference.
  set (diff := diffLoop _ 0 _ []). set (st1 := set_heap _ st).
  assert (Hs : ∀ n, __prevAssignedNodes
                      <$> heap (removedLoop this (removed diff)
                                  (foldl (addedStep d this) st1 (added diff))).1 !! n
                    = __prevAssignedNodes <$> heap st1 !! n).
  { intros n.
    rewrite (removedLoop_sameOn __prevAssignedNodes this (removed diff))
      by (by intros ? []).
    by rewrite (foldl_addedStep_sameOn __prevAssignedNodes d this (added diff))
      by (by intros ? []). }
  split.
  - rewrite Hs. subst st1. simpl. by rewrite lookup_insert_eq.
  - intros n Hn. rewrite Hs. subst st1. simpl. by rewrite lookup_insert_ne.
Qed.

(** X15: the handler stores the slot's resolved list as its snapshot, also
    when it throws, and touches no other snapshot; disconnecting the slot
    deletes the snapshot when the handling completed and leaves the new one
    behind when it threw. *)
Theorem snapshot_life_cycle (d : DOM) (this s : nat) (st : Tracker) (o : TreeNode) :
  heap st !! this = Some o →
  (__prevAssignedNodes <$> heap (__handleDistributedChildren d this s st).1 !! this
   = Some (<[s := resolveNewNodes d o s]> (__prevAssignedNodes o))
   ∧ ∀ n, n ≠ this →
          __prevAssignedNodes <$> heap (__handleDistributedChildren d this s st).1 !! n
          = __prevAssignedNodes <$> heap st !! n)
  ∧ (isNodeEl (heap st) s = false → nodeClass d s = HTMLSlotElement →
     __prevAssignedNodes <$> heap (childDisconnectedCallback d this s st).1 !! this
     = Some (match (childDisconnectedCallback d this s st).2 with
             | Normal => delete s (__prevAssignedNodes o)
             | TypeError => <[s := resolveNewNodes d o s]> (__prevAssignedNodes o)
             end)).
Proof.
  intros Ho. split; [by apply handleDistributedChildren_snapshot|].
  intros Hnode Hslot. unfold childDisconnectedCallback.
  rewrite Ho, Hnode, decide_True by done.
  destruct (handleDistributedChildren_snapshot d this s
              (removeSlotchangeListenerCapture s this st) o Ho) as [Hsnap _].
  destruct (__handleDistributedChildren d this s
              (removeSlotchangeListenerCapture s this st)) as [st1 []]; simpl in *;
    [|exact Hsnap].
  rewrite lookup_alter_eq.
  destruct (heap st1 !! this) as [o1|]; [|discriminate Hsnap].
  simpl in *. injection Hsnap as Hsnap. destruct o1; simpl in *. subst.
  by rewrite delete_insert_eq.
Qed.

Lemma snapshot_life_cycle_witness :
  (∃ o, heap Doc.slottedX !! Doc.P1 = Some o
        ∧ __prevAssignedNodes o = {[Doc.S1 := [Doc.X]]})
  ∧ (childDisconnectedCallback Doc.domXY2 Doc.P1 Doc.S1 Doc.slottedX).2 = Normal
  ∧ __prevAssignedNodes
      <$> heap (childDisconnectedCallback Doc.domXY2 Doc.P1 Doc.S1 Doc.slottedX).1
          !! Doc.P1
    = Some ∅.
Proof.
  destruct (heap Doc.slottedX !! Doc.P1) as [o|] eqn:Ho;
    [|vm_compute in Ho; discriminate Ho].
  assert (Hprev : __prevAssignedNodes o = {[Doc.S1 := [Doc.X]]}).
  { vm_compute in Ho. injection Ho as <-. vm_compute. reflexivity. }
  split; [by exists o|].
  assert (Hn : (childDisconnectedCallback Doc.domXY2 Doc.P1 Doc.S1 Doc.slottedX).2
               = Normal) by (vm_compute; reflexivity).
  split; [exact Hn|].
  destruct (snapshot_life_cycle Doc.domXY2 Doc.P1 Doc.S1 Doc.slottedX o Ho)
    as [_ Hforget].
  assert (Hnode : isNodeEl (heap Doc.slottedX) Doc.S1 = false)
    by (vm_compute; reflexivity).
  assert (Hslot : nodeClass Doc.domXY2 Doc.S1 = HTMLSlotElement)
    by (vm_compute; reflexivity).
  rewrite (Hforget Hnode Hslot), Hn, Hprev. reflexivity.
Defined.

Lemma diffLoop_same_short (l : list nat) :
  length l ≤ 1 → diffLoop l 0 l [] = mkDiff [] [].
Proof.
  destruct l as [|x [|y l]]; simpl; [done| |lia].
  intros _. by rewrite decide_True.
Qed.

(** X16: handling a slot a second time against the same DOM changes nothing
    and completes, provided the slot resolves to at most one element. *)
Theorem handleDistributedChildren_again (d : DOM) (this s : nat) (st : Tracker)
    (o : TreeNode) :
  heap st !! this = Some o →
  length (resolveNewNodes d o s) ≤ 1 →
  __handleDistributedChildren d this s (__handleDistributedChildren d this s st).1
  = ((__handleDistributedChildren d this s st).1, Normal).
Proof.
  intros Ho Hshort.
  destruct (handleDistributedChildren_snapshot d this s st o Ho) as [Hsnap _].
  pose proof (handleDistributedChildren_sameOn static d this s st
                ltac:(by intros ? []) ltac:(by intros ? []) ltac:(by intros ? []) this)
    as Hstatic.
  set (st' := (__handleDistributedChildren d this s st).1) in *.
  destruct (heap st' !! this) as [o'|] eqn:Ho'; [|discriminate Hsnap].
  rewrite Ho in Hstatic. simpl in Hsnap, Hstatic.
  injection Hsnap as Hsnap. injection Hstatic as Hscene _ _ _.
  assert (Hnew : resolveNewNodes d o' s = resolveNewNodes d o s).
  { unfold resolveNewNodes. by rewrite Hscene. }
  unfold __handleDistributedChildren at 1. rewrite Ho'.
  unfold __getDistributedChildDifference. rewrite Hnew, Hsnap, lookup_insert_eq. simpl.
  rewrite (diffLoop_same_short _ Hshort). simpl. f_equal.
  rewrite insert_insert_eq.
  assert (Hsame : set__prevAssignedNodes
                    (<[s := resolveNewNodes d o s]> (__prevAssignedNodes o)) o' = o').
  { destruct o'; simpl in *. by rewrite Hsnap. }
  rewrite Hsame, insert_id by done. by destruct st'.
Qed.

Lemma handleDistributedChildren_again_witness :
  heap (initTracker Doc.elements) !! Doc.P1 = Some (newTreeNode false true true true)
  ∧ length (resolveNewNodes Doc.domX1 (newTreeNode false true true true) Doc.S1) ≤ 1
  ∧ __handleDistributedChildren Doc.domX1 Doc.P1 Doc.S1 Doc.slottedX
    = (Doc.slottedX, Normal).
Proof.
  assert (Ho : heap (initTracker Doc.elements) !! Doc.P1
               = Some (newTreeNode false true true true)) by (vm_compute; reflexivity).
  assert (Hshort : length (resolveNewNodes Doc.domX1
                             (newTreeNode false true true true) Doc.S1) ≤ 1)
    by (vm_compute; lia).
  split; [exact Ho|]. split; [exact Hshort|].
  exact (handleDistributedChildren_again Doc.domX1 Doc.P1 Doc.S1
           (initTracker Doc.elements) _ Ho Hshort).
Defined.

(** ** The getters on a plain tree *)

(** X17: for an element that is a scene or has recorded no shadow root and
    has nothing distributed to it, the composed children are exactly
    [lumeChildren], and [lumeChildCount] counts them; for a node without
    pointers whose parent element is a [TreeNode] that is a scene or has no
    shadow, the composed parent is [lumeParent]. *)
Theorem plain_tree_getters (d : DOM) (h : gmap nat TreeNode) (this : nat) (o : TreeNode) :
  h !! this = Some o →
  (tracksShadowRoot o = false → __distributedChildren o = None →
     _composedChildren d h this = lumeChildren d h this
     ∧ lumeChildCount d h this = length (_composedChildren d h this)
     ∧ lumeChildCount d h this ≤ length (children d this))
  ∧ (∀ p, parentElement d this = Some p → is_Some (h !! p) →
          isSceneEl h p = true
          ∨ (__distributedParent o = None ∧ __shadowRootParent o = None
             ∧ nodeClass d p = HTMLElement ∧ hasShadow d p = false) →
          _composedParent d h this = Some p ∧ lumeParent d h this = Some p).
Proof.
  intros Ho. split.
  - intros Htracks Hdc.
    assert (Heq : _composedChildren d h this = lumeChildren d h this).
    { unfold _composedChildren, lumeChildren. by rewrite Ho, Htracks, Hdc. }
    split; [exact Heq|]. split; [unfold lumeChildCount; by rewrite Heq|].
    unfold lumeChildCount, lumeChildren. apply length_filter.
  - intros p Hp Hsome Hcase.
    assert (Hlume : lumeParent d h this = Some p).
    { unfold lumeParent, instanceofTreeNode. rewrite Hp. by rewrite bool_decide_true. }
    split; [|exact Hlume].
    unfold _composedParent. rewrite Ho, Hp.
    destruct (isSceneEl h p) eqn:Hscene; [done|].
    destruct Hcase as [Habs | (Hdp & Hsrp & Hclass & Hshadow)]; [discriminate Habs|].
    rewrite Hdp, Hsrp.
    assert (Hpn : parentNode d this = Some p).
    { unfold parentElement in Hp. destruct (parentNode d this) as [q|]; [|done].
      destruct (nodeClass d q); by simplify_eq. }
    by rewrite Hpn, Hclass, Hshadow.
Qed.

Lemma plain_tree_getters_witness :
  Doc.elements !! Doc.X = Some (newTreeNode false true true true)
  ∧ _composedParent Doc.domXscene Doc.elements Doc.X = Some Doc.sceneE
  ∧ lumeParent Doc.domXscene Doc.elements Doc.X = Some Doc.sceneE
  ∧ _composedChildren Doc.domXscene Doc.elements Doc.sceneE
    = lumeChildren Doc.domXscene Doc.elements Doc.sceneE.
Proof.
  assert (Hx : Doc.elements !! Doc.X = Some (newTreeNode false true true true))
    by (vm_compute; reflexivity).
  assert (Hs : Doc.elements !! Doc.sceneE = Some (newTreeNode true false true true))
    by (vm_compute; reflexivity).
  split; [exact Hx|].
  destruct (plain_tree_getters Doc.domXscene Doc.elements Doc.X _ Hx) as [_ Hparent].
  destruct (plain_tree_getters Doc.domXscene Doc.elements Doc.sceneE _ Hs)
    as [Hchildren _].
  assert (Hp : parentElement Doc.domXscene Doc.X = Some Doc.sceneE)
    by (vm_compute; reflexivity).
  destruct (Hparent Doc.sceneE Hp (ex_intro _ _ Hs) (or_introl eq_refl)) as [Hc Hl].
  split; [exact Hc|]. split; [exact Hl|].
  exact (proj1 (Hchildren eq_refl eq_refl)).
Defined.

(** X18: right after [attachShadow] on an element that is not a scene, with
    the new root still empty, the element has no composed children, whatever
    its light children and the nodes distributed to it are. *)
Theorem attachShadow_hides_children (d : DOM) (this r : nat) (st : Tracker)
    (o : TreeNode) :
  heap st !! this = Some o → isScene o = false → children d r = [] →
  _composedChildren d (heap (attachShadow d this r st).1) this = [].
Proof.
  intros Ho Hscene Hempty. unfold attachShadow. rewrite Ho, Hscene. simpl.
  set (st2 := set_observers _ _).
  pose proof (foldl_uncomposeChild_sameOn
                (λ o, (isScene o, __shadowRoot o)) this (children d this)
                ltac:(by intros ? []) st2 this) as Hs.
  subst st2. simpl in Hs. rewrite lookup_insert_eq in Hs. simpl in Hs.
  unfold _composedChildren.
  destruct (heap (foldl (uncomposeChild this) _ (children d this)) !! this) as [o'|];
    [|done].
  simpl in Hs. injection Hs as Hsc Hroot.
  unfold tracksShadowRoot, _distributedShadowRootChildren, _shadowRootChildren.
  rewrite Hsc, Hroot, Hscene, Hempty. reflexivity.
Qed.

Lemma attachShadow_hides_children_witness :
  Doc.elements !! Doc.P1 = Some (newTreeNode false true true true)
  ∧ _composedChildren Doc.domX1 (heap Doc.slottedX) Doc.P1 = [Doc.X]
  ∧ _composedChildren Doc.domX1
      (heap (attachShadow Doc.domX1 Doc.P1 Doc.rootB Doc.slottedX).1) Doc.P1 = [].
Proof.
  split; [vm_compute; reflexivity|]. split; [vm_compute; reflexivity|].
  destruct (heap Doc.slottedX !! Doc.P1) as [o|] eqn:Ho;
    [|vm_compute in Ho; discriminate Ho].
  apply (attachShadow_hides_children Doc.domX1 Doc.P1 Doc.rootB Doc.slottedX o Ho).
  - vm_compute in Ho. injection Ho as <-. reflexivity.
  - vm_compute. reflexivity.
Defined.

(** ** What the distribution handler leaves alone *)

(** X19: handling a slot writes nothing but distributed-parent pointers,
    distributed-children sets and the snapshot: no element is created or
    lost, and the recorded shadow root, the shadow-root parent and the
    possibly-distributed flag of every element stay as they were. *)
Theorem handleDistributedChildren_frame (d : DOM) (this s : nat) (st : Tracker) (n : nat) :
  (λ o, (static o, __shadowRoot o, __shadowRootParent o,
         __isPossiblyDistributedToShadowRoot o))
    <$> heap (__handleDistributedChildren d this s st).1 !! n
  = (λ o, (static o, __shadowRoot o, __shadowRootParent o,
           __isPossiblyDistributedToShadowRoot o))
      <$> heap st !! n.
Proof. by apply handleDistributedChildren_sameOn; intros ? []. Qed.

(** * Connecting a child, and what composes it *)






(** * The two composition pointers at rest *)

Lemma snapshotOf_sameOn (h h' : gmap nat TreeNode) (p s : nat) :
  sameOn __prevAssignedNodes h h' → snapshotOf h' p s = snapshotOf h p s.
Proof.
  intros Hs. unfold snapshotOf. specialize (Hs p).
  destruct (h' !! p) as [o'|], (h !! p) as [o|]; simpl in *;
    [|discriminate Hs|discriminate Hs|done].
  injection Hs as Hs. by rewrite Hs.
Qed.

Lemma pointerInSnapshot_frame (h h' : gmap nat TreeNode) :
  sameOn __distributedParent h h' → sameOn __prevAssignedNodes h h' →
  pointerInSnapshot h → pointerInSnapshot h'.
Proof.
  intros Hdp Hprev HK x p Hx. rewrite (dpOf_sameOn h h') in Hx by done.
  destruct (HK x p Hx) as [s Hs]. exists s. by rewrite (snapshotOf_sameOn h h').
Qed.

Lemma pointerInSet_clear (h : gmap nat TreeNode) (r : nat) :
  pointerInSet h → is_Some (h !! r) →
  pointerInSet (alter (set__distributedParent None) r h).
Proof.
  intros HP Hr x b Hx. rewrite dpOf_set in Hx by done.
  case_decide; [discriminate Hx|].
  rewrite (dcOf_sameOn h) by (by apply sameOn_alter; intros []). by apply HP.
Qed.

Lemma pointerInSet_delete (h : gmap nat TreeNode) (this r : nat) (o : TreeNode)
    (dc : list nat) :
  pointerInSet h → h !! this = Some o → __distributedChildren o = Some dc →
  dpOf h r = None →
  pointerInSet (<[this := set__distributedChildren
                            (if decide (length (Set_delete r dc) = 0) then None
                             else Some (Set_delete r dc)) o]> h).
Proof.
  intros HP Ho Hdc Hr x b Hx.
  rewrite (dpOf_sameOn h) in Hx by (by eapply sameOn_insert).
  assert (Hne : x ≠ r) by (intros ->; congruence).
  rewrite dcOf_insert, default_if_empty. case_decide as Hb; [subst b|by apply HP].
  apply Set_delete_elem. split; [|done].
  apply HP in Hx. unfold dcOf in Hx. rewrite Ho in Hx. simpl in Hx. by rewrite Hdc in Hx.
Qed.

(** The loop over the removed nodes does not end, normally or by the
    exception, before it has cleared every pointer to [this] among them: as
    long as such a pointer is left, the set of [this] is there. *)
Lemma removedLoop_clears (this : nat) (l : list nat) :
  ∀ st, pointerInSet (heap st) →
        ∀ x, x ∈ l → dpOf (heap (removedLoop this l st).1) x ≠ Some this.
Proof.
  induction l as [|r l IH]; intros st HP x Hx; simpl; [by apply elem_of_nil in Hx|].
  destruct (heap st !! r) as [_o|] eqn:Hr.
  2:{ apply elem_of_cons in Hx as [-> | Hx]; [|by apply IH].
      destruct (removedLoop_pointers this l st r) as [_ [Hd | [Hd | Hd]]].
      - rewrite Hd. unfold dpOf. by rewrite Hr.
      - by rewrite Hd.
      - by apply elem_of_nil in Hd. }
  set (h1 := alter (set__distributedParent None) r (heap st)).
  assert (HP1 : pointerInSet h1) by (apply pointerInSet_clear; eauto).
  assert (Hdp1 : dpOf h1 r = None).
  { unfold h1. rewrite dpOf_set by eauto. by rewrite decide_True. }
  destruct (h1 !! this) as [o|] eqn:Hthis.
  2:{ simpl. intros Hdp. apply HP1 in Hdp. unfold dcOf in Hdp. rewrite Hthis in Hdp.
      by apply elem_of_nil in Hdp. }
  destruct (__distributedChildren o) as [dc|] eqn:Hdc.
  2:{ simpl. intros Hdp. apply HP1 in Hdp. unfold dcOf in Hdp. rewrite Hthis in Hdp.
      simpl in Hdp. rewrite Hdc in Hdp. by apply elem_of_nil in Hdp. }
  set (st' := __triggerChildUncomposedCallback this r slot _).
  assert (Hh' : heap st' = <[this := set__distributedChildren
                                       (if decide (length (Set_delete r dc) = 0) then None
                                        else Some (Set_delete r dc)) o]> h1).
  { unfold st'. by rewrite heap_triggerUncomposed. }
  assert (HP2 : pointerInSet (heap st')).
  { rewrite Hh'. by apply pointerInSet_delete. }
  apply elem_of_cons in Hx as [-> | Hx]; [|by apply IH].
  assert (Hdp2 : dpOf (heap st') r = None).
  { rewrite Hh'. rewrite (dpOf_sameOn h1) by (by eapply sameOn_insert). exact Hdp1. }
  destruct (removedLoop_pointers this l st' r) as [_ [Hd | [Hd | Hd]]].
  - by rewrite Hd, Hdp2.
  - by rewrite Hd.
  - by apply elem_of_nil in Hd.
Qed.

(** The loop over the added nodes sets pointers to [this], for added nodes,
    and no others. *)
Lemma foldl_addedStep_dp (d : DOM) (this : nat) (l : list nat) :
  ∀ st x, is_Some (heap st !! this) →
          dpOf (heap (foldl (addedStep d this) st l)) x = dpOf (heap st) x
          ∨ (x ∈ l ∧ dpOf (heap (foldl (addedStep d this) st l)) x = Some this).
Proof.
  induction l as [|a l IH]; intros st x Hthis; simpl; [by left|].
  assert (Hthis1 : is_Some (heap (addedStep d this st a) !! this)).
  { by apply (sameOn_is_Some static (heap st)); [apply addedStep_static|]. }
  destruct (IH (addedStep d this st a) x Hthis1) as [Hsame | [Hin Hset]].
  - rewrite Hsame. destruct (heap st !! a) as [oa|] eqn:Ha.
    + destruct (addedStep_effect d this a st oa Ha Hthis) as (Hdpa & Hdp & _).
      destruct (decide (x = a)) as [->|Hne].
      * right. split; [left | done].
      * left. by apply Hdp.
    + rewrite addedStep_skip by done. by left.
  - right. split; [by right | done].
Qed.

(** Handling a slot keeps every pointer inside of a snapshot: the nodes it
    points to [this] are in the new snapshot, and the nodes that the new
    snapshot has lost are reported removed and have their pointer cleared. *)
Lemma pointerInSnapshot_handle (d : DOM) (this s : nat) (st : Tracker) :
  pointerInSet (heap st) → pointerInSnapshot (heap st) →
  pointerInSnapshot (heap (__handleDistributedChildren d this s st).1).
Proof.
  intros HP HK. unfold __handleDistributedChildren.
  destruct (heap st !! this) as [o|] eqn:Ho; [|done].
  unfold __getDistributedChildDifference.
  set (prev := default [] (__prevAssignedNodes o !! s)).
  set (new := resolveNewNodes d o s).
  set (diff := diffLoop prev 0 new []).
  set (st1 := set_heap _ st).
  set (st2 := foldl (addedStep d this) st1 (added diff)).
  assert (Hthis1 : is_Some (heap st1 !! this)).
  { simpl. rewrite lookup_insert_eq. eauto. }
  assert (Hdp1 : sameOn __distributedParent (heap st) (heap st1))
    by (simpl; by eapply sameOn_insert).
  assert (Hdc1 : sameOn __distributedChildren (heap st) (heap st1))
    by (simpl; by eapply sameOn_insert).
  assert (Hs1 : sameOn static (heap st) (heap st1))
    by (simpl; by eapply sameOn_insert).
  assert (HP2 : pointerInSet (heap st2)).
  { apply foldl_addedStep_inv; [intros; by apply pointerInSet_addedStep | done |].
    by apply (pointerInSet_frame (heap st)). }
  assert (Hprev3 : sameOn __prevAssignedNodes (heap st1)
                     (heap (removedLoop this (removed diff) st2).1)).
  { apply (sameOn_trans _ _ (heap st2)).
    - apply foldl_addedStep_sameOn; by intros ? [].
    - apply removedLoop_sameOn; by intros ? []. }
  assert (Hsnap1 : ∀ p s', snapshotOf (heap st1) p s'
                           = if decide (p = this ∧ s' = s) then new
                             else snapshotOf (heap st) p s').
  { intros p s'. unfold snapshotOf. simpl. destruct (decide (p = this)) as [->|Hp].
    - rewrite lookup_insert_eq, Ho. simpl. destruct (decide (s' = s)) as [->|Hs].
      + rewrite lookup_insert_eq. by rewrite decide_True.
      + rewrite lookup_insert_ne by done. by rewrite decide_False by (intros [_ ?]; done).
    - rewrite lookup_insert_ne by done. by rewrite decide_False by (intros [? _]; done). }
  intros x p Hx.
  assert (Hx2 : dpOf (heap st2) x = Some p).
  { destruct (removedLoop_pointers this (removed diff) st2 x) as [_ [Hd | [Hd | Hd]]].
    - by rewrite <- Hd.
    - congruence.
    - by apply elem_of_nil in Hd. }
  destruct (foldl_addedStep_dp d this (added diff) st1 x Hthis1) as [Hsame | [Hin Hset]].
  - fold st2 in Hsame. rewrite Hsame in Hx2.
    rewrite (dpOf_sameOn (heap st)) in Hx2 by done.
    destruct (HK x p Hx2) as [s' Hs'].
    destruct (decide (p = this ∧ s' = s)) as [[-> ->]|Hne].
    + destruct (decide (x ∈ new)) as [Hnew|Hgone].
      * exists s. rewrite (snapshotOf_sameOn (heap st1)) by done.
        by rewrite Hsnap1, decide_True.
      * exfalso.
        assert (Hrem : x ∈ removed diff).
        { apply diffLoop_gone_removed; [|done].
          unfold snapshotOf in Hs'. by rewrite Ho in Hs'. }
        by apply (removedLoop_clears this (removed diff) st2 HP2 x Hrem).
    + exists s'. rewrite (snapshotOf_sameOn (heap st1)) by done.
      by rewrite Hsnap1, decide_False.
  - fold st2 in Hset. rewrite Hset in Hx2. injection Hx2 as <-. exists s.
    rewrite (snapshotOf_sameOn (heap st1)) by done. rewrite Hsnap1, decide_True by done.
    by apply (diffLoop_added_sublist prev 0 new []).
Qed.

(** Forgetting the snapshot of a slot that resolved to nothing. *)
Lemma pointerInSnapshot_forget (d : DOM) (this s : nat) (st0 st1 : Tracker) :
  assignedElements d s = [] →
  __handleDistributedChildren d this s st0 = (st1, Normal) →
  pointerInSnapshot (heap st1) → pointerInSnapshot (heap (forgetSlot this s st1)).
Proof.
  intros Hempty Hh HK.
  assert (Hsnap : snapshotOf (heap st1) this s = []).
  { destruct (heap st0 !! this) as [o|] eqn:Ho.
    - destruct (handleDistributedChildren_snapshot d this s st0 o Ho) as [Hs _].
      rewrite Hh in Hs. simpl in Hs. unfold snapshotOf.
      destruct (heap st1 !! this) as [o1|]; [|done]. simpl in *. injection Hs as ->.
      rewrite lookup_insert_eq. simpl.
      pose proof (resolveNewNodes_sublist d o s) as Hsub. rewrite Hempty in Hsub.
      destruct (resolveNewNodes d o s) as [|y l]; [done|].
      exfalso. eapply elem_of_nil, Hsub. left.
    - rewrite handle_without_this in Hh by done. injection Hh as <-.
      unfold snapshotOf. by rewrite Ho. }
  intros x p Hx.
  rewrite (dpOf_sameOn (heap st1)) in Hx by (simpl; by apply sameOn_alter; intros []).
  destruct (HK x p Hx) as [s' Hs']. exists s'.
  destruct (decide (p = this ∧ s' = s)) as [[-> ->]|Hne].
  { rewrite Hsnap in Hs'. by apply elem_of_nil in Hs'. }
  unfold snapshotOf in *. simpl. rewrite lookup_alter. case_decide as Hp; [|done].
  subst p. destruct (heap st1 !! this) as [o1|]; [|done]. simpl in *.
  rewrite lookup_delete_ne; [done|]. intros ->. by apply Hne.
Qed.

(** What a mutation does to the distributed-parent pointers and to the
    snapshots: nothing, or what the handling of a slot does, or that followed
    by the deletion of the snapshot of the slot, which is then reported
    removed. *)
Lemma step_snapshot_cases (d : DOM) (m : Mutation) (st : Tracker) :
  (handledSlot d m st = None
   ∧ sameOn __distributedParent (heap st) (heap (step d m st).1)
   ∧ sameOn __prevAssignedNodes (heap st) (heap (step d m st).1))
  ∨ (∃ this s st0,
       handledSlot d m st = Some (this, s)
       ∧ heap st0 = heap st
       ∧ heap (step d m st).1 = heap (__handleDistributedChildren d this s st0).1)
  ∨ (∃ this s st0 st1,
       handledSlot d m st = Some (this, s)
       ∧ heap st0 = heap st
       ∧ __handleDistributedChildren d this s st0 = (st1, Normal)
       ∧ heap (step d m st).1 = heap (forgetSlot this s st1)
       ∧ nodeClass d s = HTMLSlotElement
       ∧ (m = ChildDisconnected this s ∨ m = ShadowRootChildRemoved this s)).
Proof.
  assert (Hrefl : ∀ h, sameOn __distributedParent h h ∧ sameOn __prevAssignedNodes h h)
    by (intros h; split; apply sameOn_refl).
  assert (Halter : ∀ f k h,
             (∀ o, __distributedParent (f o) = __distributedParent o) →
             (∀ o, __prevAssignedNodes (f o) = __prevAssignedNodes o) →
             sameOn __distributedParent h (alter f k h)
             ∧ sameOn __prevAssignedNodes h (alter f k h)).
  { intros f k h H1 H2. split; by apply sameOn_alter. }
  assert (Habsent : ∀ (f : TreeNode → TreeNode) (k : nat) (h : gmap nat TreeNode),
             h !! k = None → alter f k h = h).
  { intros f k h Hk. apply map_eq. intros n. rewrite lookup_alter.
    case_decide; [subst; by rewrite Hk | done]. }
  assert (Hforget : ∀ this s st0 (m0 : Mutation),
             handledSlot d m0 st = Some (this, s) →
             heap st0 = heap st → nodeClass d s = HTMLSlotElement →
             m0 = ChildDisconnected this s ∨ m0 = ShadowRootChildRemoved this s →
             ∀ st', heap st' = heap (match __handleDistributedChildren d this s st0 with
                                     | (st1, Normal) => (forgetSlot this s st1, Normal)
                                     | (st1, TypeError) => (st1, TypeError)
                                     end).1 →
             (∃ this s st0,
                 handledSlot d m0 st = Some (this, s)
                 ∧ heap st0 = heap st
                 ∧ heap st' = heap (__handleDistributedChildren d this s st0).1)
             ∨ (∃ this s st0 st1,
                   handledSlot d m0 st = Some (this, s)
                   ∧ heap st0 = heap st
                   ∧ __handleDistributedChildren d this s st0 = (st1, Normal)
                   ∧ heap st' = heap (forgetSlot this s st1)
                   ∧ nodeClass d s = HTMLSlotElement
                   ∧ (m0 = ChildDisconnected this s ∨ m0 = ShadowRootChildRemoved this s))).
  { intros this s st0 m0 Hhs H0 Hc Hm st' Hst'.
    destruct (__handleDistributedChildren d this s st0) as [st1 []] eqn:Hh; simpl in Hst'.
    - right. exists this, s, st0, st1. by rewrite Hh.
    - left. exists this, s, st0. by rewrite Hh. }
  destruct m as [this r|this child|this child|this child|this child|this s| |tag];
    unfold step.
  - left. split; [done|]. simpl. split; by apply attachShadow_sameOn; intros ? [].
  - left. split; [done|]. simpl.
    split; by apply childConnectedCallback_sameOn; intros ? [].
  - unfold childDisconnectedCallback.
    destruct (heap st !! this) as [o|] eqn:Ho.
    2:{ left. split; [|apply Hrefl]. unfold handledSlot. rewrite Ho.
        destruct (isNodeEl (heap st) child); [done|]. by case_decide. }
    destruct (isNodeEl (heap st) child) eqn:Hnode.
    + left. split; [unfold handledSlot; by rewrite Hnode|].
      destruct (tracksShadowRoot o); simpl; [by apply Halter; intros []|].
      rewrite heap_triggerUncomposed. apply Hrefl.
    + case_decide as Hc.
      2:{ left. split; [|apply Hrefl]. unfold handledSlot. rewrite Hnode.
          by rewrite decide_False. }
      right.
      apply (Hforget this child (removeSlotchangeListenerCapture child this st)
               (ChildDisconnected this child)); [|done|done|by left|done].
      unfold handledSlot. rewrite Hnode, Ho. by rewrite decide_True.
  - unfold __shadowRootChildAdded.
    destruct (instanceofTreeNode (heap st) child) eqn:Hinst.
    + left. split; [unfold handledSlot; by rewrite Hinst|]. simpl.
      rewrite heap_triggerComposed. simpl. by apply Halter; intros [].
    + case_decide as Hc.
      2:{ left. split; [|apply Hrefl]. unfold handledSlot. rewrite Hinst.
          by rewrite decide_False. }
      destruct (heap st !! this) as [o|] eqn:Ho.
      * right. left. exists this, child, (addSlotchangeListener child this st).
        split; [|split; [apply heap_addSlotchangeListener | done]].
        unfold handledSlot. rewrite Hinst, Ho. by rewrite decide_True.
      * left. split.
        { unfold handledSlot. rewrite Hinst, Ho. by rewrite decide_True. }
        rewrite handle_without_this by (by rewrite heap_addSlotchangeListener).
        simpl. rewrite heap_addSlotchangeListener. apply Hrefl.
  - unfold __shadowRootChildRemoved.
    destruct (instanceofTreeNode (heap st) child) eqn:Hinst.
    + left. split; [unfold handledSlot; by rewrite Hinst|]. simpl.
      rewrite heap_triggerUncomposed. simpl. by apply Halter; intros [].
    + case_decide as Hc.
      2:{ left. split; [|apply Hrefl]. unfold handledSlot. rewrite Hinst.
          by rewrite decide_False. }
      destruct (heap st !! this) as [o|] eqn:Ho.
      * right.
        apply (Hforget this child (removeSlotchangeListenerCapture child this st)
                 (ShadowRootChildRemoved this child)); [|done|done|by right|done].
        unfold handledSlot. rewrite Hinst, Ho. by rewrite decide_True.
      * left. split.
        { unfold handledSlot. rewrite Hinst, Ho. by rewrite decide_True. }
        rewrite handle_without_this by done. simpl.
        rewrite Habsent by done. apply Hrefl.
  - right. left. by exists this, s, st.
  - destruct (deferred st) as [|[this s] rest] eqn:Hq.
    + left. split; [unfold handledSlot; by rewrite Hq | apply Hrefl].
    + right. left. exists this, s, (set_deferred rest st).
      split; [unfold handledSlot; by rewrite Hq | done].
  - left. split; [done | apply Hrefl].
Qed.

Lemma step_pointerInSet (d : DOM) (m : Mutation) (st : Tracker) :
  pointerInSet (heap st) → pointerInSet (heap (step d m st).1).
Proof.
  apply step_inv; [apply pointerInSet_frame|].
  apply handleDistributedChildren_inv.
  - apply pointerInSet_frame.
  - intros. by apply pointerInSet_addedStep.
  - intros. by apply pointerInSet_removedLoop.
Qed.

Lemma step_pointerInSnapshot (d : DOM) (m : Mutation) (st : Tracker) :
  slotGone d m → pointerInSet (heap st) → pointerInSnapshot (heap st) →
  pointerInSnapshot (heap (step d m st).1).
Proof.
  intros Hgone HP HK.
  destruct (step_snapshot_cases d m st)
    as [(_ & Hdp & Hprev) | [(this & s & st0 & _ & H0 & Hh)
                            | (this & s & st0 & st1 & _ & H0 & Hh & Hf & Hc & Hm)]].
  - by apply (pointerInSnapshot_frame (heap st)).
  - rewrite Hh. apply pointerInSnapshot_handle; by rewrite H0.
  - rewrite Hf. apply (pointerInSnapshot_forget d this s st0 st1); [|done|].
    + destruct Hm as [-> | ->]; by apply Hgone.
    + pose proof (pointerInSnapshot_handle d this s st0) as HK1.
      rewrite Hh in HK1. apply HK1; by rewrite H0.
Qed.

(** After the handling of a slot, its snapshot holds elements that the slot
    resolves to, and the other snapshots are as before. *)
Lemma snapshotOf_handle (d : DOM) (this s : nat) (st : Tracker) (p s' x : nat) :
  x ∈ snapshotOf (heap (__handleDistributedChildren d this s st).1) p s' →
  (p = this ∧ s' = s ∧ x ∈ assignedElements d s)
  ∨ (¬ (p = this ∧ s' = s) ∧ x ∈ snapshotOf (heap st) p s').
Proof.
  intros Hx. destruct (heap st !! this) as [o|] eqn:Ho.
  2:{ rewrite handle_without_this in Hx by done. simpl in Hx.
      destruct (decide (p = this ∧ s' = s)) as [[-> ->]|Hne]; [|by right].
      unfold snapshotOf in Hx. rewrite Ho in Hx. by apply elem_of_nil in Hx. }
  destruct (handleDistributedChildren_snapshot d this s st o Ho) as [Hthis Hother].
  unfold snapshotOf in *. destruct (decide (p = this)) as [->|Hp].
  - destruct (heap (__handleDistributedChildren d this s st).1 !! this) as [o1|];
      [|discriminate Hthis].
    simpl in *. injection Hthis as Hthis. rewrite Hthis in Hx. rewrite Ho. simpl.
    destruct (decide (s' = s)) as [->|Hs].
    + left. rewrite lookup_insert_eq in Hx. simpl in Hx.
      split; [done|]. split; [done|]. by apply (resolveNewNodes_sublist d o s).
    + right. rewrite lookup_insert_ne in Hx by done. split; [|done]. by intros [_ ?].
  - right. split; [by intros [? _]|]. specialize (Hother p Hp).
    destruct (heap (__handleDistributedChildren d this s st).1 !! p) as [o1|],
             (heap st !! p) as [o0|]; simpl in *;
      [|discriminate Hother|discriminate Hother|done].
    injection Hother as Hother. by rewrite <- Hother.
Qed.

Lemma snapshotOf_forget (this s : nat) (st : Tracker) (p s' x : nat) :
  x ∈ snapshotOf (heap (forgetSlot this s st)) p s' →
  ¬ (p = this ∧ s' = s) ∧ x ∈ snapshotOf (heap st) p s'.
Proof.
  unfold snapshotOf, forgetSlot. simpl. rewrite lookup_alter.
  case_decide as Hp; [subst p|].
  - destruct (heap st !! this) as [o|]; simpl; [|intros Hx; by apply elem_of_nil in Hx].
    destruct (decide (s' = s)) as [->|Hs].
    + rewrite lookup_delete_eq. simpl. intros Hx. by apply elem_of_nil in Hx.
    + rewrite lookup_delete_ne by done. intros Hx. split; [|done]. by intros [_ ?].
  - intros Hx. split; [|done]. intros [? _]. by apply Hp.
Qed.

(** The snapshots hold what the handled slots were seen to resolve to. *)
Lemma step_snapshotSeen (d : DOM) (m : Mutation) (st : Tracker) (t : Told) :
  snapshotSeen (heap st) (told_views t) →
  snapshotSeen (heap (step d m st).1) (told_views (tell d m st t)).
Proof.
  intros HN p s' x Hx. unfold tell. simpl.
  assert (Hkeep : ∀ this s, ¬ (p = this ∧ s' = s) → x ∈ snapshotOf (heap st) p s' →
            ∃ l, <[(this, s) := assignedElements d s]> (told_views t) !! (p, s') = Some l
                 ∧ x ∈ l).
  { intros this s Hne Hold. rewrite lookup_insert_ne; [by apply HN|].
    intros [= -> ->]. by apply Hne. }
  destruct (step_snapshot_cases d m st)
    as [(Hnone & _ & Hprev) | [(this & s & st0 & Hhs & H0 & Hh)
                              | (this & s & st0 & st1 & Hhs & H0 & Hh & Hf & _)]].
  - rewrite Hnone. apply HN.
    by rewrite <- (snapshotOf_sameOn (heap st) (heap (step d m st).1) p s').
  - rewrite Hhs. rewrite Hh in Hx.
    apply snapshotOf_handle in Hx as [(-> & -> & Hin) | [Hne Hold]].
    + exists (assignedElements d s). by rewrite lookup_insert_eq.
    + apply Hkeep; [done|]. by rewrite <- H0.
  - rewrite Hhs. rewrite Hf in Hx. apply snapshotOf_forget in Hx as [Hne Hx].
    assert (Hx1 : x ∈ snapshotOf (heap (__handleDistributedChildren d this s st0).1) p s')
      by (by rewrite Hh).
    apply snapshotOf_handle in Hx1 as [(-> & -> & _) | [_ Hold]]; [by destruct Hne|].
    apply Hkeep; [done|]. by rewrite <- H0.
Qed.

Lemma shadowRootChildRemoved_srp (d : DOM) (this child : nat) (st : Tracker) :
  srpOf (heap (__shadowRootChildRemoved d this child st).1) child = None.
Proof.
  destruct (heap st !! child) as [oc|] eqn:Hc.
  - unfold __shadowRootChildRemoved, instanceofTreeNode.
    rewrite bool_decide_true by eauto. simpl. rewrite heap_triggerUncomposed. simpl.
    unfold srpOf. rewrite lookup_alter_eq. by rewrite Hc.
  - pose proof (step_static d (ShadowRootChildRemoved this child) st child) as Hs.
    simpl in Hs. rewrite Hc in Hs. unfold srpOf.
    by destruct (heap (__shadowRootChildRemoved d this child st).1 !! child).
Qed.

(** The shadow-root-parent pointers follow the reports: one is set by the
    report of the child, and cleared by the report of its removal. *)
Lemma step_pointerReported (d : DOM) (m : Mutation) (st : Tracker)
    (reports : list (nat * nat)) :
  pointerReported (heap st) reports →
  pointerReported (heap (step d m st).1) (reportShadowRootChild m reports).
Proof.
  intros HM x p Hx.
  assert (Hcases : srpOf (heap st) x = Some p
                   ∨ m = ShadowRootChildAdded p x).
  { destruct (step_heap_cases d m st)
      as [(this & child & v & Hm & Hh) | [(this & s & _ & Hp) | Hp]].
    - rewrite Hh in Hx. unfold srpOf in *. rewrite lookup_alter in Hx.
      case_decide as Hn; [subst child | by left].
      destruct Hm as [[-> ->] | [-> ->]].
      + right. destruct (heap st !! x); simplify_eq/=. done.
      + destruct (heap st !! x); simplify_eq/=.
    - left. by rewrite <- (proj1 (Hp x)).
    - left. by rewrite <- (proj1 (Hp x)). }
  destruct Hcases as [Hold | ->]; [|by left].
  apply HM in Hold.
  destruct m as [this r|this child|this child|this child|this child|this s| |tag];
    simpl; try done.
  - by right.
  - apply list_elem_of_filter. split; [|done].
    intros [= -> ->]. simpl in Hx. by rewrite shadowRootChildRemoved_srp in Hx.
Qed.

Lemma tracked_inv (st : Tracker) (t : Told) :
  tracked st t →
  pointerInSet (heap st) ∧ pointerInSnapshot (heap st)
  ∧ snapshotSeen (heap st) (told_views t)
  ∧ pointerReported (heap st) (told_reports t).
Proof.
  induction 1 as [h Hf | d m st t Ht (HP & HK & HN & HM) Hgone].
  - assert (Hnone : ∀ x, dpOf h x = None ∧ srpOf h x = None).
    { intros x. unfold dpOf, srpOf. destruct (h !! x) as [o|] eqn:Ho; [|done].
      simpl. destruct (freshHeap_fields h x o Hf Ho) as (_ & Hd & Hs & _).
      by rewrite Hd, Hs. }
    split; [|split; [|split]].
    + intros x p Hx. simpl in Hx. by rewrite (proj1 (Hnone x)) in Hx.
    + intros x p Hx. simpl in Hx. by rewrite (proj1 (Hnone x)) in Hx.
    + intros p s x Hx. unfold snapshotOf in Hx. simpl in Hx.
      destruct (h !! p) as [o|] eqn:Ho; [|by apply elem_of_nil in Hx].
      apply Hf in Ho. unfold freshTreeNode in Ho. rewrite Ho in Hx. simpl in Hx.
      rewrite lookup_empty in Hx. by apply elem_of_nil in Hx.
    + intros x p Hx. simpl in Hx. by rewrite (proj2 (Hnone x)) in Hx.
  - split; [by apply step_pointerInSet|].
    split; [by apply step_pointerInSnapshot|].
    split; [by apply step_snapshotSeen | by apply step_pointerReported].
Qed.

Lemma tracked_run (ms : list (DOM * Mutation)) :
  ∀ st t,
    tracked st t → Forall (λ dm, slotGone dm.1 dm.2) ms →
    tracked (run ms st) (toldAfter ms st t).
Proof.
  induction ms as [|[d m] ms IH]; intros st t Ht Hall; simpl; [done|].
  apply Forall_cons in Hall as [Hgone Hall].
  apply IH; [|done]. by constructor.
Qed.

Lemma viewsCurrent_check (d : DOM) (views : gmap (nat * nat) (list nat)) :
  map_Forall (λ ps l, Forall (λ x, x ∈ assignedElements d ps.2) l) views →
  viewsCurrent d views.
Proof.
  intros Hall this s l x Hl Hx. specialize (Hall (this, s) l Hl). simpl in Hall.
  rewrite Forall_forall in Hall. by apply Hall.
Qed.

Lemma reportsCurrent_document (px : nat) (to1 to2 : list nat) (up1 : option nat)
    (undef : list nat) (reports : list (nat * nat)) :
  (∀ this child, (this, child) ∈ reports → (child ∉ to1) ∧ (child ∉ to2)) →
  reportsCurrent (Doc.document px to1 to2 up1 undef) reports.
Proof.
  intros Hout this child s Hin. destruct (Hout this child Hin) as [H1 H2].
  unfold Doc.document, Doc.table. simpl.
  destruct (decide (s = Doc.S1)) as [->|Hs1].
  { by rewrite lookup_insert_eq. }
  rewrite lookup_insert_ne by done.
  destruct (decide (s = Doc.S2)) as [->|Hs2].
  { by rewrite lookup_insert_eq. }
  rewrite lookup_insert_ne by done. rewrite lookup_empty. apply not_elem_of_nil.
Qed.

(** A slot reported removed while it still resolves to an element: the
    handler forgets the snapshot that would let it see the element leave, and
    the pointer of the element to the parent that the slot left stays, also
    once everything that the tracker has been told is true of the document
    again. *)
Example slot_moved_both_pointers :
  reachable (run slotMoved (initTracker Doc.elements))
  ∧ ¬ slotGone Doc.domX1 (ChildDisconnected Doc.P1 Doc.S1)
  ∧ upToDate Doc.domXrootB
      (toldAfter slotMoved (initTracker Doc.elements) (mkTold [] ∅))
  ∧ mkListener Doc.S1 Doc.P1 false
    ∈ listeners (run slotMoved (initTracker Doc.elements))
  ∧ dpOf (heap (run slotMoved (initTracker Doc.elements))) Doc.X = Some Doc.P1
  ∧ srpOf (heap (run slotMoved (initTracker Doc.elements))) Doc.X = Some Doc.hostB.
Proof.
  split; [apply reachable_run; constructor; apply elements_fresh|].
  split.
  { intros Hgone.
    assert (Hc : nodeClass Doc.domX1 Doc.S1 = HTMLSlotElement) by (vm_compute; reflexivity).
    specialize (Hgone Hc). vm_compute in Hgone. discriminate Hgone. }
  split.
  { split.
    - apply viewsCurrent_check. apply (bool_decide_unpack _). vm_compute. exact I.
    - assert (Hr : told_reports (toldAfter slotMoved (initTracker Doc.elements)
                                   (mkTold [] ∅)) = [(Doc.hostB, Doc.X)])
        by (vm_compute; reflexivity).
      rewrite Hr. apply reportsCurrent_document. intros this child Hin.
      split; apply not_elem_of_nil. }
  split; [apply (bool_decide_unpack _); vm_compute; exact I|].
  split; vm_compute; reflexivity.
Qed.

(** A descendant of the shadow root that is assigned to a slot, and reported
    by the deep observer: both pointers are set, and no [slotchange] is
    outstanding that would clear one of them. *)
Example reported_descendant_both_pointers :
  tracked (run reportDescendant (initTracker Doc.elements))
    (toldAfter reportDescendant (initTracker Doc.elements) (mkTold [] ∅))
  ∧ told_reports (toldAfter reportDescendant (initTracker Doc.elements) (mkTold [] ∅))
    = [(Doc.hostB, Doc.X)]
  ∧ viewsCurrent domNested
      (told_views (toldAfter reportDescendant (initTracker Doc.elements) (mkTold [] ∅)))
  ∧ parentNode domNested Doc.X = Some Doc.hostH
  ∧ parentNode domNested Doc.hostH = Some Doc.rootB
  ∧ Doc.X ∈ assignedElements domNested Doc.S1
  ∧ dpOf (heap (run reportDescendant (initTracker Doc.elements))) Doc.X = Some Doc.P1
  ∧ srpOf (heap (run reportDescendant (initTracker Doc.elements))) Doc.X = Some Doc.hostB.
Proof.
  split.
  { apply tracked_run; [constructor; apply elements_fresh | repeat constructor]. }
  split; [vm_compute; reflexivity|].
  split.
  { apply viewsCurrent_check. apply (bool_decide_unpack _). vm_compute. exact I. }
  split; [vm_compute; reflexivity|]. split; [vm_compute; reflexivity|].
  split; [apply (bool_decide_unpack _); vm_compute; exact I|].
  split; vm_compute; reflexivity.
Qed.

(** C4 (amended): both pointers of a node can be set while the tracker has
    not caught up with the document.  In every state reached from freshly
    constructed elements by tracked mutations (a slot being reported removed
    when it resolves to no elements any more), at most one of the two pointers
    of every element is set as soon as what the tracker has been told is true
    of the document: the elements that a slot resolved to when it was last
    handled are among its flattened assigned elements, and no node that has
    been reported as a shadow-root child, and not reported removed since, is
    among the flattened assigned elements of a slot. *)
Theorem exclusivePointers_at_rest (d : DOM) (st : Tracker) (t : Told) :
  tracked st t → upToDate d t → exclusivePointers (heap st).
Proof.
  intros Ht [Hviews Hrep] n.
  destruct (tracked_inv st t Ht) as (_ & HK & HN & HM).
  destruct (dpOf (heap st) n) as [p|] eqn:Hdp; [|by left]. right.
  destruct (srpOf (heap st) n) as [q|] eqn:Hsrp; [|done]. exfalso.
  destruct (HK n p Hdp) as [s Hs].
  destruct (HN p s n Hs) as (l & Hl & Hin).
  apply (Hrep q n s); [by apply HM | by apply (Hviews p s l)].
Qed.

Lemma exclusivePointers_at_rest_witness :
  tracked (run movedIntoRoot (initTracker Doc.elements))
    (toldAfter movedIntoRoot (initTracker Doc.elements) (mkTold [] ∅))
  ∧ upToDate domZrootB (toldAfter movedIntoRoot (initTracker Doc.elements) (mkTold [] ∅))
  ∧ told_reports (toldAfter movedIntoRoot (initTracker Doc.elements) (mkTold [] ∅))
    = [(Doc.hostB, Doc.X)]
  ∧ told_views (toldAfter movedIntoRoot (initTracker Doc.elements) (mkTold [] ∅))
      !! (Doc.P1, Doc.S1)
    = Some [Doc.Z]
  ∧ dpOf (heap (run movedIntoRoot (initTracker Doc.elements))) Doc.Z = Some Doc.P1
  ∧ srpOf (heap (run movedIntoRoot (initTracker Doc.elements))) Doc.X = Some Doc.hostB
  ∧ exclusivePointers (heap (run movedIntoRoot (initTracker Doc.elements))).
Proof.
  assert (Ht : tracked (run movedIntoRoot (initTracker Doc.elements))
                 (toldAfter movedIntoRoot (initTracker Doc.elements) (mkTold [] ∅))).
  { apply tracked_run; [constructor; apply elements_fresh | repeat constructor]. }
  assert (Hr : told_reports (toldAfter movedIntoRoot (initTracker Doc.elements)
                               (mkTold [] ∅)) = [(Doc.hostB, Doc.X)])
    by (vm_compute; reflexivity).
  assert (Hup : upToDate domZrootB
                  (toldAfter movedIntoRoot (initTracker Doc.elements) (mkTold [] ∅))).
  { split.
    - apply viewsCurrent_check. apply (bool_decide_unpack _). vm_compute. exact I.
    - rewrite Hr. apply reportsCurrent_document. intros this child Hin.
      apply list_elem_of_singleton in Hin. injection Hin as -> ->.
      split; [|apply not_elem_of_nil].
      intros Hx. apply list_elem_of_singleton in Hx. discriminate Hx. }
  split; [exact Ht|]. split; [exact Hup|]. split; [exact Hr|].
  split; [vm_compute; reflexivity|]. split; [vm_compute; reflexivity|].
  split; [vm_compute; reflexivity|].
  exact (exclusivePointers_at_rest domZrootB _ _ Ht Hup).
Defined.
